(** * Stay Liquid tab bar: a shallow embedding of the iOS overlay and of the
    web image manager, and the properties of the specification checked
    against them.

    Sources embedded here:
    - [ios/Plugin/TabsBarPlugin.swift]  (bridge: [configure], [select], decoding),
    - the overlay view controller ([TabsBarOverlay], its nested [ImageUtils]),
    - [src/components/tabs/web.ts]      ([ImageValidator] and [ImageManager]).

    Conventions: [CGFloat]/[Double] are exact rationals ([Q], compared with
    [==]); Swift [Int] is [Z]; Swift and JS dictionaries are [gmap]s; a Swift
    runtime trap (force unwrap of [nil], duplicate dictionary key) is the
    [Trap] outcome; UIKit and the network are a [Platform] record or inputs of
    the events. *)

From Stdlib Require Import ZArith QArith Qminmax String Ascii List Lia.
From Stdlib.Strings Require Import Byte.
From stdpp Require Import base option gmap strings list fin_maps pretty.

Open Scope string_scope.

(** ** Strings *)

Module Str.

(** [String.lowercased()] / [toLowerCase()], on the ASCII letters. *)
Definition lowercasedAscii (c : ascii) : ascii :=
  let n := nat_of_ascii c in
  if (65 <=? n)%nat && (n <=? 90)%nat then ascii_of_nat (n + 32) else c.

Fixpoint lowercased (s : string) : string :=
  match s with
  | EmptyString => EmptyString
  | String c r => String (lowercasedAscii c) (lowercased r)
  end.

Definition eqb (a b : string) : bool := bool_decide (a = b).

(** [Array.contains] / [Array.prototype.includes] on strings. *)
Definition contains (l : list string) (s : string) : bool :=
  existsb (eqb s) l.

Definition isEmpty (s : string) : bool := eqb s "".

End Str.

(** ** Swift runtime outcomes *)

(** A Swift computation either finishes or hits a runtime trap (the process
    is terminated: nothing after the trap runs). *)
Inductive Exec (A : Type) : Type :=
| Done (a : A)
| Trap.
Arguments Done {A} a.
Arguments Trap {A}.

Definition Exec_bind {A B} (m : Exec A) (k : A -> Exec B) : Exec B :=
  match m with
  | Done a => k a
  | Trap => Trap
  end.

(** [x!] : force unwrap. *)
Definition forceUnwrap {A} (o : option A) : Exec A :=
  match o with
  | Some a => Done a
  | None => Trap
  end.

(** [xs.map f] where [f] may trap: the first trap ends the evaluation. *)
Fixpoint Exec_map {A B} (f : A -> Exec B) (l : list A) : Exec (list B) :=
  match l with
  | [] => Done []
  | a :: r =>
      Exec_bind (f a) (fun b =>
      Exec_bind (Exec_map f r) (fun bs => Done (b :: bs)))
  end.

(** ** CoreGraphics and UIKit values *)

Record CGSize := mkSize { width : Q; height : Q }.
Record CGRect := mkRect { originX : Q; originY : Q; rectW : Q; rectH : Q }.

Definition CGRect_zero_origin (s : CGSize) : CGRect :=
  mkRect 0 0 (width s) (height s).

Inductive UIColor :=
| RGBA (r g b a : Q)
| systemBlue
| systemGray
| label
| withAlphaComponent (c : UIColor) (a : Q).

Inductive RenderingMode := automatic | alwaysOriginal | alwaysTemplate.

Definition Data := list byte.

(** An image is known by how it was made: decoded from bytes, read back from
    a bitmap context (its size and the drawing operations the context
    received), a named SF Symbol, an asset of the app bundle, or the empty
    [UIImage()]. *)
Inductive PathElement :=
| PathEllipse (r : CGRect)
| PathRoundedRect (r : CGRect) (cornerRadius : Q).

Inductive UIImage :=
| ImageOfData (d : Data) (size : CGSize)
| ImageOfContext (size : CGSize) (scale : Q) (ops : list DrawOp)
| ImageOfSymbol (name : string) (size : CGSize)
| ImageOfAsset (name : string) (size : CGSize)
| ImageEmpty
| ImageWithMode (mode : RenderingMode) (img : UIImage)
with DrawOp :=
| DrawImage (img : UIImage) (rect : CGRect)
| Clip (path : list PathElement)
| StrokeEllipse (rect : CGRect) (color : option UIColor) (lineWidth : Q)
| StrokePath (path : list PathElement) (color : option UIColor) (lineWidth : Q).

(** [image.size] *)
Fixpoint UIImage_size (i : UIImage) : CGSize :=
  match i with
  | ImageOfData _ s => s
  | ImageOfContext s _ _ => s
  | ImageOfSymbol _ s => s
  | ImageOfAsset _ s => s
  | ImageEmpty => mkSize 0 0
  | ImageWithMode _ i' => UIImage_size i'
  end.

(** What the code takes from UIKit, Foundation and the bridge. *)
Record Platform := {
  (** device scale used by a bitmap context opened with scale [0] *)
  screenScale : Q;
  (** [UIImage(data:)]: the pixel size of decodable bytes *)
  decodeImage : Data -> option CGSize;
  (** [Data(base64Encoded:)] *)
  base64Decode : string -> option Data;
  (** [URL(string:)] followed by [.scheme]; [None] when the string is no URL *)
  urlScheme : string -> option (option string);
  (** [UIImage(systemName:)]: size of the SF Symbol of that name, if any *)
  systemSymbol : string -> option CGSize;
  (** [UIImage(named:)]: size of the bundled asset of that name, if any *)
  bundledAsset : string -> option CGSize;
  (** [ColorUtils.parseColor] (hex and rgba syntax) *)
  parseColor : option string -> option UIColor
}.

(** [UIImage(data:)] *)
Definition UIImage_ofData (P : Platform) (d : Data) : option UIImage :=
  match decodeImage P d with
  | Some s => Some (ImageOfData d s)
  | None => None
  end.

(** [UIImage(systemName:)] *)
Definition UIImage_systemName (P : Platform) (name : string) : option UIImage :=
  match systemSymbol P name with
  | Some s => Some (ImageOfSymbol name s)
  | None => None
  end.

(** [UIImage(named:)] *)
Definition UIImage_named (P : Platform) (name : string) : option UIImage :=
  match bundledAsset P name with
  | Some s => Some (ImageOfAsset name s)
  | None => None
  end.

(** Swift's [min] and [max] on [CGFloat]. *)
Definition CGFloat_min (x y : Q) : Q := if Qle_bool x y then x else y.
Definition CGFloat_max (x y : Q) : Q := if Qle_bool x y then y else x.

(** ** Values crossing the bridge *)

Module JS.

(** A [JSValue] of the bridge (what [JSONSerialization] accepts). *)
Local Unset Elimination Schemes.
Inductive JSValue :=
| JSNull
| JSBool (b : bool)
| JSNumber (n : Q)
| JSString (s : string)
| JSArray (l : list JSValue)
| JSObject (fields : list (string * JSValue)).
Local Set Elimination Schemes.

Definition JSObj := list (string * JSValue).

Fixpoint get (k : string) (o : JSObj) : option JSValue :=
  match o with
  | [] => None
  | (k', v) :: r => if Str.eqb k k' then Some v else get k r
  end.

Definition asObject (v : JSValue) : option JSObj :=
  match v with JSObject f => Some f | _ => None end.

Definition asString (v : JSValue) : option string :=
  match v with JSString s => Some s | _ => None end.

Definition asBool (v : JSValue) : option bool :=
  match v with JSBool b => Some b | _ => None end.

Definition asDouble (v : JSValue) : option Q :=
  match v with JSNumber n => Some n | _ => None end.

(** A number converts to [Int] when it has no fractional part. *)
Definition asInt (v : JSValue) : option Z :=
  match v with
  | JSNumber n =>
      let r := Qred n in
      if (Qden r =? 1)%positive then Some (Qnum r) else None
  | _ => None
  end.

(** [xs as? [T]]: the cast of an array succeeds when every element casts. *)
Fixpoint castAll {A} (f : JSValue -> option A) (l : list JSValue) : option (list A) :=
  match l with
  | [] => Some []
  | v :: r =>
      match f v, castAll f r with
      | Some a, Some r' => Some (a :: r')
      | _, _ => None
      end
  end.

(** The accessors of [CAPPluginCall] over the call's options. *)
Definition getArray_JSObject (k : string) (call : JSObj) : option (list JSObj) :=
  match get k call with
  | Some (JSArray l) => castAll asObject l
  | _ => None
  end.

Definition getString (k : string) (call : JSObj) : option string :=
  get k call ≫= asString.

Definition getBool (k : string) (call : JSObj) : option bool :=
  get k call ≫= asBool.

Definition getDouble (k : string) (call : JSObj) : option Q :=
  get k call ≫= asDouble.

Definition getInt (k : string) (call : JSObj) : option Z :=
  get k call ≫= asInt.

(** *** [Decodable]: a decoding that throws is [None] *)

(** [container.decode(T.self, forKey:)]: a missing key, a null or a value
    of another type throws. *)
Definition decode {A} (dec : JSValue -> option A) (k : string) (o : JSObj) : option A :=
  get k o ≫= dec.

(** [container.decodeIfPresent(T.self, forKey:)]: a missing key or a null
    is [nil]; a value of another type throws. *)
Definition decodeIfPresent {A} (dec : JSValue -> option A) (k : string) (o : JSObj)
  : option (option A) :=
  match get k o with
  | None => Some None
  | Some JSNull => Some None
  | Some v => match dec v with
              | Some a => Some (Some a)
              | None => None
              end
  end.

End JS.

Module JSImageIconRing.
Record t := mk { enabled : bool; width : Q }.

Definition decode (v : JS.JSValue) : option t :=
  o ← JS.asObject v;
  enabled ← JS.decode JS.asBool "enabled" o;
  width ← JS.decode JS.asDouble "width" o;
  Some (mk enabled width).
End JSImageIconRing.

Module JSImageIcon.
Record t := mk {
  shape : string;
  size : string;
  image : string;
  ring : option JSImageIconRing.t
}.

Definition decode (v : JS.JSValue) : option t :=
  o ← JS.asObject v;
  shape ← JS.decode JS.asString "shape" o;
  size ← JS.decode JS.asString "size" o;
  image ← JS.decode JS.asString "image" o;
  ring ← JS.decodeIfPresent JSImageIconRing.decode "ring" o;
  Some (mk shape size image ring).
End JSImageIcon.

Module JSBadge.
Inductive t :=
| number (n : Z)
| dot
| null.

(** [init(from:)] *)
Definition decode (v : JS.JSValue) : option t :=
  match v with
  | JS.JSNull => Some null
  | _ =>
      match JS.asString v with
      | Some s => if Str.eqb s "dot" then Some dot
                  else match JS.asInt v with
                       | Some n => Some (number n)
                       | None => Some null
                       end
      | None => match JS.asInt v with
                | Some n => Some (number n)
                | None => Some null
                end
      end
  end.
End JSBadge.

Module JSItem.
Record t := mk {
  id : string;
  title : option string;
  systemIcon : option string;
  image : option string;
  imageIcon : option JSImageIcon.t;
  badge : option JSBadge.t
}.

(** The synthesized [init(from:)]: [id] is required, the optional
    properties are decoded with [decodeIfPresent]. *)
Definition decode (o : JS.JSObj) : option t :=
  id ← JS.decode JS.asString "id" o;
  title ← JS.decodeIfPresent JS.asString "title" o;
  systemIcon ← JS.decodeIfPresent JS.asString "systemIcon" o;
  image ← JS.decodeIfPresent JS.asString "image" o;
  imageIcon ← JS.decodeIfPresent JSImageIcon.decode "imageIcon" o;
  badge ← JS.decodeIfPresent JSBadge.decode "badge" o;
  Some (mk id title systemIcon image imageIcon badge).

(** [JSONDecoder().decode([JSItem].self, from:)] *)
Fixpoint decodeAll (l : list JS.JSObj) : option (list t) :=
  match l with
  | [] => Some []
  | o :: r =>
      match decode o, decodeAll r with
      | Some i, Some r' => Some (i :: r')
      | _, _ => None
      end
  end.
End JSItem.

(** ** The overlay's own item model *)

Module ImageIconRing.
Record t := mk { enabled : bool; width : option Q }.
End ImageIconRing.

Module ImageIcon.
Record t := mk {
  shape : string;
  size : string;
  image : string;
  ring : option ImageIconRing.t
}.
End ImageIcon.

Inductive TabsBarBadge :=
| badge_number (n : Z)
| badge_dot.

Module TabsBarItem.
Record t := mk {
  id : string;
  title : option string;
  systemIcon : string;
  image : option string;
  imageIcon : option ImageIcon.t;
  badge : option TabsBarBadge
}.
End TabsBarItem.

Inductive TabsBarInteractionKind := tap | longPress.

(** ** The UIKit bitmap-context stack

    [UIGraphicsBeginImageContextWithOptions] pushes a context,
    [UIGraphicsEndImageContext] pops it, and every drawing call goes to the
    context on top.  A drawing function is a state transformer over that
    stack. *)

Module Gfx.

Record CGContext := mkContext {
  ctxSize : CGSize;
  ctxScale : Q;
  ctxOps : list DrawOp;
  ctxStrokeColor : option UIColor;
  ctxLineWidth : Q;
  ctxPath : list PathElement
}.

Definition Stack := list CGContext.

Definition M (A : Type) : Type := Stack -> A * Stack.

Definition ret {A} (a : A) : M A := fun s => (a, s).

Definition bind {A B} (m : M A) (k : A -> M B) : M B :=
  fun s => let '(a, s') := m s in k a s'.

Definition run {A} (m : M A) (s : Stack) : A := fst (m s).

Declare Scope gfx_scope.
Delimit Scope gfx_scope with gfx.
Notation "x <- m ; k" := (bind m (fun x => k))
  (at level 20, m at level 100, k at level 200, only parsing) : gfx_scope.

(** Apply [f] to the current context, if there is one ([context?.f()]). *)
Definition onCurrent (f : CGContext -> CGContext) : M unit :=
  fun s => match s with
           | c :: rest => (tt, f c :: rest)
           | [] => (tt, [])
           end.

Definition emit (op : DrawOp) (c : CGContext) : CGContext :=
  mkContext (ctxSize c) (ctxScale c) (ctxOps c ++ [op])
            (ctxStrokeColor c) (ctxLineWidth c) (ctxPath c).

(** [UIGraphicsBeginImageContextWithOptions(size, false, 0)]: scale [0]
    selects the scale of the device's main screen. *)
Definition beginImageContext (P : Platform) (size : CGSize) : M unit :=
  fun s => (tt, mkContext size (screenScale P) [] None 1 [] :: s).

(** [UIGraphicsEndImageContext()] *)
Definition endImageContext : M unit :=
  fun s => (tt, tail s).

(** [UIGraphicsGetImageFromCurrentImageContext()] *)
Definition getImageFromCurrentImageContext : M (option UIImage) :=
  fun s => match s with
           | c :: _ => (Some (ImageOfContext (ctxSize c) (ctxScale c) (ctxOps c)), s)
           | [] => (None, s)
           end.

(** [image.draw(in: rect)] *)
Definition draw (image : UIImage) (rect : CGRect) : M unit :=
  onCurrent (emit (DrawImage image rect)).

(** [context?.addEllipse(in: rect)] *)
Definition addEllipse (rect : CGRect) : M unit :=
  onCurrent (fun c =>
    mkContext (ctxSize c) (ctxScale c) (ctxOps c)
              (ctxStrokeColor c) (ctxLineWidth c) (ctxPath c ++ [PathEllipse rect])).

(** [context?.addPath(UIBezierPath(roundedRect:cornerRadius:).cgPath)] *)
Definition addRoundedRectPath (rect : CGRect) (cornerRadius : Q) : M unit :=
  onCurrent (fun c =>
    mkContext (ctxSize c) (ctxScale c) (ctxOps c)
              (ctxStrokeColor c) (ctxLineWidth c)
              (ctxPath c ++ [PathRoundedRect rect cornerRadius])).

(** [context?.clip()]: the current path becomes the clip and is consumed. *)
Definition clip : M unit :=
  onCurrent (fun c =>
    mkContext (ctxSize c) (ctxScale c) (ctxOps c ++ [Clip (ctxPath c)])
              (ctxStrokeColor c) (ctxLineWidth c) []).

(** [context?.setStrokeColor(color.cgColor)] *)
Definition setStrokeColor (color : UIColor) : M unit :=
  onCurrent (fun c =>
    mkContext (ctxSize c) (ctxScale c) (ctxOps c)
              (Some color) (ctxLineWidth c) (ctxPath c)).

(** [context?.setLineWidth(w)] *)
Definition setLineWidth (w : Q) : M unit :=
  onCurrent (fun c =>
    mkContext (ctxSize c) (ctxScale c) (ctxOps c)
              (ctxStrokeColor c) w (ctxPath c)).

(** [context?.strokeEllipse(in: rect)] *)
Definition strokeEllipse (rect : CGRect) : M unit :=
  onCurrent (fun c => emit (StrokeEllipse rect (ctxStrokeColor c) (ctxLineWidth c)) c).

(** [context?.strokePath()]: strokes and consumes the current path. *)
Definition strokePath : M unit :=
  onCurrent (fun c =>
    mkContext (ctxSize c) (ctxScale c)
              (ctxOps c ++ [StrokePath (ctxPath c) (ctxStrokeColor c) (ctxLineWidth c)])
              (ctxStrokeColor c) (ctxLineWidth c) []).

(** A drawing function is self-contained when it hands back the stack of
    contexts it was given and its result does not depend on that stack. *)
Definition selfContained {A} (m : M A) : Prop :=
  exists a, forall stk, m stk = (a, stk).

End Gfx.

(** ** ImageUtils: scaling, masking, ring

    The file of the plugin and the overlay each carry a private [ImageUtils];
    [resizeImageAspectFill], [resizeImageToFill] and [makeCircularImage] are
    the same text in both, [resizeImageAspectFit] and
    [applyImageIconStyling] differ (padding, target size) and are embedded
    once per copy.  The overlay calls its own nested copy. *)

Module ImageUtils.

Import Gfx.
Local Open Scope gfx_scope.
Local Open Scope Q_scope.

Section WithPlatform.
Context (P : Platform).

(** The rectangle [resizeImageAspectFill] draws the source in. *)
Definition aspectFillRatio (size targetSize : CGSize) : Q :=
  let widthRatio := width targetSize / width size in
  let heightRatio := height targetSize / height size in
  CGFloat_max widthRatio heightRatio.

Definition centeredRect (targetSize : CGSize) (newSize : CGSize) : CGRect :=
  mkRect ((width targetSize - width newSize) / 2)
         ((height targetSize - height newSize) / 2)
         (width newSize)
         (height newSize).

(** [resizeImageAspectFill(_:targetSize:)] *)
Definition resizeImageAspectFill (image : UIImage) (targetSize : CGSize) : M UIImage :=
  let size := UIImage_size image in
  let ratio := aspectFillRatio size targetSize in
  let newSize := mkSize (width size * ratio) (height size * ratio) in
  let rect := centeredRect targetSize newSize in
  _ <- beginImageContext P targetSize ;
  _ <- draw image rect ;
  newImage <- getImageFromCurrentImageContext ;
  _ <- endImageContext ;
  ret (default image newImage).

(** [resizeImageToFill(_:targetSize:)] *)
Definition resizeImageToFill (image : UIImage) (targetSize : CGSize) : M UIImage :=
  _ <- beginImageContext P targetSize ;
  _ <- draw image (CGRect_zero_origin targetSize) ;
  newImage <- getImageFromCurrentImageContext ;
  _ <- endImageContext ;
  ret (default image newImage).

(** [makeCircularImage(_:)] *)
Definition makeCircularImage (image : UIImage) : M UIImage :=
  let size := UIImage_size image in
  let rect := CGRect_zero_origin size in
  _ <- beginImageContext P size ;
  _ <- addEllipse rect ;
  _ <- clip ;
  _ <- draw image rect ;
  circularImage <- getImageFromCurrentImageContext ;
  _ <- endImageContext ;
  ret (default image circularImage).

(** *** The copy nested in the overlay *)

Definition padding : Q := 4.

Definition aspectFitRatio (size targetSize : CGSize) : Q :=
  let availableSize :=
    mkSize (width targetSize - padding * 2) (height targetSize - padding * 2) in
  let widthRatio := width availableSize / width size in
  let heightRatio := height availableSize / height size in
  CGFloat_min widthRatio heightRatio.

(** [resizeImageAspectFit(_:targetSize:)], with padding *)
Definition resizeImageAspectFit (image : UIImage) (targetSize : CGSize) : M UIImage :=
  let size := UIImage_size image in
  let ratio := aspectFitRatio size targetSize in
  let newSize := mkSize (width size * ratio) (height size * ratio) in
  let rect := centeredRect targetSize newSize in
  _ <- beginImageContext P targetSize ;
  _ <- draw image rect ;
  newImage <- getImageFromCurrentImageContext ;
  _ <- endImageContext ;
  ret (default image newImage).

Definition targetSize : CGSize := mkSize 20 20.

(** [applyImageIconStyling(_:shape:size:)] *)
Definition applyImageIconStyling (image : option UIImage) (shape size : string)
  : M (option UIImage) :=
  match image with
  | None => ret None
  | Some image =>
      resizedImage <-
        (let s := Str.lowercased size in
         if Str.eqb s "cover" then resizeImageAspectFill image targetSize
         else if Str.eqb s "stretch" then resizeImageToFill image targetSize
         else if Str.eqb s "fit" then resizeImageAspectFit image targetSize
         else resizeImageAspectFit image targetSize) ;
      (let s := Str.lowercased shape in
       if Str.eqb s "circle" then
         c <- makeCircularImage resizedImage ; ret (Some c)
       else if Str.eqb s "square" then ret (Some resizedImage)
       else ret (Some resizedImage))
  end.

Definition bottomPadding : Q := 2.

(** [addEnhancedRingToImage(_:ringWidth:ringColor:)] *)
Definition addEnhancedRingToImage (image : UIImage) (ringWidth : Q) (ringColor : UIColor)
  : M UIImage :=
  let size := UIImage_size image in
  let spacerWidth := ringWidth in
  let totalRingSpace := spacerWidth + ringWidth in
  let newSize :=
    mkSize (width size + totalRingSpace * 2)
           (height size + totalRingSpace * 2 + bottomPadding) in
  _ <- beginImageContext P newSize ;
  _ <- (let imageRect := mkRect totalRingSpace totalRingSpace (width size) (height size) in
        draw image imageRect) ;
  _ <- setStrokeColor ringColor ;
  _ <- setLineWidth ringWidth ;
  _ <- (let ringRect :=
     mkRect (ringWidth / 2) (ringWidth / 2)
            (width newSize - ringWidth)
            (height newSize - ringWidth - bottomPadding) in
   if Qeq_bool (width (UIImage_size image)) (height (UIImage_size image)) then
     strokeEllipse ringRect
   else
     (let cornerRadius := CGFloat_min (width size) (height size) * (1 # 10) in
      _ <- addRoundedRectPath ringRect cornerRadius ;
      strokePath)) ;
  newImage <- getImageFromCurrentImageContext ;
  _ <- endImageContext ;
  ret (default image (ImageWithMode alwaysOriginal <$> newImage)).

(** [addRingToImage]: the legacy entry point *)
Definition addRingToImage (image : UIImage) (ringWidth : Q) (ringColor : UIColor)
  : M UIImage :=
  addEnhancedRingToImage image ringWidth ringColor.

(** *** The copy in the plugin file (never called by the overlay) *)

Definition plugin_aspectFitRatio (size targetSize : CGSize) : Q :=
  let widthRatio := width targetSize / width size in
  let heightRatio := height targetSize / height size in
  CGFloat_min widthRatio heightRatio.

Definition plugin_resizeImageAspectFit (image : UIImage) (targetSize : CGSize)
  : M UIImage :=
  let size := UIImage_size image in
  let ratio := plugin_aspectFitRatio size targetSize in
  let newSize := mkSize (width size * ratio) (height size * ratio) in
  let rect := centeredRect targetSize newSize in
  _ <- beginImageContext P targetSize ;
  _ <- draw image rect ;
  newImage <- getImageFromCurrentImageContext ;
  _ <- endImageContext ;
  ret (default image newImage).

Definition plugin_targetSize : CGSize := mkSize 30 30.

Definition plugin_applyImageIconStyling (image : option UIImage) (shape size : string)
  : M (option UIImage) :=
  match image with
  | None => ret None
  | Some image =>
      resizedImage <-
        (let s := Str.lowercased size in
         if Str.eqb s "cover" then resizeImageAspectFill image plugin_targetSize
         else if Str.eqb s "stretch" then resizeImageToFill image plugin_targetSize
         else if Str.eqb s "fit" then plugin_resizeImageAspectFit image plugin_targetSize
         else plugin_resizeImageAspectFit image plugin_targetSize) ;
      (let s := Str.lowercased shape in
       if Str.eqb s "circle" then
         c <- makeCircularImage resizedImage ; ret (Some c)
       else if Str.eqb s "square" then ret (Some resizedImage)
       else ret (Some resizedImage))
  end.

(** *** Sources: inline data URIs and remote URLs *)

Definition dataUriPrefixes : list string :=
  map (fun m => "data:image/" ++ m ++ ";base64,")
      ["png"; "jpeg"; "jpg"; "svg+xml"; "webp"].

(** [isValidBase64DataUri]: the pattern
    [^data:image/(png|jpeg|jpg|svg\+xml|webp);base64,], case-insensitive. *)
Definition isValidBase64DataUri (dataUri : string) : bool :=
  existsb (fun p => String.prefix p (Str.lowercased dataUri)) dataUriPrefixes.

(** [isValidHttpUrl] *)
Definition isValidHttpUrl (urlString : string) : bool :=
  match urlScheme P urlString with
  | None => false
  | Some scheme =>
      bool_decide (scheme = Some "http") || bool_decide (scheme = Some "https")
  end.

(** The text after the first comma ([firstIndex(of: ",")]). *)
Fixpoint afterFirstComma (s : string) : option string :=
  match s with
  | EmptyString => None
  | String c r => if Ascii.eqb c "," then Some r else afterFirstComma r
  end.

(** [loadImageFromBase64(_:)] *)
Definition loadImageFromBase64 (dataUri : string) : option UIImage :=
  match afterFirstComma dataUri with
  | None => None
  | Some base64String =>
      match base64Decode P base64String with
      | None => None
      | Some data => UIImage_ofData P data
      end
  end.

(** *** Remote images: cache, loading flags, data tasks *)

Definition maxFileSize : Z := 5 * 1024 * 1024.

Definition validTypes : list string :=
  ["image/png"; "image/jpeg"; "image/jpg"; "image/svg+xml"; "image/webp"].

(** What [URLSession] hands to the completion handler of a data task. *)
Record TaskResult := mkTaskResult {
  resultData : option Data;
  (** status code when the response is an [HTTPURLResponse] *)
  statusCode : option Z;
  mimeType : option string;
  (** [error != nil] *)
  hasError : bool
}.

Section Remote.
(** [C]: the completion closures passed to [loadImageFromUrl]. *)
Context {C : Type}.

Record Loader := mkLoader {
  imageCache : gmap string UIImage;
  loadingStates : gmap string bool;
  (** resumed data tasks: identity, url, completion *)
  tasks : list (nat * string * C);
  (** re-invocations queued with [asyncAfter(.now() + 0.1)] *)
  retries : list (string * C);
  nextTask : nat;
  (** urls requested from the network, oldest first *)
  issued : list string
}.

Definition Loader_empty : Loader := mkLoader ∅ ∅ [] [] 0 [].

(** A step returns the completions it called, in order. *)
Definition Called := list (C * option UIImage).

(** [loadImageFromUrl(_:completion:)], up to [task.resume()] *)
Definition loadImageFromUrl (urlString : string) (completion : C) (l : Loader)
  : Loader * Called :=
  match imageCache l !! urlString with
  | Some cachedImage => (l, [(completion, Some cachedImage)])
  | None =>
      if bool_decide (loadingStates l !! urlString = Some true) then
        (mkLoader (imageCache l) (loadingStates l) (tasks l)
                  (retries l ++ [(urlString, completion)])
                  (nextTask l) (issued l), [])
      else
        match urlScheme P urlString with
        | None => (l, [(completion, None)])
        | Some _ =>
            (mkLoader (imageCache l)
                      (<[urlString := true]> (loadingStates l))
                      (tasks l ++ [(nextTask l, urlString, completion)])
                      (retries l)
                      (S (nextTask l))
                      (issued l ++ [urlString]), [])
        end
  end.

(** The queued block number [n] runs: it calls [loadImageFromUrl]
    again with the same arguments. *)
Definition runRetry (n : nat) (l : Loader) : Loader * Called :=
  match retries l !! n with
  | None => (l, [])
  | Some (urlString, completion) =>
      loadImageFromUrl urlString completion
        (mkLoader (imageCache l) (loadingStates l) (tasks l)
                  (take n (retries l) ++ drop (S n) (retries l))
                  (nextTask l) (issued l))
  end.

(** The image the data-task handler accepts, [None] on each of its
    failure exits. *)
Definition acceptResponse (r : TaskResult) : option UIImage :=
  match resultData r, statusCode r with
  | Some data, Some status =>
      if negb (status =? 200)%Z || hasError r then None
      else if match mimeType r with
              | Some contentType =>
                  negb (Str.contains validTypes (Str.lowercased contentType))
              | None => false
              end then None
      else if (Z.of_nat (length data) >? maxFileSize)%Z then None
      else UIImage_ofData P data
  | _, _ => None
  end.

(** The completion handler of the data task [t] runs with [r]:
    the image is cached on success, [loadingStates[url] = false] on
    every exit ([defer]), and the completion is called. *)
Definition taskFinished (t : nat) (r : TaskResult) (l : Loader) : Loader * Called :=
  match List.find (fun e => Nat.eqb (fst (fst e)) t) (tasks l) with
  | None => (l, [])
  | Some (_, urlString, completion) =>
      let remaining := List.filter (fun e => negb (Nat.eqb (fst (fst e)) t)) (tasks l) in
      match acceptResponse r with
      | None =>
          (mkLoader (imageCache l)
                    (<[urlString := false]> (loadingStates l))
                    remaining (retries l) (nextTask l) (issued l),
           [(completion, None)])
      | Some image =>
          (mkLoader (<[urlString := image]> (imageCache l))
                    (<[urlString := false]> (loadingStates l))
                    remaining (retries l) (nextTask l) (issued l),
           [(completion, Some image)])
      end
  end.

(** [clearCache()] *)
Definition clearCache (l : Loader) : Loader :=
  mkLoader ∅ ∅ (tasks l) (retries l) (nextTask l) (issued l).

Definition taskUrl (e : nat * string * C) : string := snd (fst e).
Definition taskId (e : nat * string * C) : nat := fst (fst e).

(** The loading flags cover the data tasks, and no two tasks share a url. *)
Record orderly (l : Loader) : Prop := {
  tasks_loading : forall e, e ∈ tasks l -> loadingStates l !! taskUrl e = Some true;
  tasks_urls : NoDup (map taskUrl (tasks l));
  tasks_bound : forall e, e ∈ tasks l -> (taskId e < nextTask l)%nat
}.

(** The retries queued by requesters [ks] waiting for [url]. *)
Definition waiting (url : string) (ks : list C) : list (string * C) :=
  map (fun k => (url, k)) ks.

(** Data tasks in flight for [url]. *)
Definition inFlight (url : string) (l : Loader) : list (nat * string * C) :=
  List.filter (fun e => Str.eqb (snd (fst e)) url) (tasks l).

End Remote.

(** *** [processImageIcon]

    [K] is the completion of the caller; the closure handed to
    [loadImageFromUrl] keeps the icon and that completion, and styles the
    loaded image before calling it. *)
Section Process.
Context {K : Type}.

Definition StyledCompletion : Type := ImageIcon.t * K.

(** The body of the closure [{ image in ... completion(processedImage) }];
    no bitmap context is open when it starts. *)
Definition callStyled (c : StyledCompletion) (image : option UIImage)
  : K * option UIImage :=
  let '(imageIcon, completion) := c in
  (completion,
   Gfx.run (applyImageIconStyling image (ImageIcon.shape imageIcon)
                                  (ImageIcon.size imageIcon)) []).

Definition callAllStyled (cs : list (StyledCompletion * option UIImage))
  : list (K * option UIImage) :=
  map (fun e => callStyled (fst e) (snd e)) cs.

(** [processImageIcon(_:completion:)] *)
Definition processImageIcon (imageIcon : ImageIcon.t) (completion : K)
           (l : @Loader StyledCompletion)
  : @Loader StyledCompletion * list (K * option UIImage) :=
  let imageSource := ImageIcon.image imageIcon in
  if isValidBase64DataUri imageSource then
    let image := loadImageFromBase64 imageSource in
    (l, [callStyled (imageIcon, completion) image])
  else if isValidHttpUrl imageSource then
    let '(l', called) := loadImageFromUrl imageSource (imageIcon, completion) l in
    (l', callAllStyled called)
  else
    (l, [(completion, None)]).

End Process.

End WithPlatform.

End ImageUtils.
(** ** ColorUtils: colour strings

    The documented formats are ASCII; an element of a string stands for one
    [Character]. *)

Module SwiftString.

(** The ASCII members of [CharacterSet.whitespacesAndNewlines]:
    U+0009 to U+000D and the space. *)
Definition isWhitespaceOrNewline (c : ascii) : bool :=
  let n := nat_of_ascii c in
  ((9 <=? n)%nat && (n <=? 13)%nat) || (n =? 32)%nat.

Fixpoint dropLeading (s : string) : string :=
  match s with
  | EmptyString => EmptyString
  | String c r => if isWhitespaceOrNewline c then dropLeading r else s
  end.

Fixpoint dropTrailing (s : string) : string :=
  match s with
  | EmptyString => EmptyString
  | String c r =>
      let r' := dropTrailing r in
      if isWhitespaceOrNewline c && Str.isEmpty r' then EmptyString else String c r'
  end.

(** [s.trimmingCharacters(in: .whitespacesAndNewlines)] *)
Definition trimmingWhitespacesAndNewlines (s : string) : string :=
  dropTrailing (dropLeading s).

(** [s.hasPrefix(p)] *)
Definition hasPrefix (p s : string) : bool := String.prefix p s.

(** [s.map { "\($0)\($0)" }.joined()] *)
Fixpoint doubled (s : string) : string :=
  match s with
  | EmptyString => EmptyString
  | String c r => String c (String c (doubled r))
  end.

(** The value of a digit of [Int(_:radix:)]: [0-9], [A-Z], [a-z]. *)
Definition digitValue (c : ascii) : option Z :=
  let n := Z.of_nat (nat_of_ascii c) in
  if (48 <=? n)%Z && (n <=? 57)%Z then Some (n - 48)%Z
  else if (65 <=? n)%Z && (n <=? 90)%Z then Some (n - 65 + 10)%Z
  else if (97 <=? n)%Z && (n <=? 122)%Z then Some (n - 97 + 10)%Z
  else None.

(** The digits after the sign: every character must be a digit below the
    radix. *)
Fixpoint parseDigits (radix : Z) (acc : Z) (s : string) : option Z :=
  match s with
  | EmptyString => Some acc
  | String c r =>
      match digitValue c with
      | Some d => if (d <? radix)%Z then parseDigits radix (acc * radix + d)%Z r else None
      | None => None
      end
  end.

Definition Int_min : Z := (- 2 ^ 63)%Z.
Definition Int_max : Z := (2 ^ 63 - 1)%Z.

(** A value that overflows [Int] is [nil]. *)
Definition fitsInt (v : Z) : option Z :=
  if (Int_min <=? v)%Z && (v <=? Int_max)%Z then Some v else None.

(** [Int(text, radix: radix)]: an optional sign, then one digit or more. *)
Definition Int_ofString (text : string) (radix : Z) : option Z :=
  match text with
  | EmptyString => None
  | String c r =>
      if Ascii.eqb c "-" then
        match r with
        | EmptyString => None
        | _ => parseDigits radix 0 r ≫= (fun v => fitsInt (- v))
        end
      else if Ascii.eqb c "+" then
        match r with
        | EmptyString => None
        | _ => parseDigits radix 0 r ≫= fitsInt
        end
      else parseDigits radix 0 text ≫= fitsInt
  end.

(** [Double(text)] on the texts the pattern of [parseRgbaColor] can
    capture: decimal digits, then possibly a point and more digits. *)
Definition isDigit (c : ascii) : bool :=
  let n := nat_of_ascii c in (48 <=? n)%nat && (n <=? 57)%nat.

(** The digits as a number, and how many there are. *)
Fixpoint decimalDigits (acc : Z) (count : nat) (s : string) : option (Z * nat * string) :=
  match s with
  | String c r =>
      if isDigit c then decimalDigits (acc * 10 + (Z.of_nat (nat_of_ascii c) - 48))%Z (S count) r
      else Some (acc, count, s)
  | EmptyString => Some (acc, count, s)
  end.

Definition Double_ofString (text : string) : option Q :=
  match decimalDigits 0 0 text with
  | Some (whole, S _, EmptyString) => Some (inject_Z whole)
  | Some (whole, S _, String "." fraction) =>
      match decimalDigits whole 0 fraction with
      | Some (mantissa, S k, EmptyString) =>
          Some (Qmake mantissa (Pos.pow 10 (Pos.of_nat (S k))))
      | _ => None
      end
  | _ => None
  end.

End SwiftString.

(** ** Regular expressions, as [NSRegularExpression] runs them

    A backtracking matcher: alternatives are tried in order, a starred
    expression takes as many rounds as it can and gives them back one by
    one, a group records where its last match started and ended. *)

Module Regex.

Inductive t :=
| Eps
| Chr (class : ascii -> bool)
| Seq (r1 r2 : t)
| Alt (r1 r2 : t)
| Star (r : t)
| Group (n : nat) (r : t).

(** [r+], [r?] *)
Definition Plus (r : t) : t := Seq r (Star r).
Definition Opt (r : t) : t := Alt r Eps.

(** Ranges of the groups that took part in the match: location and end. *)
Definition Captures := gmap nat (nat * nat).

Section Match.
Context {A : Type}.

(** [matchAt r s pos caps k]: [r] is matched at the head of [s], which
    starts at [pos] of the subject; [k] is what remains to be matched. *)
Fixpoint matchAt (r : t) (s : string) (pos : nat) (caps : Captures)
         (k : string -> nat -> Captures -> option A) {struct r} : option A :=
  match r with
  | Eps => k s pos caps
  | Chr class =>
      match s with
      | String c rest => if class c then k rest (S pos) caps else None
      | EmptyString => None
      end
  | Seq r1 r2 =>
      matchAt r1 s pos caps (fun s' pos' caps' => matchAt r2 s' pos' caps' k)
  | Alt r1 r2 =>
      match matchAt r1 s pos caps k with
      | Some a => Some a
      | None => matchAt r2 s pos caps k
      end
  | Star r' =>
      (fix rounds (fuel : nat) (s : string) (pos : nat) (caps : Captures)
           {struct fuel} : option A :=
         match fuel with
         | O => k s pos caps
         | S fuel' =>
             match matchAt r' s pos caps
                     (fun s' pos' caps' =>
                        if (pos <? pos')%nat then rounds fuel' s' pos' caps' else None) with
             | Some a => Some a
             | None => k s pos caps
             end
         end) (S (String.length s)) s pos caps
  | Group n r' =>
      matchAt r' s pos caps (fun s' pos' caps' => k s' pos' (<[n := (pos, pos')]> caps'))
  end.

End Match.

(** [firstMatch(in:options:range:)] over the whole subject: the leftmost
    start at which the expression matches. *)
Fixpoint firstMatchFrom (r : t) (s : string) (pos : nat) : option Captures :=
  match matchAt r s pos ∅ (fun _ pos' caps => Some (<[0%nat := (pos, pos')]> caps)) with
  | Some caps => Some caps
  | None =>
      match s with
      | String _ rest => firstMatchFrom r rest (S pos)
      | EmptyString => None
      end
  end.

Definition firstMatch (r : t) (s : string) : option Captures := firstMatchFrom r s 0.

(** [(s as NSString).substring(with: match.range(at: n))]; [None] when the
    range's location is [NSNotFound]. *)
Definition substringAt (caps : Captures) (n : nat) (s : string) : option string :=
  match caps !! n with
  | Some (from, to) => Some (String.substring from (to - from) s)
  | None => None
  end.

(** A literal character under [.caseInsensitive]. *)
Definition lit (c : ascii) : t :=
  Chr (fun x => Ascii.eqb (Str.lowercasedAscii x) (Str.lowercasedAscii c)).

(** [\s]: tab, line feed, form feed, carriage return, space. *)
Definition space : t :=
  Chr (fun x => let n := nat_of_ascii x in
                (n =? 9)%nat || (n =? 10)%nat || (n =? 12)%nat || (n =? 13)%nat
                || (n =? 32)%nat).

(** [\d] *)
Definition digit : t := Chr SwiftString.isDigit.

End Regex.

Module ColorUtils.

Import SwiftString.
Local Open Scope Q_scope.

(** [CGFloat(n) / 255.0] *)
Definition channel (n : Z) : Q := inject_Z n / 255.

(** [parseHexColor(_:)] *)
Definition parseHexColor (hex : string) : option UIColor :=
  let hexString := trimmingWhitespacesAndNewlines hex in
  let hexString :=
    match hexString with
    | String "#" rest => rest
    | _ => hexString
    end in
  if negb ((String.length hexString =? 3)%nat || (String.length hexString =? 6)%nat
           || (String.length hexString =? 8)%nat) then None
  else
    let hexString :=
      if (String.length hexString =? 3)%nat then doubled hexString else hexString in
    let '(alpha, hexString) :=
      if (String.length hexString =? 8)%nat then
        let alphaHex := String.substring 6 2 hexString in
        let hexString' := String.substring 0 6 hexString in
        match Int_ofString alphaHex 16 with
        | Some alphaInt => (channel alphaInt, hexString')
        | None => (1, hexString')
        end
      else (1, hexString) in
    match Int_ofString hexString 16 with
    | None => None
    | Some colorInt =>
        let red := channel (Z.land (Z.shiftr colorInt 16) 255) in
        let green := channel (Z.land (Z.shiftr colorInt 8) 255) in
        let blue := channel (Z.land colorInt 255) in
        Some (RGBA red green blue alpha)
    end.

(** The pattern of [parseRgbaColor]:
    [rgba?\(\s*(\d+(?:\.\d+)?)\s*,\s*(\d+(?:\.\d+)?)\s*,\s*(\d+(?:\.\d+)?)\s*(?:,\s*([01](?:\.\d+)?))?\s*\)] *)
Definition fraction : Regex.t :=
  Regex.Opt (Regex.Seq (Regex.lit ".") (Regex.Plus Regex.digit)).

Definition number : Regex.t := Regex.Seq (Regex.Plus Regex.digit) fraction.

Definition spaces : Regex.t := Regex.Star Regex.space.

Definition zeroOrOne : Regex.t :=
  Regex.Chr (fun x => Ascii.eqb x "0" || Ascii.eqb x "1").

(** From the opening parenthesis on:
    [\(\s*(..)\s*,\s*(..)\s*,\s*(..)\s*(?:,\s*([01](?:\.\d+)?))?\s*\)] *)
Definition components : Regex.t :=
  Regex.Seq (Regex.lit "(")
  (Regex.Seq spaces (Regex.Seq (Regex.Group 1 number) (Regex.Seq spaces
  (Regex.Seq (Regex.lit ",") (Regex.Seq spaces (Regex.Seq (Regex.Group 2 number)
  (Regex.Seq spaces (Regex.Seq (Regex.lit ",") (Regex.Seq spaces
  (Regex.Seq (Regex.Group 3 number) (Regex.Seq spaces
  (Regex.Seq
     (Regex.Opt (Regex.Seq (Regex.lit ",") (Regex.Seq spaces
                   (Regex.Group 4 (Regex.Seq zeroOrOne fraction)))))
  (Regex.Seq spaces (Regex.lit ")")))))))))))))).

Definition rgbaPattern : Regex.t :=
  Regex.Seq (Regex.lit "r") (Regex.Seq (Regex.lit "g") (Regex.Seq (Regex.lit "b")
  (Regex.Seq (Regex.Opt (Regex.lit "a")) components))).

(** [parseRgbaColor(_:)] *)
Definition parseRgbaColor (rgba : string) : option UIColor :=
  match Regex.firstMatch rgbaPattern rgba with
  | None => None
  | Some match_ =>
      let extractValue (index : nat) : option Q :=
        Regex.substringAt match_ index rgba ≫= Double_ofString in
      match extractValue 1%nat, extractValue 2%nat, extractValue 3%nat with
      | Some red, Some green, Some blue =>
          let alpha := default 1 (extractValue 4%nat) in
          if Qle_bool 0 red && Qle_bool red 255 &&
             Qle_bool 0 green && Qle_bool green 255 &&
             Qle_bool 0 blue && Qle_bool blue 255 &&
             Qle_bool 0 alpha && Qle_bool alpha 1
          then Some (RGBA (red / 255) (green / 255) (blue / 255) alpha)
          else None
      | _, _, _ => None
      end
  end.

(** [parseColor(_:)] *)
Definition parseColor (colorString : option string) : option UIColor :=
  match colorString with
  | None => None
  | Some colorString =>
      let colorString := trimmingWhitespacesAndNewlines colorString in
      if Str.isEmpty colorString then None
      else if hasPrefix "#" colorString then parseHexColor colorString
      else if hasPrefix "rgba" (Str.lowercased colorString)
              || hasPrefix "rgb" (Str.lowercased colorString)
      then parseRgbaColor colorString
      else None
  end.

End ColorUtils.

(** ** The overlay view controller *)

Module UITabBarItem.
Record t := mk {
  title : string;
  image : option UIImage;
  selectedImage : option UIImage;
  tag : Z;
  badgeValue : option string
}.

Definition set_image (i : option UIImage) (b : t) : t :=
  mk (title b) i (selectedImage b) (tag b) (badgeValue b).
Definition set_selectedImage (i : option UIImage) (b : t) : t :=
  mk (title b) (image b) i (tag b) (badgeValue b).
Definition set_badgeValue (v : option string) (b : t) : t :=
  mk (title b) (image b) (selectedImage b) (tag b) v.
End UITabBarItem.

(** States of a [UIGestureRecognizer]. *)
Inductive GestureState := possible | began | changed | ended | cancelled | failed.

Module TabsBarOverlay.

(** What the completion closure of [loadImageForItem] captures: the model,
    its icon and the [UITabBarItem] object it will write to. *)
Record IconCompletion := mkIconCompletion {
  forModel : TabsBarItem.t;
  forIcon : ImageIcon.t;
  forItem : nat
}.

Record Recognizer := mkRecognizer {
  minimumPressDuration : Q;
  cancelsTouchesInView : bool;
  (** position of the button the recognizer is attached to *)
  onButton : nat
}.

(** The [UITabBar]: its items and selected item are references to
    [UITabBarItem] objects. *)
Record TabBar := mkTabBar {
  tabItems : option (list nat);
  selectedItem : option nat;
  tintColor : option UIColor;
  unselectedItemTintColor : option UIColor;
  (** title colours (selected, normal) set on the standard and the
      scroll-edge appearance *)
  titleTextColors : option (UIColor * UIColor)
}.

Abbreviation IconLoader :=
  (@ImageUtils.Loader (@ImageUtils.StyledCompletion IconCompletion)).

Record t := mk {
  items : list TabsBarItem.t;
  idToIndex : gmap string nat;
  tabBar : TabBar;
  (** whether [onInteraction] is set *)
  onInteraction : bool;
  selectedIconColor : option UIColor;
  unselectedIconColor : option UIColor;
  titleOpacity : Q;
  longPressRecognizers : list Recognizer;
  suppressNextSelectionEvent : bool;
  lastSelectedIndex : option Z;
  view_isHidden : bool;
  (** every [UITabBarItem] created so far, by identity *)
  objects : gmap nat UITabBarItem.t;
  nextObject : nat;
  (** the statics of [ImageUtils] and the data tasks *)
  loader : IconLoader;
  (** blocks queued with [DispatchQueue.main.async] by icon completions *)
  mainQueue : list (IconCompletion * option UIImage);
  (** the calls of [onInteraction], oldest first *)
  interactions : list (string * TabsBarInteractionKind)
}.

(** [TabsBarOverlay()] *)
Definition init : t :=
  mk [] ∅ (mkTabBar None None None None None) false None None (7 # 10)%Q [] false None
     false ∅ 0 ImageUtils.Loader_empty [] [].

Definition set_tabBar (b : TabBar) (o : t) : t :=
  mk (items o) (idToIndex o) b (onInteraction o) (selectedIconColor o)
     (unselectedIconColor o) (titleOpacity o) (longPressRecognizers o)
     (suppressNextSelectionEvent o) (lastSelectedIndex o) (view_isHidden o)
     (objects o) (nextObject o) (loader o) (mainQueue o) (interactions o).

Definition set_onInteraction (b : bool) (o : t) : t :=
  mk (items o) (idToIndex o) (tabBar o) b (selectedIconColor o)
     (unselectedIconColor o) (titleOpacity o) (longPressRecognizers o)
     (suppressNextSelectionEvent o) (lastSelectedIndex o) (view_isHidden o)
     (objects o) (nextObject o) (loader o) (mainQueue o) (interactions o).

Definition set_longPressRecognizers (r : list Recognizer) (o : t) : t :=
  mk (items o) (idToIndex o) (tabBar o) (onInteraction o) (selectedIconColor o)
     (unselectedIconColor o) (titleOpacity o) r
     (suppressNextSelectionEvent o) (lastSelectedIndex o) (view_isHidden o)
     (objects o) (nextObject o) (loader o) (mainQueue o) (interactions o).

Definition set_suppressNextSelectionEvent (b : bool) (o : t) : t :=
  mk (items o) (idToIndex o) (tabBar o) (onInteraction o) (selectedIconColor o)
     (unselectedIconColor o) (titleOpacity o) (longPressRecognizers o)
     b (lastSelectedIndex o) (view_isHidden o)
     (objects o) (nextObject o) (loader o) (mainQueue o) (interactions o).

Definition set_lastSelectedIndex (i : option Z) (o : t) : t :=
  mk (items o) (idToIndex o) (tabBar o) (onInteraction o) (selectedIconColor o)
     (unselectedIconColor o) (titleOpacity o) (longPressRecognizers o)
     (suppressNextSelectionEvent o) i (view_isHidden o)
     (objects o) (nextObject o) (loader o) (mainQueue o) (interactions o).

Definition set_view_isHidden (b : bool) (o : t) : t :=
  mk (items o) (idToIndex o) (tabBar o) (onInteraction o) (selectedIconColor o)
     (unselectedIconColor o) (titleOpacity o) (longPressRecognizers o)
     (suppressNextSelectionEvent o) (lastSelectedIndex o) b
     (objects o) (nextObject o) (loader o) (mainQueue o) (interactions o).

Definition set_objects (m : gmap nat UITabBarItem.t) (o : t) : t :=
  mk (items o) (idToIndex o) (tabBar o) (onInteraction o) (selectedIconColor o)
     (unselectedIconColor o) (titleOpacity o) (longPressRecognizers o)
     (suppressNextSelectionEvent o) (lastSelectedIndex o) (view_isHidden o)
     m (nextObject o) (loader o) (mainQueue o) (interactions o).

Definition set_nextObject (n : nat) (o : t) : t :=
  mk (items o) (idToIndex o) (tabBar o) (onInteraction o) (selectedIconColor o)
     (unselectedIconColor o) (titleOpacity o) (longPressRecognizers o)
     (suppressNextSelectionEvent o) (lastSelectedIndex o) (view_isHidden o)
     (objects o) n (loader o) (mainQueue o) (interactions o).

Definition set_loader (l : IconLoader) (o : t) : t :=
  mk (items o) (idToIndex o) (tabBar o) (onInteraction o) (selectedIconColor o)
     (unselectedIconColor o) (titleOpacity o) (longPressRecognizers o)
     (suppressNextSelectionEvent o) (lastSelectedIndex o) (view_isHidden o)
     (objects o) (nextObject o) l (mainQueue o) (interactions o).

Definition set_mainQueue (q : list (IconCompletion * option UIImage)) (o : t) : t :=
  mk (items o) (idToIndex o) (tabBar o) (onInteraction o) (selectedIconColor o)
     (unselectedIconColor o) (titleOpacity o) (longPressRecognizers o)
     (suppressNextSelectionEvent o) (lastSelectedIndex o) (view_isHidden o)
     (objects o) (nextObject o) (loader o) q (interactions o).

Definition set_interactions (l : list (string * TabsBarInteractionKind)) (o : t) : t :=
  mk (items o) (idToIndex o) (tabBar o) (onInteraction o) (selectedIconColor o)
     (unselectedIconColor o) (titleOpacity o) (longPressRecognizers o)
     (suppressNextSelectionEvent o) (lastSelectedIndex o) (view_isHidden o)
     (objects o) (nextObject o) (loader o) (mainQueue o) l.

(** The first assignments of [update]. *)
Definition set_configuration (its : list TabsBarItem.t) (sel unsel : option UIColor)
           (opacity : Q) (o : t) : t :=
  mk its (idToIndex o) (tabBar o) (onInteraction o) sel unsel opacity
     (longPressRecognizers o)
     (suppressNextSelectionEvent o) (lastSelectedIndex o) (view_isHidden o)
     (objects o) (nextObject o) (loader o) (mainQueue o) (interactions o).

Definition set_idToIndex (m : gmap string nat) (o : t) : t :=
  mk (items o) m (tabBar o) (onInteraction o) (selectedIconColor o)
     (unselectedIconColor o) (titleOpacity o) (longPressRecognizers o)
     (suppressNextSelectionEvent o) (lastSelectedIndex o) (view_isHidden o)
     (objects o) (nextObject o) (loader o) (mainQueue o) (interactions o).

(** [tabBar.selectedItem = x] *)
Definition set_selectedItem (x : option nat) (o : t) : t :=
  let b := tabBar o in
  set_tabBar (mkTabBar (tabItems b) x (tintColor b) (unselectedItemTintColor b)
                       (titleTextColors b)) o.

(** [tabBar.items = xs]: the new items replace the old ones and none of
    them is selected yet. *)
Definition set_tabItems (xs : list nat) (o : t) : t :=
  let b := tabBar o in
  set_tabBar (mkTabBar (Some xs) None (tintColor b) (unselectedItemTintColor b)
                       (titleTextColors b)) o.

(** [onInteraction?(id, kind)] *)
Definition callOnInteraction (id : string) (kind : TabsBarInteractionKind) (o : t) : t :=
  if onInteraction o then set_interactions (interactions o ++ [(id, kind)]) o else o.

(** [Dictionary(uniqueKeysWithValues:)]: a repeated key is a runtime trap. *)
Fixpoint uniqueKeysWithValues (l : list (string * nat)) (acc : gmap string nat)
  : Exec (gmap string nat) :=
  match l with
  | [] => Done acc
  | (k, v) :: r =>
      match acc !! k with
      | Some _ => Trap
      | None => uniqueKeysWithValues r (<[k := v]> acc)
      end
  end.

(** [items.enumerated().map { ($0.element.id, $0.offset) }] *)
Definition enumeratedIds (its : list TabsBarItem.t) : list (string * nat) :=
  imap (fun offset element => (TabsBarItem.id element, offset)) its.

Section WithPlatform.
Context (P : Platform).

(** [applyBadge(_:to:)] *)
Definition applyBadge (badge : option TabsBarBadge) (item : UITabBarItem.t)
  : UITabBarItem.t :=
  match badge with
  | Some (badge_number n) =>
      UITabBarItem.set_badgeValue (if (n >? 0)%Z then Some (pretty n) else None) item
  | Some badge_dot => UITabBarItem.set_badgeValue (Some "•") item
  | None => UITabBarItem.set_badgeValue None item
  end.

(** [createSelectedImageWithRing(_:imageIcon:)] *)
Definition createSelectedImageWithRing (image : UIImage) (imageIcon : ImageIcon.t) (o : t)
  : UIImage :=
  match ImageIcon.ring imageIcon with
  | Some ring =>
      if ImageIconRing.enabled ring then
        let ringWidth := default 2%Q (ImageIconRing.width ring) in
        let selectedColor := default systemBlue (selectedIconColor o) in
        Gfx.run (ImageUtils.addEnhancedRingToImage P image ringWidth selectedColor) []
      else image
  | None => image
  end.

(** [createUnselectedImageWithRing(_:imageIcon:)] *)
Definition createUnselectedImageWithRing (image : UIImage) (imageIcon : ImageIcon.t) (o : t)
  : UIImage :=
  match ImageIcon.ring imageIcon with
  | Some ring =>
      if ImageIconRing.enabled ring then
        let ringWidth := default 2%Q (ImageIconRing.width ring) in
        let unselectedColor := default systemGray (unselectedIconColor o) in
        Gfx.run (ImageUtils.addEnhancedRingToImage P image ringWidth unselectedColor) []
      else image
  | None => image
  end.

(** The block the icon completion queues on the main queue. *)
Definition iconBlock (c : IconCompletion) (image : option UIImage) (o : t) : t :=
  match image with
  | Some image =>
      let unselectedImage := createUnselectedImageWithRing image (forIcon c) o in
      let selectedImage := createSelectedImageWithRing image (forIcon c) o in
      set_objects
        (alter (fun b =>
                  UITabBarItem.set_selectedImage
                    (Some (ImageWithMode alwaysOriginal selectedImage))
                    (UITabBarItem.set_image
                       (Some (ImageWithMode alwaysOriginal unselectedImage)) b))
               (forItem c) (objects o)) o
  | None =>
      set_objects
        (alter (UITabBarItem.set_image
                  (Some (default ImageEmpty
                           (UIImage_systemName P (TabsBarItem.systemIcon (forModel c))))))
               (forItem c) (objects o)) o
  end.

(** The completion of [loadImageForItem] is called: it queues its block. *)
Definition callIconCompletions (cs : list (IconCompletion * option UIImage)) (o : t) : t :=
  set_mainQueue (mainQueue o ++ cs) o.

(** [loadImageForItem(_:tabBarItem:)] *)
Definition loadImageForItem (model : TabsBarItem.t) (tabBarItem : nat) (o : t) : t :=
  match TabsBarItem.imageIcon model with
  | Some imageIcon =>
      let '(l, called) :=
        ImageUtils.processImageIcon P imageIcon
          (mkIconCompletion model imageIcon tabBarItem) (loader o) in
      callIconCompletions called (set_loader l o)
  | None =>
      let image := default ImageEmpty (UIImage_systemName P (TabsBarItem.systemIcon model)) in
      set_objects (alter (UITabBarItem.set_image (Some image)) tabBarItem (objects o)) o
  end.

(** [loadFallbackImage(for:tabBarItem:)] *)
Definition loadFallbackImage (model : TabsBarItem.t) (tabBarItem : nat) (o : t) : t :=
  set_objects
    (alter (UITabBarItem.set_image
              (Some (default ImageEmpty
                       (UIImage_systemName P (TabsBarItem.systemIcon model)))))
           tabBarItem (objects o)) o.

(** [applyTitleTextAttributes()] *)
Definition applyTitleTextAttributes (o : t) : t :=
  let resolvedSelectedColor := default label (selectedIconColor o) in
  let baseUnselectedColor := default label (unselectedIconColor o) in
  let resolvedOpacity := CGFloat_max 0%Q (CGFloat_min (titleOpacity o) 1%Q) in
  let resolvedUnselectedColor := withAlphaComponent baseUnselectedColor resolvedOpacity in
  let b := tabBar o in
  set_tabBar (mkTabBar (tabItems b) (selectedItem b) (tintColor b)
                       (unselectedItemTintColor b)
                       (Some (resolvedSelectedColor, resolvedUnselectedColor))) o.

(** [applyColorConfiguration()] *)
Definition applyColorConfiguration (o : t) : t :=
  let o1 :=
    match selectedIconColor o with
    | Some selectedColor =>
        let b := tabBar o in
        set_tabBar (mkTabBar (tabItems b) (selectedItem b) (Some selectedColor)
                             (unselectedItemTintColor b) (titleTextColors b)) o
    | None => o
    end in
  let o2 :=
    match unselectedIconColor o1 with
    | Some unselectedColor =>
        let b := tabBar o1 in
        set_tabBar (mkTabBar (tabItems b) (selectedItem b) (tintColor b)
                             (Some unselectedColor) (titleTextColors b)) o1
    | None => o1
    end in
  applyTitleTextAttributes o2.

(** [configureLongPressRecognizers()]: after layout the bar has one
    button per item, left to right. *)
Definition configureLongPressRecognizers (o : t) : t :=
  let buttons := seq 0 (length (default [] (tabItems (tabBar o)))) in
  set_longPressRecognizers
    (map (fun button => mkRecognizer (45 # 100)%Q false button) buttons) o.

(** One turn of the [map] closure of [update]: the new [UITabBarItem],
    its badge, its image. *)
Definition makeBarItem (idx : nat) (model : TabsBarItem.t) (o : t) : nat * t :=
  let ref := nextObject o in
  let item :=
    UITabBarItem.mk (default "" (TabsBarItem.title model)) None None (Z.of_nat idx) None in
  let item := applyBadge (TabsBarItem.badge model) item in
  let o := set_nextObject (S ref) (set_objects (<[ref := item]> (objects o)) o) in
  (ref, loadImageForItem model ref o).

Fixpoint makeBarItems (idx : nat) (models : list TabsBarItem.t) (o : t) : list nat * t :=
  match models with
  | [] => ([], o)
  | model :: rest =>
      let '(ref, o1) := makeBarItem idx model o in
      let '(refs, o2) := makeBarItems (S idx) rest o1 in
      (ref :: refs, o2)
  end.

(** [tag] of the item behind a reference. *)
Definition tagOf (ref : nat) (o : t) : Z :=
  match objects o !! ref with
  | Some b => UITabBarItem.tag b
  | None => 0
  end.

(** [update(items:initialId:visible:selectedIconColor:unselectedIconColor:titleOpacity:)] *)
Definition update (its : list TabsBarItem.t) (initialId : option string) (visible : bool)
           (selectedColor unselectedColor : option UIColor) (opacity : Q) (o : t)
  : Exec t :=
  let o := set_configuration its selectedColor unselectedColor
             (CGFloat_max 0%Q (CGFloat_min opacity 1%Q)) o in
  Exec_bind (uniqueKeysWithValues (enumeratedIds its) ∅) (fun index =>
  let o := set_idToIndex index o in
  let '(barItems, o) := makeBarItems 0 its o in
  let o := set_tabItems barItems o in
  let o := configureLongPressRecognizers o in
  let o := applyColorConfiguration o in
  let o :=
    match initialId ≫= (fun i => idToIndex o !! i), tabItems (tabBar o) with
    | Some idx, Some tabItems =>
        if (idx <? length tabItems)%nat then
          set_lastSelectedIndex (Some (Z.of_nat idx)) (set_selectedItem (tabItems !! idx) o)
        else
          match tabItems with
          | firstItem :: _ =>
              set_lastSelectedIndex (Some (tagOf firstItem o))
                (set_selectedItem (Some firstItem) o)
          | [] => set_lastSelectedIndex None o
          end
    | _, Some (firstItem :: _) =>
        set_lastSelectedIndex (Some (tagOf firstItem o))
          (set_selectedItem (Some firstItem) o)
    | _, _ => set_lastSelectedIndex None o
    end in
  Done (set_view_isHidden (negb visible) o)).

(** [select(id:)] *)
Definition select (id : string) (o : t) : t :=
  match idToIndex o !! id, tabItems (tabBar o) with
  | Some idx, Some tabItems =>
      if (idx <? length tabItems)%nat then
        let o := set_selectedItem (tabItems !! idx) o in
        let o := set_lastSelectedIndex (Some (Z.of_nat idx)) o in
        applyColorConfiguration o
      else o
  | _, _ => o
  end.

(** [setBadge(id:value:)] *)
Definition setBadge (id : string) (value : option TabsBarBadge) (o : t) : t :=
  match idToIndex o !! id, tabItems (tabBar o) with
  | Some idx, Some tabItems =>
      if (idx <? length tabItems)%nat then
        match tabItems !! idx with
        | Some ref => set_objects (alter (applyBadge value) ref (objects o)) o
        | None => o
        end
      else o
  | _, _ => o
  end.

(** [restorePreviousSelection()] *)
Definition restorePreviousSelection (o : t) : t :=
  match lastSelectedIndex o, tabItems (tabBar o) with
  | Some previousIndex, Some tabItems =>
      if (0 <=? previousIndex)%Z && (previousIndex <? Z.of_nat (length tabItems))%Z then
        applyColorConfiguration (set_selectedItem (tabItems !! Z.to_nat previousIndex) o)
      else o
  | _, _ => o
  end.

(** [tabBar(_:didSelect:)], the delegate call, with the item's tag *)
Definition tabBar_didSelect (itemTag : Z) (o : t) : t :=
  let idx := itemTag in
  if (0 <=? idx)%Z && (idx <? Z.of_nat (length (items o)))%Z then
    if suppressNextSelectionEvent o then
      restorePreviousSelection (set_suppressNextSelectionEvent false o)
    else
      let o := set_lastSelectedIndex (Some idx) o in
      let o := applyColorConfiguration o in
      match items o !! Z.to_nat idx with
      | Some model => callOnInteraction (TabsBarItem.id model) tap o
      | None => o
      end
  else o.

(** What a gesture callback sees of the recognizer and of the layout:
    its state, the position of its view among the bar's buttons, the
    button whose frame holds the touch, the touch abscissa and the
    width of the bar. *)
Record Gesture := mkGesture {
  gestureState : GestureState;
  viewButton : option nat;
  buttonAtLocation : option nat;
  locationX : Q;
  boundsWidth : Q
}.

(** [Int(x)]: truncation toward zero. *)
Definition Int_of_CGFloat (x : Q) : Z := Z.quot (Qnum x) (Z.pos (Qden x)).

(** [indexForTab(at:)] *)
Definition indexForTab (g : Gesture) (o : t) : option Z :=
  match tabItems (tabBar o) with
  | None => None
  | Some [] => None
  | Some tabItems =>
      let count := Z.of_nat (length tabItems) in
      match buttonAtLocation g with
      | Some idx => Some (Z.min (Z.of_nat idx) (count - 1))
      | None =>
          let width := (boundsWidth g / inject_Z count)%Q in
          if Qle_bool width 0%Q then None
          else
            let index := Int_of_CGFloat (locationX g / width)%Q in
            Some (Z.max 0 (Z.min index (count - 1)))
      end
  end.

(** [indexForGesture(_:location:)] *)
Definition indexForGesture (g : Gesture) (o : t) : option Z :=
  match viewButton g with
  | Some idx =>
      Some (Z.min (Z.of_nat idx)
                  (Z.of_nat (length (default [] (tabItems (tabBar o)))) - 1))
  | None => indexForTab g o
  end.

(** [handleLongPress(_:)] *)
Definition handleLongPress (g : Gesture) (o : t) : t :=
  match gestureState g with
  | began =>
      match indexForGesture g o with
      | Some index =>
          if (0 <=? index)%Z && (index <? Z.of_nat (length (items o)))%Z then
            let o := set_suppressNextSelectionEvent true o in
            let o := restorePreviousSelection o in
            match items o !! Z.to_nat index with
            | Some model => callOnInteraction (TabsBarItem.id model) longPress o
            | None => o
            end
          else o
      | None => o
      end
  | ended | cancelled | failed => set_suppressNextSelectionEvent false o
  | _ => o
  end.

(** *** What UIKit and the network do to the overlay *)

(** The user touches the button at [pos] and lifts the finger:
    [UITabBar] selects that item and tells its delegate. *)
Definition userSelects (pos : nat) (o : t) : t :=
  match tabItems (tabBar o) ≫= (fun l => l !! pos) with
  | Some ref => tabBar_didSelect (tagOf ref o) (set_selectedItem (Some ref) o)
  | None => o
  end.

(** A finger rests on the button at [pos] for [held] seconds: the
    recognizer attached to that button begins once its
    [minimumPressDuration] has elapsed. *)
Definition userHolds (pos : nat) (held : Q) (g : Gesture) (o : t) : t :=
  match List.find (fun r => Nat.eqb (onButton r) pos) (longPressRecognizers o) with
  | Some r =>
      if Qle_bool (minimumPressDuration r) held then
        handleLongPress (mkGesture began (Some pos) (buttonAtLocation g)
                                   (locationX g) (boundsWidth g)) o
      else o
  | None => o
  end.

(** The first block of the main queue runs. *)
Definition runMainQueue (o : t) : t :=
  match mainQueue o with
  | [] => o
  | (c, image) :: rest => iconBlock c image (set_mainQueue rest o)
  end.

(** The data task [t] completes with [r]. *)
Definition dataTaskFinished (task : nat) (r : ImageUtils.TaskResult) (o : t) : t :=
  let '(l, called) := ImageUtils.taskFinished P task r (loader o) in
  callIconCompletions (ImageUtils.callAllStyled P called) (set_loader l o).

(** A queued retry of [loadImageFromUrl] runs. *)
Definition retryFired (n : nat) (o : t) : t :=
  let '(l, called) := ImageUtils.runRetry P n (loader o) in
  callIconCompletions (ImageUtils.callAllStyled P called) (set_loader l o).

(** The icon shown for the item at [pos] of the bar. *)
Definition shownImage (pos : nat) (o : t) : option UIImage :=
  ref ← tabItems (tabBar o) ≫= (fun l => l !! pos);
  b ← objects o !! ref;
  UITabBarItem.image b.

End WithPlatform.

End TabsBarOverlay.

(** ** The plugin: the bridge methods *)

Module TabsBarPlugin.

Record t := mk {
  overlayVC : option TabsBarOverlay.t;
  (** whether [bridge?.viewController] is available *)
  hostVC : bool
}.

(** How a bridge call ends. *)
Inductive CallResult :=
(** [call.reject(message)] and return: nothing else happened *)
| Rejected (message : string)
(** a runtime trap before any answer *)
| Trapped
(** [call.resolve()], and what the block queued on the main queue did to
    the plugin, or that it trapped *)
| Resolved (after : Exec t).

Section WithPlatform.
Context (P : Platform).

(** [ensureOverlay()] *)
Definition ensureOverlay (p : t) : t :=
  match overlayVC p with
  | Some _ => p
  | None =>
      if hostVC p then
        mk (Some (TabsBarOverlay.set_onInteraction true TabsBarOverlay.init)) (hostVC p)
      else p
  end.

(** The badge conversion inside the [map] closure of [configure]. *)
Definition convertBadge (b : option JSBadge.t) : option TabsBarBadge :=
  match b with
  | None => None
  | Some (JSBadge.number n) => Some (badge_number n)
  | Some JSBadge.dot => Some badge_dot
  | Some JSBadge.null => None
  end.

Definition convertImageIcon (i : JSImageIcon.t) : ImageIcon.t :=
  ImageIcon.mk (JSImageIcon.shape i) (JSImageIcon.size i) (JSImageIcon.image i)
    (option_map (fun r => ImageIconRing.mk (JSImageIconRing.enabled r)
                                           (Some (JSImageIconRing.width r)))
                (JSImageIcon.ring i)).

(** The [map] closure of [configure]: [js.systemIcon!] traps on [nil]. *)
Definition convertItem (js : JSItem.t) : Exec TabsBarItem.t :=
  let badge := convertBadge (JSItem.badge js) in
  let imageIcon := option_map convertImageIcon (JSItem.imageIcon js) in
  Exec_bind (forceUnwrap (JSItem.systemIcon js)) (fun systemIcon =>
  Done (TabsBarItem.mk (JSItem.id js) (JSItem.title js) systemIcon
                       (JSItem.image js) imageIcon badge)).

Definition defaultTitleOpacity : Q := (7 # 10)%Q.

(** [configure(_:)] *)
Definition configure (call : JS.JSObj) (p : t) : CallResult :=
  match JS.getArray_JSObject "items" call with
  | None => Rejected "Missing 'items'"
  | Some itemsArr =>
      match JSItem.decodeAll itemsArr with
      | None => Rejected "Failed to decode items"
      | Some jsItems =>
          if bool_decide (jsItems = []) then Rejected "Items array cannot be empty"
          else if existsb (fun item => Str.isEmpty (JSItem.id item)) jsItems then
            Rejected "Each item must have a non-empty 'id'"
          else
            let initialId := JS.getString "initialId" call in
            let visible := default true (JS.getBool "visible" call) in
            let selectedIconColor := parseColor P (JS.getString "selectedIconColor" call) in
            let unselectedIconColor :=
              parseColor P (JS.getString "unselectedIconColor" call) in
            let titleOpacity :=
              match JS.getDouble "titleOpacity" call with
              | Some requestedTitleOpacity =>
                  if Qle_bool 0 requestedTitleOpacity && Qle_bool requestedTitleOpacity 1
                  then requestedTitleOpacity
                  else defaultTitleOpacity
              | None => defaultTitleOpacity
              end in
            match Exec_map convertItem jsItems with
            | Trap => Trapped
            | Done items =>
                Resolved
                  (let p := ensureOverlay p in
                   match overlayVC p with
                   | None => Done p
                   | Some overlay =>
                       Exec_bind
                         (TabsBarOverlay.update P items initialId visible
                            selectedIconColor unselectedIconColor titleOpacity overlay)
                         (fun overlay => Done (mk (Some overlay) (hostVC p)))
                   end)
            end
      end
  end.

(** [select(_:)] *)
Definition select (call : JS.JSObj) (p : t) : CallResult :=
  match JS.getString "id" call with
  | None => Rejected "Missing 'id'"
  | Some id =>
      Resolved
        (match overlayVC p with
         | None => Done p
         | Some overlay =>
             Done (mk (Some (TabsBarOverlay.select id overlay)) (hostVC p))
         end)
  end.

(** The interactions sent to the listeners of ["selected"]. *)
Definition notified (p : t) : list (string * TabsBarInteractionKind) :=
  match overlayVC p with
  | Some overlay => TabsBarOverlay.interactions overlay
  | None => []
  end.

End WithPlatform.

End TabsBarPlugin.
(** ** The plugin: [show], [hide], [setBadge]

    These methods queue a block on the main queue and call [call.resolve()];
    the block calls [call.reject] when the overlay is not there.  The two
    answers are recorded as they are sent, in no order. *)

Module PluginCalls.

(** The properties of [overlay.view] that only [show] and [hide] write. *)
Record ViewFlags := mkViewFlags {
  isUserInteractionEnabled : bool;
  alpha : Q
}.

Record t := mk {
  plugin : TabsBarPlugin.t;
  view : ViewFlags
}.

(** A plugin that has not been configured: a [UIView] starts enabled and
    opaque. *)
Definition fresh (hostVC : bool) : t :=
  mk (TabsBarPlugin.mk None hostVC) (mkViewFlags true 1%Q).

Record Outcome := mkOutcome {
  (** [call.resolve()] was called *)
  resolved : bool;
  (** [call.reject(message)] was called *)
  rejected : option string;
  after : t
}.

Definition withOverlay (overlay : TabsBarOverlay.t) (p : t) : t :=
  mk (TabsBarPlugin.mk (Some overlay) (TabsBarPlugin.hostVC (plugin p))) (view p).

(** [show(_:)] *)
Definition show (p : t) : Outcome :=
  match TabsBarPlugin.overlayVC (plugin p) with
  | None => mkOutcome true (Some "Overlay not initialized") p
  | Some overlay =>
      mkOutcome true None
        (mk (TabsBarPlugin.mk (Some (TabsBarOverlay.set_view_isHidden false overlay))
                              (TabsBarPlugin.hostVC (plugin p)))
            (mkViewFlags true 1%Q))
  end.

(** [hide(_:)] *)
Definition hide (p : t) : Outcome :=
  match TabsBarPlugin.overlayVC (plugin p) with
  | None => mkOutcome true (Some "Overlay not initialized") p
  | Some overlay =>
      mkOutcome true None
        (mk (TabsBarPlugin.mk (Some (TabsBarOverlay.set_view_isHidden true overlay))
                              (TabsBarPlugin.hostVC (plugin p)))
            (mkViewFlags false (alpha (view p))))
  end.

(** [x is NSNull] *)
Definition isNSNull (x : option JS.JSValue) : bool :=
  match x with
  | Some JS.JSNull => true
  | _ => false
  end.

(** The closure that reads the badge of a [setBadge] call. *)
Definition badgeValueOf (call : JS.JSObj) : option TabsBarBadge :=
  if bool_decide (JS.getString "value" call = Some "dot") then Some badge_dot
  else if isNSNull (JS.get "value" call) then None
  else
    match JS.getInt "value" call with
    | Some n => if (n <? 0)%Z then None else Some (badge_number n)
    | None => None
    end.

(** [setBadge(_:)] *)
Definition setBadge (call : JS.JSObj) (p : t) : Outcome :=
  match JS.getString "id" call with
  | None => mkOutcome false (Some "Missing 'id'") p
  | Some id =>
      let badgeValue := badgeValueOf call in
      match TabsBarPlugin.overlayVC (plugin p) with
      | None => mkOutcome true (Some "Overlay not initialized") p
      | Some overlay =>
          mkOutcome true None (withOverlay (TabsBarOverlay.setBadge id badgeValue overlay) p)
      end
  end.

(** [configure(_:)] writes none of the view flags. *)
Definition configure (P : Platform) (call : JS.JSObj) (p : t) : Exec t :=
  match TabsBarPlugin.configure P call (plugin p) with
  | TabsBarPlugin.Rejected _ => Done p
  | TabsBarPlugin.Trapped => Trap
  | TabsBarPlugin.Resolved r => Exec_bind r (fun q => Done (mk q (view p)))
  end.

End PluginCalls.

(** ** The web implementation ([web.ts]) *)

Module Web.

(** What the code takes from the browser. *)
Record Browser := {
  (** [new URL(url).protocol]; [None] when the constructor throws *)
  urlProtocol : string -> option string
}.

Record Blob := mkBlob { blobSize : Z; blobData : Data }.

Module ImageValidator.

Definition SUPPORTED_FORMATS : list string :=
  ["image/png"; "image/jpeg"; "image/jpg"; "image/svg+xml"; "image/webp"].

Definition MAX_FILE_SIZE : Z := 5 * 1024 * 1024.

Definition isValidImageFormat (contentType : string) : bool :=
  Str.contains SUPPORTED_FORMATS (Str.lowercased contentType).

(** [/^data:image\/(png|jpeg|jpg|svg\+xml|webp);base64,/i] *)
Definition isValidBase64DataUri (dataUri : string) : bool :=
  existsb (fun m => String.prefix ("data:image/" ++ m ++ ";base64,")
                                  (Str.lowercased dataUri))
          ["png"; "jpeg"; "jpg"; "svg+xml"; "webp"].

Definition isValidHttpUrl (B : Browser) (url : string) : bool :=
  match urlProtocol B url with
  | Some protocol => Str.eqb protocol "http:" || Str.eqb protocol "https:"
  | None => false
  end.

Definition validateImageSize (blob : Blob) : bool :=
  (blobSize blob <=? MAX_FILE_SIZE)%Z.

End ImageValidator.

(** The errors thrown along the loading path, by the place that throws. *)
Inductive Error :=
(** [HTTP ${status}: ${statusText}] *)
| HttpStatus (status : Z)
(** [Unsupported image format: ${contentType}] *)
| UnsupportedImageFormat (contentType : string)
(** [Image file too large] *)
| ImageFileTooLarge
(** what [fetch] or [response.blob()] rejected with *)
| Network (message : string)
(** [Failed to load image from ${url}: ...] *)
| FailedToLoad (url : string) (cause : Error)
(** [Invalid image source: ${image}] *)
| InvalidImageSource (image : string)
(** [Image loading failed: ...] *)
| ImageLoadingFailed (cause : Error).

Definition Result := (Error + string)%type.

(** What the network answers to one [fetch]. *)
Inductive FetchOutcome :=
(** [fetch] rejects *)
| FetchRejected (message : string)
(** a response: [ok], [status], the [content-type] header if present, and
    the body ([None] when [blob()] rejects) *)
| Response (ok : bool) (status : Z) (contentType : option string) (body : option Blob).

Module ImageManager.

Record CachedImage := mkCached {
  url : string;
  blob : Blob;
  timestamp : Z;
  objectUrl : string
}.

(** 24 hours, in milliseconds *)
Definition CACHE_DURATION : Z := 24 * 60 * 60 * 1000.

Section Runtime.
(** [W]: who awaits the promise returned by [loadRemoteImage]. *)
Context {W : Type}.

(** The two static maps, the promises of [fetchAndCacheImage] that are
    not settled yet (with their url and those awaiting them), and a
    record of what left the manager: requests sent, object URLs
    revoked, results delivered. *)
Record t := mk {
  cache : gmap string CachedImage;
  loadingPromises : gmap string nat;
  pending : gmap nat (string * list W);
  nextPromise : nat;
  nextObjectUrl : nat;
  issued : list string;
  revoked : gset string;
  settled : list (W * Result)
}.

Definition empty : t := mk ∅ ∅ ∅ 0 0 [] ∅ [].

(** [URL.createObjectURL]: a fresh URL each time *)
Definition createObjectURL (n : nat) : string := "blob:" ++ pretty n.

(** Whether [cached] is still served at [now]. *)
Definition fresh (now : Z) (cached : CachedImage) : bool :=
  (now - timestamp cached <? CACHE_DURATION)%Z.

(** [loadRemoteImage(url)] called by [w] at [now] *)
Definition loadRemoteImage (url : string) (w : W) (now : Z) (m : t) : t :=
  match loadingPromises m !! url with
  | Some p =>
      mk (cache m) (loadingPromises m)
         (alter (fun e : string * list W => (fst e, (snd e ++ [w])%list)) p (pending m))
         (nextPromise m) (nextObjectUrl m) (issued m) (revoked m) (settled m)
  | None =>
      match cache m !! url with
      | Some cached =>
          if fresh now cached then
            mk (cache m) (loadingPromises m) (pending m) (nextPromise m)
               (nextObjectUrl m) (issued m) (revoked m)
               (settled m ++ [(w, inr (objectUrl cached))])
          else
            let p := nextPromise m in
            mk (cache m) (<[url := p]> (loadingPromises m))
               (<[p := (url, [w])]> (pending m)) (S p)
               (nextObjectUrl m) (issued m ++ [url]) (revoked m) (settled m)
      | None =>
          let p := nextPromise m in
          mk (cache m) (<[url := p]> (loadingPromises m))
             (<[p := (url, [w])]> (pending m)) (S p)
             (nextObjectUrl m) (issued m ++ [url]) (revoked m) (settled m)
      end
  end.

(** The checks of [fetchAndCacheImage] on what the network answered;
    the blob on success. *)
Definition checkResponse (o : FetchOutcome) : Error + Blob :=
  match o with
  | FetchRejected message => inl (Network message)
  | Response ok status contentType body =>
      if negb ok then inl (HttpStatus status)
      else
        let contentType := default "" contentType in
        if negb (ImageValidator.isValidImageFormat contentType) then
          inl (UnsupportedImageFormat contentType)
        else
          match body with
          | None => inl (Network "blob")
          | Some blob =>
              if negb (ImageValidator.validateImageSize blob) then inl ImageFileTooLarge
              else inr blob
          end
  end.

(** The entries [cleanupCache] removes at [now]. *)
Definition expired (now : Z) (cached : CachedImage) : bool :=
  (now - timestamp cached >? CACHE_DURATION)%Z.

(** [cleanupCache()] on the cache, and the object URLs it revokes *)
Definition cleanupCache (now : Z) (c : gmap string CachedImage)
  : gmap string CachedImage * gset string :=
  (filter (fun e => expired now (snd e) = false) c,
   list_to_set (map (fun e => objectUrl (snd e))
                    (map_to_list (filter (fun e => expired now (snd e) = true) c)))).

(** The network answers the [fetch] of promise [p] at [now]: the rest
    of [fetchAndCacheImage] runs, the promise settles, the caller that
    started it deletes [loadingPromises[url]], and everyone awaiting
    the promise gets its result. *)
Definition fetchSettles (p : nat) (o : FetchOutcome) (now : Z) (m : t) : t :=
  match pending m !! p with
  | None => m
  | Some (url, waiters) =>
      match checkResponse o with
      | inl e =>
          let result : Result := inl (FailedToLoad url e) in
          mk (cache m) (delete url (loadingPromises m)) (delete p (pending m))
             (nextPromise m) (nextObjectUrl m) (issued m) (revoked m)
             (settled m ++ map (fun w => (w, result)) waiters)
      | inr blob =>
          let revokedOld :=
            match cache m !! url with
            | Some oldCached => {[ objectUrl oldCached ]}
            | None => ∅
            end in
          let objectUrl := createObjectURL (nextObjectUrl m) in
          let cached := mkCached url blob now objectUrl in
          let '(cache', revokedExpired) := cleanupCache now (<[url := cached]> (cache m)) in
          let result : Result := inr objectUrl in
          mk cache' (delete url (loadingPromises m)) (delete p (pending m))
             (nextPromise m) (S (nextObjectUrl m)) (issued m)
             (revoked m ∪ revokedOld ∪ revokedExpired)
             (settled m ++ map (fun w => (w, result)) waiters)
      end
  end.

(** [clearCache()] *)
Definition clearCache (m : t) : t :=
  mk ∅ ∅ (pending m) (nextPromise m) (nextObjectUrl m) (issued m)
     (revoked m ∪ list_to_set (map (fun e => objectUrl (snd e)) (map_to_list (cache m))))
     (settled m).

(** [loadImage(imageIcon)] called by [w] at [now] *)
Definition loadImage (B : Browser) (image : string) (w : W) (now : Z) (m : t) : t :=
  if ImageValidator.isValidBase64DataUri image then
    mk (cache m) (loadingPromises m) (pending m) (nextPromise m) (nextObjectUrl m)
       (issued m) (revoked m) (settled m ++ [(w, inr image)])
  else if ImageValidator.isValidHttpUrl B image then
    loadRemoteImage image w now m
  else
    mk (cache m) (loadingPromises m) (pending m) (nextPromise m) (nextObjectUrl m)
       (issued m) (revoked m) (settled m ++ [(w, inl (InvalidImageSource image))]).

(** The fetches in flight for [url]. *)
Definition inFlight (url : string) (m : t) : list nat :=
  map fst (map_to_list (filter (fun e => fst (snd e) = url) (pending m))).

(** What happens to the manager. *)
Inductive Event :=
| Load (url : string) (w : W) (now : Z)
| Settle (p : nat) (o : FetchOutcome) (now : Z)
| ClearCache.

Definition step (m : t) (e : Event) : t :=
  match e with
  | Load url w now => loadRemoteImage url w now m
  | Settle p o now => fetchSettles p o now m
  | ClearCache => clearCache m
  end.

Definition run (es : list Event) (m : t) : t := fold_left step es m.

Definition isClear (e : Event) : bool :=
  match e with ClearCache => true | _ => false end.

(** Whether, along [es] from [m], the cache is only ever cleared while no
    fetch is in flight. *)
Fixpoint clearsOnlyIdle (es : list Event) (m : t) : bool :=
  match es with
  | [] => true
  | e :: es' =>
      (if isClear e then bool_decide (pending m = ∅) else true)
      && clearsOnlyIdle es' (step m e)
  end.

(** The result a fetch for [url] settles with. *)
Definition outcomeOf (url : string) (o : FetchOutcome) (nextObject : nat) : Result :=
  match checkResponse o with
  | inl e => inl (FailedToLoad url e)
  | inr _ => inr (createObjectURL nextObject)
  end.

(** The registry of promises and the fetches in flight agree. *)
Record agree (m : t) : Prop := {
  registry_pending : forall url p,
    loadingPromises m !! url = Some p -> exists ws, pending m !! p = Some (url, ws);
  pending_registry : forall p url ws,
    pending m !! p = Some (url, ws) -> loadingPromises m !! url = Some p;
  pending_bound : forall p e, pending m !! p = Some e -> (p < nextPromise m)%nat
}.

(** [ws] ask for [url], one after the other, each at its own time. *)
Definition loadAll (url : string) (ws : list (W * Z)) (m : t) : t :=
  fold_left (fun m e => loadRemoteImage url (fst e) (snd e) m) ws m.

End Runtime.

End ImageManager.

End Web.

(** ** A small concrete platform, to run the model on *)

Module Demo.

(** The text before the first colon, as [URL.scheme]. *)
Fixpoint schemeOf (s : string) : option string :=
  match s with
  | EmptyString => None
  | String c r =>
      if Ascii.eqb c ":" then Some EmptyString
      else match schemeOf r with
           | Some t => Some (String c t)
           | None => None
           end
  end.

(** Bytes decode as an image when they start with the byte [x89]; the two
    bytes that follow are taken as width and height. *)
Definition decode (d : Data) : option CGSize :=
  match d with
  | x89 :: w :: h :: _ =>
      Some (mkSize (inject_Z (Z.of_N (Byte.to_N w))) (inject_Z (Z.of_N (Byte.to_N h))))
  | _ => None
  end.

Definition symbols : list string := ["house"; "gear"; "person"; "star"].

Definition platform : Platform := {|
  screenScale := 2%Q;
  decodeImage := decode;
  base64Decode := fun s => Some (list_byte_of_string s);
  urlScheme := fun s => if Str.isEmpty s then None else Some (schemeOf s);
  systemSymbol := fun n => if Str.contains symbols n then Some (mkSize 24%Q 24%Q) else None;
  bundledAsset := fun n => if Str.eqb n "bundled-asset" then Some (mkSize 30%Q 30%Q) else None;
  parseColor := fun s =>
    match s with
    | Some "#FF0000" => Some (RGBA 1%Q 0%Q 0%Q 1%Q)
    | _ => None
    end
|}.

Definition item (id icon : string) : JS.JSValue :=
  JS.JSObject [("id", JS.JSString id); ("systemIcon", JS.JSString icon)].

(** A plugin whose bridge has a view controller and no overlay yet. *)
Definition freshPlugin : TabsBarPlugin.t := TabsBarPlugin.mk None true.

(** A [configure] call with three tabs. *)
Definition threeTabs : JS.JSObj :=
  [("items", JS.JSArray [item "a" "house"; item "b" "gear"; item "c" "person"]);
   ("initialId", JS.JSString "a")].

Definition threeTabsItems : list TabsBarItem.t :=
  [TabsBarItem.mk "a" None "house" None None None;
   TabsBarItem.mk "b" None "gear" None None None;
   TabsBarItem.mk "c" None "person" None None None].

(** The overlay a call leaves behind. *)
Definition overlayAfter (r : TabsBarPlugin.CallResult) : TabsBarOverlay.t :=
  match r with
  | TabsBarPlugin.Resolved (Done p) =>
      default TabsBarOverlay.init (TabsBarPlugin.overlayVC p)
  | _ => TabsBarOverlay.init
  end.

Definition configured : TabsBarOverlay.t :=
  overlayAfter (TabsBarPlugin.configure platform threeTabs freshPlugin).

(** Two tabs with the same id. *)
Definition duplicateIds : JS.JSObj :=
  [("items", JS.JSArray [item "a" "house"; item "a" "gear"])].

(** The second tab has no [systemIcon]. *)
Definition missingSystemIcon : JS.JSObj :=
  [("items", JS.JSArray [item "a" "house"; JS.JSObject [("id", JS.JSString "b")]])].

(** One tab: its icon source is neither a data URI nor an http(s) URL,
    its [systemIcon] names no SF Symbol, and it has a bundled image. *)
Definition brokenIcon : JS.JSObj :=
  [("items",
    JS.JSArray
      [JS.JSObject
         [("id", JS.JSString "t");
          ("systemIcon", JS.JSString "no.such.symbol");
          ("image", JS.JSString "bundled-asset");
          ("imageIcon",
           JS.JSObject [("shape", JS.JSString "circle");
                        ("size", JS.JSString "cover");
                        ("image", JS.JSString "ftp://x/icon.png")])]])].

Definition brokenIconModel : TabsBarItem.t :=
  TabsBarItem.mk "t" None "no.such.symbol" (Some "bundled-asset")
    (Some (ImageIcon.mk "circle" "cover" "ftp://x/icon.png" None)) None.

(** A gesture as the callbacks see it when no layout information is used. *)
Definition gesture : TabsBarOverlay.Gesture :=
  TabsBarOverlay.mkGesture possible None None 0%Q 0%Q.

(** A good PNG of 40 x 20 and a response that carries it. *)
Definition png : Data := [x89; x28; x14; x00].

Definition okResponse (contentType : option string) : ImageUtils.TaskResult :=
  ImageUtils.mkTaskResult (Some png) (Some 200%Z) contentType false.

Definition avatar : string := "https://x/avatar.png".

(** A response that is no success. *)
Definition failedResponse : ImageUtils.TaskResult :=
  ImageUtils.mkTaskResult None (Some 404%Z) None false.

(** 24 hours and 25 hours, in milliseconds. *)
Definition hours24 : Z := 24 * 60 * 60 * 1000.
Definition hours25 : Z := 25 * 60 * 60 * 1000.

End Demo.

(** ** Selection state and reachable overlays *)

Module Selection.

Import TabsBarOverlay.

(** The id of the tab the overlay holds as selected
    ([items[lastSelectedIndex].id]). *)
Definition selectedId (o : t) : option string :=
  i ← lastSelectedIndex o;
  TabsBarItem.id <$> items o !! Z.to_nat i.

(** The id of the tab the bar highlights ([tabBar.selectedItem]). *)
Definition highlightedId (o : t) : option string :=
  ref ← selectedItem (tabBar o);
  TabsBarItem.id <$> items o !! Z.to_nat (tagOf ref o).

(** The ids of the current tab list. *)
Definition currentIds (o : t) : list string := map TabsBarItem.id (items o).

(** Everything that can happen to an overlay once the plugin has created
    it: the methods the plugin calls, the callbacks of UIKit, the
    completions of the loads. *)
Inductive step (P : Platform) : t -> t -> Prop :=
| step_update its initialId visible sel unsel opacity o o' :
    update P its initialId visible sel unsel opacity o = Done o' ->
    step P o o'
| step_select id o : step P o (select id o)
| step_setBadge id value o : step P o (setBadge id value o)
| step_userSelects pos o : step P o (userSelects pos o)
| step_handleLongPress g o : step P o (handleLongPress g o)
| step_runMainQueue o : step P o (runMainQueue P o)
| step_dataTaskFinished task r o : step P o (dataTaskFinished P task r o)
| step_retryFired n o : step P o (retryFired P n o).

Inductive reachable (P : Platform) : t -> Prop :=
| reachable_created : reachable P (set_onInteraction true init)
| reachable_step o o' : reachable P o -> step P o o' -> reachable P o'.

(** What holds of every reachable overlay. *)
Record consistent (o : t) : Prop := {
  index_sound : forall id i,
    idToIndex o !! id = Some i ->
    exists model, items o !! i = Some model /\ TabsBarItem.id model = id;
  bar_length : length (default [] (tabItems (tabBar o))) = length (items o);
  bar_tags : forall pos ref,
    default [] (tabItems (tabBar o)) !! pos = Some ref -> tagOf ref o = Z.of_nat pos;
  selection_valid :
    match lastSelectedIndex o with
    | Some i =>
        (0 <= i < Z.of_nat (length (items o)))%Z /\
        selectedItem (tabBar o) = default [] (tabItems (tabBar o)) !! Z.to_nat i
    | None => items o = [] /\ selectedItem (tabBar o) = None
    end;
  listener_set : onInteraction o = true;
  recognizers_attached :
    longPressRecognizers o
    = map (fun button => mkRecognizer (45 # 100)%Q false button)
          (seq 0 (length (items o)))
}.

(** The part of an overlay the selection logic reads. *)
Definition core (o : t) :=
  (items o, idToIndex o, tabItems (tabBar o), selectedItem (tabBar o),
   lastSelectedIndex o, onInteraction o, UITabBarItem.tag <$> objects o,
   longPressRecognizers o).

(** What [applyColorConfiguration] leaves alone. *)
Definition frame (o : t) :=
  (suppressNextSelectionEvent o, interactions o, objects o, nextObject o,
   loader o, mainQueue o, view_isHidden o).

(** What the creation of the bar items leaves alone. *)
Definition static (o : t) :=
  (items o, idToIndex o, tabBar o, lastSelectedIndex o, onInteraction o,
   suppressNextSelectionEvent o, interactions o, selectedIconColor o,
   unselectedIconColor o, titleOpacity o).

End Selection.

(** ** The fallback chain in the words of the specification *)

Module SpecFallback.

(** iconSource, then symbolicIcon, then bundledImageRef, then the empty
    placeholder: the image a tab ends with when the resolution of its
    icon source gave [resolved]. *)
Definition chain (P : Platform) (resolved : option UIImage) (model : TabsBarItem.t)
  : UIImage :=
  match resolved with
  | Some image => image
  | None =>
      match UIImage_systemName P (TabsBarItem.systemIcon model) with
      | Some image => image
      | None =>
          match TabsBarItem.image model ≫= UIImage_named P with
          | Some image => image
          | None => ImageEmpty
          end
      end
  end.

End SpecFallback.

(** ** What happens to the iOS loader *)

Module LoaderEvents.

Section WithPlatform.
Context (P : Platform) {C : Type}.

(** A caller asks for a url, a queued retry runs, a data task completes.
    ([ImageUtils.clearCache] has no caller in the app.) *)
Inductive Event :=
| Request (url : string) (completion : C)
| Retry (n : nat)
| Finished (task : nat) (r : ImageUtils.TaskResult).

Definition step1 (e : Event) (l : @ImageUtils.Loader C) : ImageUtils.Loader * ImageUtils.Called :=
  match e with
  | Request url completion => ImageUtils.loadImageFromUrl P url completion l
  | Retry n => ImageUtils.runRetry P n l
  | Finished task r => ImageUtils.taskFinished P task r l
  end.

(** The loader after the events, and every completion called on the way. *)
Definition step (st : ImageUtils.Loader * ImageUtils.Called) (e : Event)
  : ImageUtils.Loader * ImageUtils.Called :=
  let '(l', called) := step1 e (fst st) in (l', (snd st ++ called)%list).

Definition run (es : list Event) (l : ImageUtils.Loader) : ImageUtils.Loader * ImageUtils.Called :=
  fold_left step es (l, []).

(** The same events with the wall-clock time (in milliseconds) at which each
    happens: the loader never reads a clock. *)
Definition runAt (es : list (Z * Event)) (l : ImageUtils.Loader)
  : ImageUtils.Loader * ImageUtils.Called :=
  run (map snd es) l.

End WithPlatform.

End LoaderEvents.
(** ** Vocabulary of the statements *)

Module ColorNotation.

(** The number two hexadecimal digits write. *)
Definition hexByte (c d : ascii) : option Z :=
  a ← SwiftString.digitValue c;
  b ← SwiftString.digitValue d;
  if (a <? 16)%Z && (b <? 16)%Z then Some (16 * a + b)%Z else None.

End ColorNotation.

Module Layout.
Import TabsBarOverlay.

(** The [UITabBarItem] the bar shows at a position. *)
Definition barItem (pos : nat) (o : t) : option UITabBarItem.t :=
  ref ← tabItems (tabBar o) ≫= (fun l => l !! pos);
  objects o !! ref.

(** The text [applyBadge] writes for a badge. *)
Definition badgeText (badge : option TabsBarBadge) : option string :=
  UITabBarItem.badgeValue (applyBadge badge (UITabBarItem.mk "" None None 0 None)).

(** Every item is indexed under its id, and the bar holds one object per
    item, each its own. *)
Record wellIndexed (o : t) : Prop := {
  index_complete : forall pos model,
    items o !! pos = Some model -> idToIndex o !! TabsBarItem.id model = Some pos;
  bar_distinct : NoDup (default [] (tabItems (tabBar o)));
  bar_objects : forall ref,
    ref ∈ default [] (tabItems (tabBar o)) -> is_Some (objects o !! ref)
}.

(** What the [map] closure of [update] leaves in the object of the tab at
    [idx]. *)
Definition made (P : Platform) (idx : nat) (model : TabsBarItem.t) (b : UITabBarItem.t)
  : Prop :=
  UITabBarItem.title b = default "" (TabsBarItem.title model) /\
  UITabBarItem.tag b = Z.of_nat idx /\
  UITabBarItem.badgeValue b = badgeText (TabsBarItem.badge model) /\
  UITabBarItem.selectedImage b = None /\
  UITabBarItem.image b
  = match TabsBarItem.imageIcon model with
    | Some _ => None
    | None => Some (default ImageEmpty (UIImage_systemName P (TabsBarItem.systemIcon model)))
    end.

(** What [wellIndexed] reads of an overlay. *)
Definition layout (o : t) :=
  (items o, idToIndex o, tabItems (tabBar o), UITabBarItem.tag <$> objects o).

End Layout.

(** ** The badge values of [definitions.ts] *)

Module BadgeValue.

(** [type BadgeValue = number | "dot" | null] *)
Inductive t :=
| Number (n : Q)
| Dot
| Null.

Definition toJS (v : t) : JS.JSValue :=
  match v with
  | Number n => JS.JSNumber n
  | Dot => JS.JSString "dot"
  | Null => JS.JSNull
  end.

(** A number that [Int] holds (below 2^63 in size). *)
Definition representable (v : t) : Prop :=
  match v with
  | Number n => (- 2 ^ 63 <= Qnum (Qred n) < 2 ^ 63)%Z
  | _ => True
  end.

(** The text the tab shows: the number when it is a positive integer, a
    bullet for ["dot"], nothing otherwise. *)
Definition text (v : t) : option string :=
  match v with
  | Number n =>
      if (Qden (Qred n) =? 1)%positive && (0 <? Qnum (Qred n))%Z
      then Some (pretty (Qnum (Qred n)))
      else None
  | Dot => Some "•"
  | Null => None
  end.

End BadgeValue.

(** ** The completions of the iOS loader *)

Module Completions.

Section WithCompletions.
Context {C : Type}.

(** The completions passed with the requests of [es], oldest first. *)
Definition requested (es : list (@LoaderEvents.Event C)) : list C :=
  omap (fun e => match e with
                 | LoaderEvents.Request _ completion => Some completion
                 | _ => None
                 end) es.

(** The completions a loader still holds: those of its data tasks and
    those of the retries it has queued. *)
Definition held (l : @ImageUtils.Loader C) : list C :=
  (map snd (ImageUtils.tasks l) ++ map snd (ImageUtils.retries l))%list.

(** Data tasks are told apart by their number. *)
Definition numbered (l : @ImageUtils.Loader C) : Prop :=
  NoDup (map ImageUtils.taskId (ImageUtils.tasks l)) /\
  forall e, e ∈ ImageUtils.tasks l -> (ImageUtils.taskId e < ImageUtils.nextTask l)%nat.

End WithCompletions.

End Completions.

(** ** The object URLs of the web image manager *)

Module ObjectUrls.

Section WithWaiters.
Context {W : Type}.
Import Web.ImageManager.

(** Every object URL the manager has created is the URL of one cache entry
    or has been revoked, and not both. *)
Record tidy (m : @t W) : Prop := {
  cached_created : forall url c,
    cache m !! url = Some c ->
    exists n, (n < nextObjectUrl m)%nat /\ objectUrl c = createObjectURL n;
  cached_live : forall url c,
    cache m !! url = Some c -> objectUrl c ∉ revoked m;
  cached_distinct : forall url1 url2 c1 c2,
    cache m !! url1 = Some c1 -> cache m !! url2 = Some c2 ->
    objectUrl c1 = objectUrl c2 -> url1 = url2;
  revoked_created : forall u,
    u ∈ revoked m -> exists n, (n < nextObjectUrl m)%nat /\ u = createObjectURL n;
  created_accounted : forall n,
    (n < nextObjectUrl m)%nat ->
    createObjectURL n ∈ revoked m \/
    exists url c, cache m !! url = Some c /\ objectUrl c = createObjectURL n
}.

End WithWaiters.

End ObjectUrls.
(** ** Vocabulary of the pattern of [parseRgbaColor] *)

Module RegexNotation.


(** Whether every character of a string is in a class. *)
Fixpoint allIn (class : ascii -> bool) (s : string) : bool :=
  match s with
  | EmptyString => true
  | String c r => class c && allIn class r
  end.

(** Whether a string starts with a character of a class. *)
Definition startsIn (class : ascii -> bool) (s : string) : bool :=
  match s with
  | EmptyString => false
  | String c _ => class c
  end.

(** The class of a one-character expression. *)
Definition classOf (r : Regex.t) : ascii -> bool :=
  match r with
  | Regex.Chr class => class
  | _ => fun _ => false
  end.

(** The rounds of a starred expression, by name. *)
Definition rounds {A} (r' : Regex.t) (k : string -> nat -> Regex.Captures -> option A)
  : nat -> string -> nat -> Regex.Captures -> option A :=
  fix rounds (fuel : nat) (s : string) (pos : nat) (caps : Regex.Captures) {struct fuel}
    : option A :=
    match fuel with
    | O => k s pos caps
    | S fuel' =>
        match Regex.matchAt r' s pos caps
                (fun s' pos' caps' =>
                   if (pos <? pos')%nat then rounds fuel' s' pos' caps' else None) with
        | Some a => Some a
        | None => k s pos caps
        end
    end.

(** The classes of [\s], of the point and of the comma. *)
Definition spaceClass : ascii -> bool := classOf Regex.space.
Definition pointClass : ascii -> bool := classOf (Regex.lit ".").
Definition commaClass : ascii -> bool := classOf (Regex.lit ",").

(** [rgb(R,G,B)] and [rgba(R,G,B)], with blanks after the commas. *)
Definition rgbText (a : bool) (R w1 G w2 B : string) : string :=
  "rgb" ++ (if a then "a" else "") ++ "(" ++ R ++ "," ++ w1 ++ G ++ "," ++ w2 ++ B ++ ")".

End RegexNotation.
(** ** Sample calls, to run the statements on *)

Module Samples.

(** The demo platform with the plugin's own colour parser. *)
Definition platform : Platform := {|
  screenScale := screenScale Demo.platform;
  decodeImage := decodeImage Demo.platform;
  base64Decode := base64Decode Demo.platform;
  urlScheme := urlScheme Demo.platform;
  systemSymbol := systemSymbol Demo.platform;
  bundledAsset := bundledAsset Demo.platform;
  parseColor := ColorUtils.parseColor
|}.

(** The overlay an [update] leaves behind. *)
Definition overlayOf (r : Exec TabsBarOverlay.t) : TabsBarOverlay.t :=
  match r with
  | Done o => o
  | Trap => TabsBarOverlay.init
  end.

(** The plugin a call leaves behind. *)
Definition pluginOf (r : TabsBarPlugin.CallResult) : TabsBarPlugin.t :=
  match r with
  | TabsBarPlugin.Resolved (Done p) => p
  | _ => Demo.freshPlugin
  end.

(** A [configure] call with colours and a title opacity. *)
Definition coloured : JS.JSObj :=
  [("items", JS.JSArray [Demo.item "a" "house"; Demo.item "b" "gear"]);
   ("selectedIconColor", JS.JSString "#F57");
   ("unselectedIconColor", JS.JSString "rgb(142, 142, 147)");
   ("titleOpacity", JS.JSNumber (1 # 2))].

(** The overlay a fresh plugin creates, and a plugin that was configured. *)
Definition created : TabsBarOverlay.t :=
  TabsBarOverlay.set_onInteraction true TabsBarOverlay.init.

Definition configuredPlugin : PluginCalls.t :=
  PluginCalls.mk (pluginOf (TabsBarPlugin.configure platform Demo.threeTabs Demo.freshPlugin))
                 (PluginCalls.view (PluginCalls.fresh true)).

(** An inline icon the demo platform decodes, and a tab that has it. *)
Definition inlineIcon : string :=
  "data:image/png;base64," ++ String (ascii_of_nat 137) "((".

Definition inlineTab : TabsBarItem.t :=
  TabsBarItem.mk "a" None "house" None
    (Some (ImageIcon.mk "circle" "cover" inlineIcon None)) None.


(** A tab with a badge, as a call carries it. *)
Definition badged : JS.JSObj := [("id", JS.JSString "a"); ("badge", JS.JSNumber 5)].

(** One request of the web manager, answered with a PNG. *)
Definition answered : list (@Web.ImageManager.Event unit) :=
  [Web.ImageManager.Load "https://x/a.png" tt 0%Z;
   Web.ImageManager.Settle 0
     (Web.Response true 200 (Some "image/png") (Some (Web.mkBlob 4 Demo.png))) 5%Z].

(** Two requests for one URL: the second waits for the first, which the
    network answers, and is retried after it. *)
Definition twoRequests : list (@LoaderEvents.Event nat) :=
  [LoaderEvents.Request Demo.avatar 1%nat;
   LoaderEvents.Request Demo.avatar 2%nat;
   LoaderEvents.Finished 0 (Demo.okResponse (Some "image/png"));
   LoaderEvents.Retry 0].

End Samples.

(** * Facts about the overlay *)

Module OverlayFacts.
Import TabsBarOverlay Selection.


Lemma tagOf_tags o ref :
  tagOf ref o = default 0%Z ((UITabBarItem.tag <$> objects o) !! ref).
Proof. unfold tagOf. rewrite lookup_fmap. by destruct (objects o !! ref). Qed.

Lemma consistent_core o o' : core o = core o' -> consistent o -> consistent o'.
Proof.
  unfold core. intros Heq [H1 H2 H3 H4 H5 H6].
  injection Heq as Hi Hx Ht Hs Hl Hon Htag Hrec.
  assert (Htags : forall ref, tagOf ref o' = tagOf ref o)
    by (intros ref; by rewrite !tagOf_tags, Htag).
  split.
  - rewrite <- Hi, <- Hx. exact H1.
  - by rewrite <- Hi, <- Ht.
  - intros pos ref. rewrite <- Ht, Htags. apply H3.
  - rewrite <- Hl, <- Hi, <- Hs, <- Ht. exact H4.
  - by rewrite <- Hon.
  - by rewrite <- Hrec, <- Hi.
Qed.

Lemma tag_alter (f : UITabBarItem.t -> UITabBarItem.t) k (m : gmap nat UITabBarItem.t) :
  (forall b, UITabBarItem.tag (f b) = UITabBarItem.tag b) ->
  UITabBarItem.tag <$> alter f k m = UITabBarItem.tag <$> m.
Proof.
  intros Hf. apply map_eq. intros i. rewrite !lookup_fmap.
  destruct (decide (k = i)) as [->|Hne].
  - rewrite lookup_alter_eq. destruct (m !! i); simpl; [by rewrite Hf | done].
  - by rewrite lookup_alter_ne.
Qed.

Lemma applyColorConfiguration_core o : core (applyColorConfiguration o) = core o.
Proof.
  unfold applyColorConfiguration, applyTitleTextAttributes, core.
  destruct o as [its idx bar oi sel unsel op rec sup last hid objs nxt ld q ints].
  destruct sel, unsel; reflexivity.
Qed.

Lemma applyColorConfiguration_frame o : frame (applyColorConfiguration o) = frame o.
Proof.
  unfold applyColorConfiguration, applyTitleTextAttributes, frame.
  destruct o as [its idx bar oi sel unsel op rec sup last hid objs nxt ld q ints].
  destruct sel, unsel; reflexivity.
Qed.

Lemma applyColorConfiguration_interactions o :
  interactions (applyColorConfiguration o) = interactions o.
Proof. pose proof (applyColorConfiguration_frame o) as H. by injection H. Qed.

Lemma applyColorConfiguration_suppress o :
  suppressNextSelectionEvent (applyColorConfiguration o) = suppressNextSelectionEvent o.
Proof. pose proof (applyColorConfiguration_frame o) as H. by injection H. Qed.

Local Opaque applyColorConfiguration.

Lemma restorePreviousSelection_core o :
  consistent o -> core (restorePreviousSelection o) = core o.
Proof.
  intros [_ _ _ Hsel _ _]. unfold restorePreviousSelection.
  destruct (lastSelectedIndex o) as [i|] eqn:Hl; [|done].
  destruct (tabItems (tabBar o)) as [refs|] eqn:Ht; [|done].
  destruct (_ && _); [|done].
  rewrite applyColorConfiguration_core.
  destruct Hsel as [_ Hs]. simpl in Hs.
  unfold core, set_selectedItem; simpl. rewrite Ht, Hl. by rewrite Hs.
Qed.

Lemma restorePreviousSelection_frame o :
  frame (restorePreviousSelection o) = frame o.
Proof.
  unfold restorePreviousSelection.
  destruct (lastSelectedIndex o) as [i|]; [|done].
  destruct (tabItems (tabBar o)) as [refs|]; [|done].
  destruct (_ && _); [|done].
  by rewrite applyColorConfiguration_frame.
Qed.

Lemma restorePreviousSelection_selection o :
  items (restorePreviousSelection o) = items o /\
  lastSelectedIndex (restorePreviousSelection o) = lastSelectedIndex o.
Proof.
  unfold restorePreviousSelection.
  destruct (lastSelectedIndex o) as [i|] eqn:Hl; [|done].
  destruct (tabItems (tabBar o)) as [refs|]; [|by rewrite Hl].
  destruct (_ && _); [|by rewrite Hl].
  pose proof (applyColorConfiguration_core (set_selectedItem (refs !! Z.to_nat i) o)) as Hcore.
  unfold core in Hcore. injection Hcore as -> _ _ _ -> _ _ _. by rewrite Hl.
Qed.

Lemma select_consistent o id : consistent o -> consistent (select id o).
Proof.
  intros Hc. unfold select.
  destruct (idToIndex o !! id) as [idx|] eqn:Hi; [|done].
  destruct (tabItems (tabBar o)) as [refs|] eqn:Ht; [|done].
  destruct (idx <? length refs)%nat eqn:Hlt; [|done].
  apply Nat.ltb_lt in Hlt.
  eapply consistent_core; [symmetry; apply applyColorConfiguration_core|].
  destruct Hc as [H1 H2 H3 H4 H5 H6]. rewrite Ht in H2, H3. simpl in H2, H3.
  split; simpl; try done.
  - by rewrite Ht.
  - rewrite Ht. exact H3.
  - rewrite Ht; simpl. rewrite Nat2Z.id. split; [lia | done].
Qed.

Lemma callOnInteraction_core id kind o : core (callOnInteraction id kind o) = core o.
Proof. unfold callOnInteraction. by destruct (onInteraction o). Qed.

Local Opaque callOnInteraction.

Lemma tabBar_didSelect_consistent o pos ref :
  consistent o ->
  default [] (tabItems (tabBar o)) !! pos = Some ref ->
  consistent (tabBar_didSelect (Z.of_nat pos) (set_selectedItem (Some ref) o)).
Proof.
  intros Hc Hpos.
  pose proof (lookup_lt_Some _ _ _ Hpos) as Hlen.
  destruct Hc as [H1 H2 H3 H4 H5 H6]. rewrite H2 in Hlen.
  unfold tabBar_didSelect. simpl.
  replace ((0 <=? Z.of_nat pos)%Z && (Z.of_nat pos <? Z.of_nat (length (items o)))%Z)
    with true by (symmetry; apply andb_true_iff; split; [apply Z.leb_le|apply Z.ltb_lt]; lia).
  destruct (suppressNextSelectionEvent o) eqn:Hsup.
  - unfold restorePreviousSelection; simpl.
    destruct (lastSelectedIndex o) as [i|] eqn:Hl.
    2:{ destruct H4 as [Hnil _]. rewrite Hnil in Hlen. simpl in Hlen. lia. }
    destruct (tabItems (tabBar o)) as [refs|] eqn:Ht.
    2:{ simpl in H2. rewrite <- H2 in Hlen. simpl in Hlen. lia. }
    simpl in *. destruct H4 as [Hrange Hs].
    replace ((0 <=? i)%Z && (i <? Z.of_nat (length refs))%Z)
      with true by (symmetry; apply andb_true_iff; split; [apply Z.leb_le|apply Z.ltb_lt]; lia).
    eapply consistent_core; [symmetry; apply applyColorConfiguration_core|].
    split; simpl; try done.
    + by rewrite Ht.
    + rewrite Ht. exact H3.
    + rewrite Hl, Ht. simpl. done.
  - set (o1 := applyColorConfiguration _).
    assert (Hc1 : consistent o1).
    { eapply consistent_core; [symmetry; apply applyColorConfiguration_core|].
      split; simpl; try done.
      rewrite Nat2Z.id. split; [lia|]. by rewrite Hpos. }
    destruct (items o1 !! Z.to_nat (Z.of_nat pos)); [|exact Hc1].
    eapply consistent_core; [symmetry; apply callOnInteraction_core|exact Hc1].
Qed.

Lemma userSelects_consistent o pos : consistent o -> consistent (userSelects pos o).
Proof.
  intros Hc. unfold userSelects.
  destruct (tabItems (tabBar o) ≫= _) as [ref|] eqn:Href; [|done].
  assert (Hpos : default [] (tabItems (tabBar o)) !! pos = Some ref).
  { destruct (tabItems (tabBar o)); simpl in *; [done|discriminate]. }
  change (tagOf ref (set_selectedItem (Some ref) o)) with (tagOf ref o).
  rewrite (bar_tags _ Hc pos ref Hpos).
  by apply tabBar_didSelect_consistent.
Qed.

Lemma handleLongPress_consistent g o : consistent o -> consistent (handleLongPress g o).
Proof.
  intros Hc. unfold handleLongPress.
  assert (Hoff : forall b, consistent (set_suppressNextSelectionEvent b o))
    by (intros b; destruct Hc; by split).
  destruct (gestureState g); try done.
  destruct (indexForGesture g o) as [index|]; [|done].
  destruct (_ && _); [|done].
  set (o1 := restorePreviousSelection _).
  assert (Hc1 : consistent o1).
  { eapply consistent_core; [symmetry; by apply restorePreviousSelection_core|done]. }
  destruct (items o1 !! Z.to_nat index); [|exact Hc1].
  eapply consistent_core; [symmetry; apply callOnInteraction_core|exact Hc1].
Qed.

Lemma applyBadge_tag badge item :
  UITabBarItem.tag (applyBadge badge item) = UITabBarItem.tag item.
Proof. unfold applyBadge. by destruct badge as [[]|]. Qed.

Lemma setBadge_core id value o : core (setBadge id value o) = core o.
Proof.
  unfold setBadge. repeat case_match; try done.
  unfold core; simpl. rewrite tag_alter; [done|]. intros b. apply applyBadge_tag.
Qed.

Lemma iconBlock_core P c image o : core (iconBlock P c image o) = core o.
Proof.
  unfold iconBlock. destruct image; unfold core; simpl; by rewrite tag_alter.
Qed.

Lemma runMainQueue_core P o : core (runMainQueue P o) = core o.
Proof.
  unfold runMainQueue. destruct (mainQueue o) as [|[c image] rest]; [done|].
  by rewrite iconBlock_core.
Qed.

Lemma dataTaskFinished_core P task r o : core (dataTaskFinished P task r o) = core o.
Proof. unfold dataTaskFinished. by destruct (ImageUtils.taskFinished _ _ _ _). Qed.

Lemma retryFired_core P n o : core (retryFired P n o) = core o.
Proof. unfold retryFired. by destruct (ImageUtils.runRetry _ _ _). Qed.

(** *** [update] builds a consistent overlay *)

Lemma loadImageForItem_static P model ref o :
  static (loadImageForItem P model ref o) = static o /\
  nextObject (loadImageForItem P model ref o) = nextObject o /\
  UITabBarItem.tag <$> objects (loadImageForItem P model ref o)
  = UITabBarItem.tag <$> objects o.
Proof.
  unfold loadImageForItem. destruct (TabsBarItem.imageIcon model).
  - by destruct (ImageUtils.processImageIcon _ _ _ _).
  - repeat split. simpl. by rewrite tag_alter.
Qed.

Lemma makeBarItems_spec P models : forall idx o refs o',
  makeBarItems P idx models o = (refs, o') ->
  static o' = static o /\
  length refs = length models /\
  (nextObject o <= nextObject o')%nat /\
  (forall r, (r < nextObject o)%nat -> tagOf r o' = tagOf r o) /\
  (forall k ref, refs !! k = Some ref ->
                 tagOf ref o' = Z.of_nat (idx + k) /\ (ref < nextObject o')%nat).
Proof.
  induction models as [|model rest IH]; intros idx o refs o' H; simpl in H.
  - injection H as <- <-. repeat split; try done.
  - unfold makeBarItem in H.
    set (item := applyBadge _ _) in H.
    set (o0 := set_nextObject _ _) in H.
    set (o1 := loadImageForItem P model (nextObject o) o0) in H.
    destruct (makeBarItems P (S idx) rest o1) as [refs' o2] eqn:Hrest.
    injection H as <- <-.
    destruct (loadImageForItem_static P model (nextObject o) o0) as (Hs1 & Hn1 & Ht1).
    fold o1 in Hs1, Hn1, Ht1.
    destruct (IH _ _ _ _ Hrest) as (Hs2 & Hlen & Hn2 & Hold & Hnew).
    assert (Hn1' : nextObject o1 = S (nextObject o)) by (by rewrite Hn1).
    assert (Htag1 : forall r, tagOf r o1 = tagOf r o0)
      by (intros r; by rewrite !tagOf_tags, Ht1).
    repeat split.
    + by rewrite Hs2, Hs1.
    + simpl. by rewrite Hlen.
    + lia.
    + intros r Hr. rewrite Hold by lia. rewrite Htag1.
      unfold tagOf, o0; simpl. rewrite lookup_insert_ne by lia. done.
    + destruct k as [|k]; simpl in H; [injection H as <-|].
      * rewrite Hold by lia. rewrite Htag1. unfold tagOf, o0; simpl.
        rewrite lookup_insert_eq. unfold item. rewrite applyBadge_tag. simpl. lia.
      * destruct (Hnew _ _ H) as [-> _]. lia.
    + destruct k as [|k]; simpl in H; [injection H as <-; lia|].
      by destruct (Hnew _ _ H).
Qed.

Lemma uniqueKeysWithValues_sound l : forall acc m,
  uniqueKeysWithValues l acc = Done m ->
  forall k v, m !! k = Some v -> acc !! k = Some v \/ (k, v) ∈ l.
Proof.
  induction l as [|[k0 v0] l IH]; intros acc m H k v Hm; simpl in H.
  - injection H as ->. by left.
  - destruct (acc !! k0) eqn:Hk0; [discriminate|].
    destruct (IH _ _ H k v Hm) as [Hin|Hin].
    + destruct (decide (k0 = k)) as [->|Hne].
      * rewrite lookup_insert_eq in Hin. injection Hin as ->. right. constructor.
      * rewrite lookup_insert_ne in Hin by done. by left.
    + right. by constructor.
Qed.

Lemma uniqueKeysWithValues_Done l : forall acc,
  NoDup l.*1 -> (forall k, k ∈ l.*1 -> acc !! k = None) ->
  exists m, uniqueKeysWithValues l acc = Done m.
Proof.
  induction l as [|[k0 v0] l IH]; intros acc Hnd Hfresh; simpl.
  - by eexists.
  - simpl in Hnd. apply NoDup_cons in Hnd as [Hnotin Hnd].
    rewrite (Hfresh k0) by constructor.
    apply IH; [done|]. intros k Hk.
    rewrite lookup_insert_ne; [apply Hfresh; by constructor|].
    intros ->. done.
Qed.

Lemma uniqueKeysWithValues_Trap l : forall acc,
  ~ NoDup l.*1 -> uniqueKeysWithValues l acc = Trap.
Proof.
  induction l as [|[k0 v0] l IH]; intros acc Hnd; simpl.
  - destruct Hnd. constructor.
  - destruct (acc !! k0) eqn:Hk0; [done|].
    destruct (decide (k0 ∈ l.*1)) as [Hin|Hnotin].
    + clear IH Hnd. revert acc Hk0.
      induction l as [|[k1 v1] l IHl]; intros acc Hk0; [by apply elem_of_nil in Hin|].
      simpl in *. destruct (decide (k1 = k0)) as [->|Hne].
      * by rewrite lookup_insert_eq.
      * rewrite lookup_insert_ne by done.
        apply elem_of_cons in Hin as [Heq|Hin]; [congruence|].
        destruct (acc !! k1) eqn:Hk1; [done|].
        rewrite insert_insert_ne by done.
        apply IHl; [done|]. by rewrite lookup_insert_ne.
    + apply IH. intros Hnd'. apply Hnd. simpl. by apply NoDup_cons.
Qed.

Lemma enumeratedIds_fst its : (enumeratedIds its).*1 = map TabsBarItem.id its.
Proof.
  unfold enumeratedIds. rewrite fmap_imap.
  exact (imap_const TabsBarItem.id its).
Qed.

Lemma update_consistent P its initialId visible sel unsel opacity o o' :
  onInteraction o = true ->
  update P its initialId visible sel unsel opacity o = Done o' ->
  consistent o'.
Proof.
  intros Hon. unfold update.
  destruct (uniqueKeysWithValues (enumeratedIds its) ∅) as [index|] eqn:Hidx; [|done].
  simpl.
  destruct (makeBarItems P 0 its _) as [refs o2] eqn:Hmk.
  destruct (makeBarItems_spec _ _ _ _ _ _ Hmk) as (Hst & Hlen & _ & _ & Htags).
  unfold static in Hst. simpl in Hst.
  injection Hst as Hitems Hindex Hbar Hlast Hon2 _ _ _ _ _.
  set (oA := applyColorConfiguration _).
  assert (HcoreA : core oA = (its, index, Some refs, None, lastSelectedIndex o, true,
                              UITabBarItem.tag <$> objects o2,
                              map (fun button => mkRecognizer (45 # 100)%Q false button)
                                  (seq 0 (length its)))).
  { unfold oA. rewrite applyColorConfiguration_core. unfold core; simpl.
    by rewrite Hitems, Hindex, Hlast, Hon2, Hon, Hlen. }
  unfold core in HcoreA. injection HcoreA as HiA HxA HtA HsA HlA HonA HtagA HrecA.
  assert (HtagOf : forall ref, tagOf ref oA = tagOf ref o2)
    by (intros ref; by rewrite !tagOf_tags, HtagA).
  assert (Hsound : forall id i, index !! id = Some i ->
            exists model, its !! i = Some model /\ TabsBarItem.id model = id).
  { intros id i Hi.
    destruct (uniqueKeysWithValues_sound _ _ _ Hidx _ _ Hi) as [Hin|Hin];
      [by rewrite lookup_empty in Hin|].
    unfold enumeratedIds in Hin. apply elem_of_lookup_imap in Hin as (j & model & Heq & Hj).
    injection Heq as -> ->. eauto. }
  assert (Hbase : forall last sel',
    match last with
    | Some i => (0 <= i < Z.of_nat (length its))%Z /\ sel' = refs !! Z.to_nat i
    | None => its = [] /\ sel' = None
    end ->
    consistent (set_view_isHidden (negb visible)
                  (set_lastSelectedIndex last (set_selectedItem sel' oA)))).
  { intros last sel' Hsel. split; simpl.
    - rewrite HiA, HxA. exact Hsound.
    - by rewrite HtA, HiA.
    - rewrite HtA. simpl. intros pos ref Hpos.
      change (tagOf ref _) with (tagOf ref oA). rewrite HtagOf.
      by destruct (Htags _ _ Hpos) as [-> _].
    - rewrite HtA, HiA. simpl. exact Hsel.
    - exact HonA.
    - by rewrite HiA. }
  assert (Hfirst : forall firstItem rest, refs = firstItem :: rest ->
    consistent (set_view_isHidden (negb visible)
                  (set_lastSelectedIndex (Some (tagOf firstItem oA))
                     (set_selectedItem (Some firstItem) oA)))).
  { intros firstItem rest ->. apply Hbase.
    rewrite HtagOf. destruct (Htags 0%nat firstItem eq_refl) as [-> _].
    simpl in *. split; [lia|done]. }
  assert (Hnone : refs = [] ->
    consistent (set_view_isHidden (negb visible) (set_lastSelectedIndex None oA))).
  { intros ->. destruct its; [|done].
    replace (set_lastSelectedIndex None oA)
      with (set_lastSelectedIndex None (set_selectedItem None oA)).
    - by apply Hbase.
    - unfold set_selectedItem, set_tabBar, set_lastSelectedIndex; simpl.
      f_equal. destruct (tabBar oA) eqn:Hb. simpl in *. by subst. }
  rewrite HtA.
  destruct (initialId ≫= _) as [idx|] eqn:Hinit.
  - destruct (idx <? length refs)%nat eqn:Hlt.
    + apply Nat.ltb_lt in Hlt. intros [= <-]. apply Hbase.
      rewrite Nat2Z.id. split; [lia|done].
    + destruct refs as [|firstItem rest]; intros [= <-]; [by apply Hnone|by eapply Hfirst].
  - destruct refs as [|firstItem rest]; intros [= <-]; [by apply Hnone|by eapply Hfirst].
Qed.

Theorem reachable_consistent P o : reachable P o -> consistent o.
Proof.
  induction 1 as [|o o' Hr IH Hstep].
  - by split.
  - destruct Hstep.
    + eapply update_consistent; [apply IH|eassumption].
    + by apply select_consistent.
    + eapply consistent_core; [symmetry; apply setBadge_core|done].
    + by apply userSelects_consistent.
    + by apply handleLongPress_consistent.
    + eapply consistent_core; [symmetry; apply runMainQueue_core|done].
    + eapply consistent_core; [symmetry; apply dataTaskFinished_core|done].
    + eapply consistent_core; [symmetry; apply retryFired_core|done].
Qed.

(** In a consistent overlay the bar highlights the selected tab. *)
Lemma highlighted_is_selected o : consistent o -> highlightedId o = selectedId o.
Proof.
  intros [_ Hlen Htags Hsel _ _]. unfold highlightedId, selectedId.
  destruct (lastSelectedIndex o) as [i|]; simpl.
  - destruct Hsel as [Hrange ->].
    destruct (default [] (tabItems (tabBar o)) !! Z.to_nat i) as [ref|] eqn:Href; simpl.
    + rewrite (Htags _ _ Href). by rewrite Nat2Z.id.
    + apply lookup_ge_None in Href. lia.
  - by destruct Hsel as [_ ->].
Qed.

End OverlayFacts.

(** * Programmatic selection *)

Section Select.
Import TabsBarOverlay Selection OverlayFacts.

Lemma select_interactions id o : interactions (select id o) = interactions o.
Proof.
  unfold select.
  destruct (idToIndex o !! id) as [idx|]; [|done].
  destruct (tabItems (tabBar o)) as [refs|]; [|done].
  destruct (idx <? length refs)%nat; [|done].
  by rewrite applyColorConfiguration_interactions.
Qed.

Lemma unknown_id_not_indexed o id :
  consistent o -> id ∉ currentIds o -> idToIndex o !! id = None.
Proof.
  intros Hc Hid. destruct (idToIndex o !! id) as [i|] eqn:Hi; [|done].
  destruct (index_sound _ Hc _ _ Hi) as (model & Hm & <-).
  exfalso. apply Hid. unfold currentIds.
  apply list_elem_of_fmap. exists model. split; [done|].
  by eapply list_elem_of_lookup_2.
Qed.

(** C7. [select(id)] with an id that names no tab of the current list
    changes nothing (selection, highlight, anything else); and no
    [select(id)], whatever the id, calls [onInteraction]. *)
Theorem select_unknown_id_is_noop P o id :
  reachable P o ->
  (id ∉ currentIds o -> select id o = o) /\
  interactions (select id o) = interactions o.
Proof.
  intros Hr. split; [|apply select_interactions].
  intros Hid. unfold select.
  by rewrite (unknown_id_not_indexed o id (reachable_consistent P o Hr) Hid).
Qed.

End Select.

Lemma Demo_configured_reachable : Selection.reachable Demo.platform Demo.configured.
Proof.
  eapply Selection.reachable_step; [apply Selection.reachable_created|].
  eapply (Selection.step_update Demo.platform Demo.threeTabsItems (Some "a") true None None
            (7 # 10)%Q).
  vm_compute. reflexivity.
Defined.

Lemma select_unknown_id_witness :
  TabsBarOverlay.select "missing-id" Demo.configured = Demo.configured /\
  TabsBarOverlay.interactions (TabsBarOverlay.select "missing-id" Demo.configured)
  = TabsBarOverlay.interactions Demo.configured.
Proof.
  destruct (select_unknown_id_is_noop Demo.platform Demo.configured "missing-id"
              Demo_configured_reachable) as [Hnoop Hquiet].
  split; [|exact Hquiet].
  apply Hnoop. apply (bool_decide_unpack _). vm_compute. exact I.
Defined.

(** * Long press *)

Section LongPress.
Import TabsBarOverlay Selection OverlayFacts.

Local Opaque applyColorConfiguration.

Lemma restorePreviousSelection_fields o :
  consistent o ->
  items (restorePreviousSelection o) = items o /\
  lastSelectedIndex (restorePreviousSelection o) = lastSelectedIndex o /\
  onInteraction (restorePreviousSelection o) = onInteraction o /\
  suppressNextSelectionEvent (restorePreviousSelection o) = suppressNextSelectionEvent o /\
  interactions (restorePreviousSelection o) = interactions o.
Proof.
  intros Hc.
  pose proof (restorePreviousSelection_core o Hc) as Hcore.
  pose proof (restorePreviousSelection_frame o) as Hframe.
  unfold core in Hcore. unfold frame in Hframe.
  injection Hcore as -> _ _ _ -> -> _ _. injection Hframe as -> -> _ _ _ _ _. done.
Qed.

Lemma find_recognizer n : forall start pos,
  (start <= pos < start + n)%nat ->
  List.find (fun r => Nat.eqb (onButton r) pos)
            (map (fun button => mkRecognizer (45 # 100)%Q false button) (seq start n))
  = Some (mkRecognizer (45 # 100)%Q false pos).
Proof.
  induction n as [|n IH]; intros start pos Hpos; [lia|]. simpl.
  destruct (Nat.eqb_spec start pos) as [->|Hne]; [done|].
  apply IH. lia.
Qed.

Lemma threshold_elapsed ms : (450 <= ms)%Z -> Qle_bool (45 # 100) (ms # 1000) = true.
Proof. intros H. apply Qle_bool_iff. unfold Qle; simpl. lia. Qed.

(** The recognizer of the button at [pos] begins: flag, highlight, event. *)
Lemma handleLongPress_began o pos model g :
  consistent o ->
  items o !! pos = Some model ->
  gestureState g = began ->
  viewButton g = Some pos ->
  let o' := handleLongPress g o in
  consistent o' /\
  suppressNextSelectionEvent o' = true /\
  interactions o' = (interactions o ++ [(TabsBarItem.id model, longPress)])%list /\
  items o' = items o /\
  lastSelectedIndex o' = lastSelectedIndex o.
Proof.
  intros Hc Hmodel Hstate Hview o'.
  split; [by apply handleLongPress_consistent|].
  pose proof (lookup_lt_Some _ _ _ Hmodel) as Hlt.
  pose proof (bar_length _ Hc) as Hlen.
  subst o'. unfold handleLongPress. rewrite Hstate.
  unfold indexForGesture. rewrite Hview, Hlen.
  replace (Z.min (Z.of_nat pos) (Z.of_nat (length (items o)) - 1)) with (Z.of_nat pos) by lia.
  replace ((0 <=? Z.of_nat pos)%Z && (Z.of_nat pos <? Z.of_nat (length (items o)))%Z)
    with true by (symmetry; apply andb_true_iff; split; [apply Z.leb_le|apply Z.ltb_lt]; lia).
  set (o1 := set_suppressNextSelectionEvent true o).
  assert (Hc1 : consistent o1) by (destruct Hc; by split).
  destruct (restorePreviousSelection_fields o1 Hc1) as (Hi & Hl & Hon & Hs & Hint).
  rewrite Hi, Nat2Z.id. simpl. rewrite Hmodel.
  unfold callOnInteraction. rewrite Hon. simpl. rewrite (listener_set _ Hc).
  simpl. by rewrite Hs, Hint, Hi, Hl.
Qed.

(** While the flag is set, the bar's own selection signal is swallowed. *)
Lemma userSelects_suppressed o pos :
  consistent o ->
  (pos < length (items o))%nat ->
  suppressNextSelectionEvent o = true ->
  let o' := userSelects pos o in
  suppressNextSelectionEvent o' = false /\
  interactions o' = interactions o /\
  items o' = items o /\
  lastSelectedIndex o' = lastSelectedIndex o.
Proof.
  intros Hc Hpos Hsup o'. subst o'. unfold userSelects.
  pose proof (bar_length _ Hc) as Hlen.
  destruct (default [] (tabItems (tabBar o)) !! pos) as [ref|] eqn:Href.
  2:{ apply lookup_ge_None in Href. lia. }
  assert (Hlook : tabItems (tabBar o) ≫= (fun l => l !! pos) = Some ref)
    by (destruct (tabItems (tabBar o)); [done|discriminate]).
  rewrite Hlook.
  change (tagOf ref (set_selectedItem (Some ref) o)) with (tagOf ref o).
  rewrite (bar_tags _ Hc pos ref Href).
  unfold tabBar_didSelect. simpl.
  replace ((0 <=? Z.of_nat pos)%Z && (Z.of_nat pos <? Z.of_nat (length (items o)))%Z)
    with true by (symmetry; apply andb_true_iff; split; [apply Z.leb_le|apply Z.ltb_lt]; lia).
  rewrite Hsup.
  set (o1 := set_suppressNextSelectionEvent false (set_selectedItem (Some ref) o)).
  pose proof (restorePreviousSelection_frame o1) as Hframe.
  unfold frame in Hframe. injection Hframe as -> -> _ _ _ _ _.
  destruct (restorePreviousSelection_selection o1) as [-> ->].
  by repeat split.
Qed.

End LongPress.

Section LongPressClaim.
Import TabsBarOverlay Selection OverlayFacts.

Lemma selectedId_eq o o' :
  items o' = items o -> lastSelectedIndex o' = lastSelectedIndex o ->
  selectedId o' = selectedId o.
Proof. unfold selectedId. by intros -> ->. Qed.

(** C4. A press on a tab held for at least 450 ms: the one-shot flag is
    set, the bar highlights the selected tab, [onInteraction] is called
    with the pressed tab and [longPress], and the selection is what it was
    before the gesture.  The flag is one-shot: the selection signal the
    bar sends next is swallowed, clears the flag, and again leaves the
    selection and the highlight where they were. *)
Theorem longPress_keeps_selection P o pos ms g :
  reachable P o ->
  (pos < length (items o))%nat ->
  (450 <= ms)%Z ->
  let o' := userHolds pos (ms # 1000)%Q g o in
  suppressNextSelectionEvent o' = true /\
  highlightedId o' = selectedId o /\
  (exists model,
      items o !! pos = Some model /\
      interactions o' = (interactions o ++ [(TabsBarItem.id model, longPress)])%list) /\
  selectedId o' = selectedId o /\
  lastSelectedIndex o' = lastSelectedIndex o /\
  (forall pos', (pos' < length (items o))%nat ->
     let o'' := userSelects pos' o' in
     suppressNextSelectionEvent o'' = false /\
     interactions o'' = interactions o' /\
     selectedId o'' = selectedId o /\
     highlightedId o'' = selectedId o).
Proof.
  intros Hr Hpos Hms o'.
  pose proof (reachable_consistent P o Hr) as Hc.
  destruct (lookup_lt_is_Some_2 (items o) pos Hpos) as [model Hmodel].
  assert (Ho' : o' = handleLongPress
                       (mkGesture began (Some pos) (buttonAtLocation g)
                                  (locationX g) (boundsWidth g)) o).
  { subst o'. unfold userHolds.
    rewrite (recognizers_attached _ Hc), (find_recognizer _ 0 pos) by lia.
    simpl. by rewrite threshold_elapsed. }
  destruct (handleLongPress_began o pos model
              (mkGesture began (Some pos) (buttonAtLocation g) (locationX g) (boundsWidth g))
              Hc Hmodel eq_refl eq_refl) as (Hc' & Hsup & Hint & Hitems & Hlast).
  rewrite <- Ho' in Hc', Hsup, Hint, Hitems, Hlast.
  assert (Hsel : selectedId o' = selectedId o) by (by apply selectedId_eq).
  repeat split; try done.
  - by rewrite (highlighted_is_selected o' Hc').
  - by exists model.
  - by apply userSelects_suppressed; [|rewrite Hitems|].
  - by apply userSelects_suppressed; [|rewrite Hitems|].
  - rewrite <- Hsel. apply selectedId_eq; by apply userSelects_suppressed; [|rewrite Hitems|].
  - rewrite (highlighted_is_selected _ (userSelects_consistent o' pos' Hc')).
    rewrite <- Hsel. apply selectedId_eq; by apply userSelects_suppressed; [|rewrite Hitems|].
Qed.

End LongPressClaim.

Lemma longPress_keeps_selection_witness :
  let o' := TabsBarOverlay.userHolds 2 (500 # 1000)%Q Demo.gesture Demo.configured in
  TabsBarOverlay.suppressNextSelectionEvent o' = true /\
  Selection.highlightedId o' = Some "a" /\
  TabsBarOverlay.interactions o' = [("c", longPress)] /\
  Selection.selectedId o' = Some "a".
Proof.
  destruct (longPress_keeps_selection Demo.platform Demo.configured 2 500 Demo.gesture
              Demo_configured_reachable) as (Hsup & Hhigh & (model & Hmodel & Hint) & Hsel & _).
  - vm_compute. lia.
  - lia.
  - injection Hmodel as <-. repeat split; assumption.
Defined.

(** * [configure]: validation and traps *)

Section Configure.
Import TabsBarPlugin.

Lemma configure_rejects_empty_items P call p :
  JS.getArray_JSObject "items" call = Some [] ->
  configure P call p = Rejected "Items array cannot be empty".
Proof. intros H. unfold configure. by rewrite H. Qed.

Lemma configure_rejects_empty_id P call p itemsArr jsItems :
  JS.getArray_JSObject "items" call = Some itemsArr ->
  JSItem.decodeAll itemsArr = Some jsItems ->
  (exists item, item ∈ jsItems /\ JSItem.id item = "") ->
  configure P call p = Rejected "Each item must have a non-empty 'id'".
Proof.
  intros Harr Hdec (item & Hin & Hid). unfold configure. rewrite Harr, Hdec.
  rewrite bool_decide_eq_false_2 by (intros ->; by apply elem_of_nil in Hin).
  assert (Hex : existsb (fun item => Str.isEmpty (JSItem.id item)) jsItems = true).
  { apply existsb_exists. exists item. split; [by apply list_elem_of_In|].
    unfold Str.isEmpty, Str.eqb. by apply bool_decide_eq_true_2. }
  by rewrite Hex.
Qed.

(** A rejected call leaves no trace: [Rejected] carries no plugin state,
    the plugin is the one before the call. *)

Lemma Exec_map_Done {A B} (f : A -> Exec B) l l' :
  Exec_map f l = Done l' -> Forall2 (fun a b => f a = Done b) l l'.
Proof.
  revert l'. induction l as [|a l IH]; intros l' H; simpl in H.
  - injection H as <-. constructor.
  - destruct (f a) as [b|] eqn:Hfa; [|done]. simpl in H.
    destruct (Exec_map f l) as [bs|] eqn:Hl; [|done]. simpl in H.
    injection H as <-. constructor; [done|by apply IH].
Qed.

Lemma Exec_map_Trap {A B} (f : A -> Exec B) l a :
  a ∈ l -> f a = Trap -> Exec_map f l = Trap.
Proof.
  intros Hin Hfa. induction l as [|x l IH]; [by apply elem_of_nil in Hin|].
  simpl. apply elem_of_cons in Hin as [<-|Hin].
  - by rewrite Hfa.
  - rewrite (IH Hin). by destruct (f x).
Qed.

Lemma decodeAll_lookup itemsArr : forall jsItems,
  JSItem.decodeAll itemsArr = Some jsItems ->
  Forall2 (fun o js => JSItem.decode o = Some js) itemsArr jsItems.
Proof.
  induction itemsArr as [|o l IH]; intros jsItems H; simpl in H.
  - injection H as <-. constructor.
  - destruct (JSItem.decode o) as [js|] eqn:Ho; [|done].
    destruct (JSItem.decodeAll l) as [r|] eqn:Hl; [|done].
    injection H as <-. constructor; [done|by apply IH].
Qed.

Lemma decode_systemIcon_absent o js :
  JS.get "systemIcon" o = None ->
  JSItem.decode o = Some js ->
  JSItem.systemIcon js = None.
Proof.
  intros Habs. unfold JSItem.decode.
  assert (Hsys : JS.decodeIfPresent JS.asString "systemIcon" o = Some None)
    by (unfold JS.decodeIfPresent; by rewrite Habs).
  rewrite Hsys.
  destruct (JS.decode _ _ _); simpl; [|done].
  destruct (JS.decodeIfPresent JS.asString "title" o); simpl; [|done].
  destruct (JS.decodeIfPresent JS.asString "image" o); simpl; [|done].
  destruct (JS.decodeIfPresent JSImageIcon.decode "imageIcon" o); simpl; [|done].
  destruct (JS.decodeIfPresent JSBadge.decode "badge" o); simpl; [|done].
  by intros [= <-].
Qed.

(** The decoding does not ask for [systemIcon]: an item that decodes with
    the field decodes without it, to the same item less its icon. *)
Lemma decode_accepts_missing_systemIcon o icon js :
  JSItem.decode (("systemIcon", JS.JSString icon) :: o) = Some js ->
  JS.get "systemIcon" o = None ->
  JSItem.decode o
  = Some (JSItem.mk (JSItem.id js) (JSItem.title js) None (JSItem.image js)
                    (JSItem.imageIcon js) (JSItem.badge js)).
Proof.
  intros Hdec Habs. unfold JSItem.decode in *.
  assert (Hsys : JS.decodeIfPresent JS.asString "systemIcon" o = Some None)
    by (unfold JS.decodeIfPresent; by rewrite Habs).
  rewrite Hsys.
  change (JS.decode JS.asString "id" (_ :: o)) with (JS.decode JS.asString "id" o) in Hdec.
  change (JS.decodeIfPresent JS.asString "title" (_ :: o))
    with (JS.decodeIfPresent JS.asString "title" o) in Hdec.
  change (JS.decodeIfPresent JS.asString "systemIcon" (_ :: o))
    with (Some (Some icon)) in Hdec.
  change (JS.decodeIfPresent JS.asString "image" (_ :: o))
    with (JS.decodeIfPresent JS.asString "image" o) in Hdec.
  change (JS.decodeIfPresent JSImageIcon.decode "imageIcon" (_ :: o))
    with (JS.decodeIfPresent JSImageIcon.decode "imageIcon" o) in Hdec.
  change (JS.decodeIfPresent JSBadge.decode "badge" (_ :: o))
    with (JS.decodeIfPresent JSBadge.decode "badge" o) in Hdec.
  destruct (JS.decode JS.asString "id" o); simpl in *; [|done].
  destruct (JS.decodeIfPresent JS.asString "title" o); simpl in *; [|done].
  destruct (JS.decodeIfPresent JS.asString "image" o); simpl in *; [|done].
  destruct (JS.decodeIfPresent JSImageIcon.decode "imageIcon" o); simpl in *; [|done].
  destruct (JS.decodeIfPresent JSBadge.decode "badge" o); simpl in *; [|done].
  by injection Hdec as <-.
Qed.

(** C10. An item without [systemIcon] is accepted by the decoding and by
    the id checks, and the construction of the items force-unwraps it: a
    [configure] call that carries such an item (and passes the checks)
    ends in a runtime trap, not in an error result. *)
Theorem configure_missing_systemIcon_traps P call p itemsArr jsItems :
  JS.getArray_JSObject "items" call = Some itemsArr ->
  JSItem.decodeAll itemsArr = Some jsItems ->
  (forall item, item ∈ jsItems -> JSItem.id item <> "") ->
  (exists o, o ∈ itemsArr /\ JS.get "systemIcon" o = None) ->
  configure P call p = Trapped.
Proof.
  intros Harr Hdec Hids (o & Hin & Habs).
  pose proof (decodeAll_lookup _ _ Hdec) as Hall.
  apply list_elem_of_lookup in Hin as [i Hi].
  destruct (Forall2_lookup_l _ _ _ _ _ Hall Hi) as (js & Hjs & Hdeco).
  pose proof (decode_systemIcon_absent o js Habs Hdeco) as Hnone.
  unfold configure. rewrite Harr, Hdec.
  rewrite bool_decide_eq_false_2
    by (intros ->; by rewrite lookup_nil in Hjs).
  assert (Hex : existsb (fun item => Str.isEmpty (JSItem.id item)) jsItems = false).
  { apply not_true_is_false. intros Hex. apply existsb_exists in Hex as (item & Hitem & He).
    apply (Hids item); [by apply list_elem_of_In|].
    unfold Str.isEmpty, Str.eqb in He. by apply bool_decide_eq_true_1 in He. }
  rewrite Hex.
  rewrite (Exec_map_Trap convertItem jsItems js); [done|by eapply list_elem_of_lookup_2|].
  unfold convertItem. by rewrite Hnone.
Qed.

End Configure.

Lemma configure_missing_systemIcon_witness :
  TabsBarPlugin.configure Demo.platform Demo.missingSystemIcon Demo.freshPlugin
  = TabsBarPlugin.Trapped.
Proof.
  eapply (configure_missing_systemIcon_traps Demo.platform Demo.missingSystemIcon
            Demo.freshPlugin).
  - vm_compute. reflexivity.
  - vm_compute. reflexivity.
  - intros item Hin. repeat (apply elem_of_cons in Hin as [->|Hin]; [discriminate|]).
    by apply elem_of_nil in Hin.
  - exists [("id", JS.JSString "b")]. split; [|reflexivity].
    apply list_elem_of_In. right. left. reflexivity.
Defined.

(** C1 (the code departs from the claim). Two items with the same id pass
    the checks of [configure], the call is resolved, and [update] traps while
    it builds [idToIndex]. *)
Theorem configure_duplicate_ids_trap :
  TabsBarPlugin.configure Demo.platform Demo.duplicateIds Demo.freshPlugin
  = TabsBarPlugin.Resolved Trap.
Proof. vm_compute. reflexivity. Qed.

(** * The fallback chain *)

Section Fallback.
Import TabsBarOverlay.

(** What the code does when the icon of a tab could not be resolved: the
    SF Symbol if the name has one, else the empty image. *)
Lemma iconBlock_failure P c o b :
  objects o !! forItem c = Some b ->
  UITabBarItem.image <$> objects (iconBlock P c None o) !! forItem c
  = Some (Some (default ImageEmpty
                  (UIImage_systemName P (TabsBarItem.systemIcon (forModel c))))).
Proof.
  intros Hb. unfold iconBlock. simpl. rewrite lookup_alter_eq, Hb. done.
Qed.

(** A source that is neither a data URI nor an http(s) URL fails at once. *)
Lemma processImageIcon_invalid_source {K} P (imageIcon : ImageIcon.t) (k : K) l :
  ImageUtils.isValidBase64DataUri (ImageIcon.image imageIcon) = false ->
  ImageUtils.isValidHttpUrl P (ImageIcon.image imageIcon) = false ->
  ImageUtils.processImageIcon P imageIcon k l = (l, [(k, None)]).
Proof. intros H1 H2. unfold ImageUtils.processImageIcon. by rewrite H1, H2. Qed.

(** Each failure of the remote stage ends in [nil]: no data, a status other
    than 200 or an error, a declared type outside the list, more than 5 MiB,
    bytes that do not decode. *)
Lemma acceptResponse_failures P r :
  (ImageUtils.resultData r = None \/
   ImageUtils.statusCode r <> Some 200%Z \/
   ImageUtils.hasError r = true \/
   (exists contentType, ImageUtils.mimeType r = Some contentType /\
      Str.contains ImageUtils.validTypes (Str.lowercased contentType) = false) \/
   (exists data, ImageUtils.resultData r = Some data /\
      (Z.of_nat (length data) > ImageUtils.maxFileSize)%Z) \/
   (exists data, ImageUtils.resultData r = Some data /\ decodeImage P data = None)) ->
  ImageUtils.acceptResponse P r = None.
Proof.
  unfold ImageUtils.acceptResponse.
  intros [H|[H|[H|[(ct & Hm & Hbad)|[(data & Hd & Hbig)|(data & Hd & Hund)]]]]].
  - by rewrite H.
  - destruct (ImageUtils.resultData r); [|done].
    destruct (ImageUtils.statusCode r) as [status|]; [|done].
    destruct (Z.eqb_spec status 200) as [->|Hne]; [by destruct H|]. reflexivity.
  - rewrite H. destruct (ImageUtils.resultData r); [|done].
    destruct (ImageUtils.statusCode r); [|done]. by rewrite orb_true_r.
  - rewrite Hm, Hbad. destruct (ImageUtils.resultData r); [|done].
    destruct (ImageUtils.statusCode r); [|done]. by destruct (_ || _).
  - rewrite Hd. destruct (ImageUtils.statusCode r); [|done].
    assert (Hgt : (Z.of_nat (length data) >? ImageUtils.maxFileSize)%Z = true)
      by (rewrite Z.gtb_ltb; apply Z.ltb_lt; lia).
    rewrite Hgt. destruct (_ || _); [done|].
    destruct (ImageUtils.mimeType r); [by destruct (negb _)|done].
  - rewrite Hd. destruct (ImageUtils.statusCode r); [|done].
    unfold UIImage_ofData. rewrite Hund. destruct (_ || _); [done|].
    destruct (_ >? _)%Z; (destruct (ImageUtils.mimeType r); [by destruct (negb _)|done]).
Qed.

End Fallback.

(** C2 (the code departs from the claim). The icon source of the tab is
    invalid and its [systemIcon] names no symbol: the tab ends with the empty
    image although its bundled image exists; the chain of the specification
    would show the bundled image.  The call itself is resolved. *)
Theorem fallback_skips_bundled_image :
  let call := TabsBarPlugin.configure Demo.platform Demo.brokenIcon Demo.freshPlugin in
  let o := TabsBarOverlay.runMainQueue Demo.platform (Demo.overlayAfter call) in
  (exists p, call = TabsBarPlugin.Resolved (Done p)) /\
  TabsBarOverlay.items o = [Demo.brokenIconModel] /\
  TabsBarOverlay.shownImage 0 o = Some ImageEmpty /\
  SpecFallback.chain Demo.platform None Demo.brokenIconModel
  = ImageOfAsset "bundled-asset" (mkSize 30 30).
Proof.
  repeat split.
  - eexists. vm_compute. reflexivity.
Qed.

Section Duplicates.
Import TabsBarPlugin.

Lemma convertItem_Done js :
  JSItem.systemIcon js <> None ->
  exists item, convertItem js = Done item /\ TabsBarItem.id item = JSItem.id js.
Proof.
  intros H. unfold convertItem. destruct (JSItem.systemIcon js); [|done].
  simpl. by eexists.
Qed.

Lemma convertItems_Done jsItems :
  (forall js, js ∈ jsItems -> JSItem.systemIcon js <> None) ->
  exists items, Exec_map convertItem jsItems = Done items /\
                map TabsBarItem.id items = map JSItem.id jsItems.
Proof.
  induction jsItems as [|js l IH]; intros H; simpl.
  - by exists [].
  - destruct (convertItem_Done js) as (item & -> & Hid); [apply H; constructor|].
    destruct IH as (items & -> & Hids); [intros; apply H; by constructor|].
    simpl. exists (item :: items). by rewrite <- Hid, <- Hids.
Qed.

Lemma update_duplicate_ids_trap P its initialId visible sel unsel opacity o :
  ~ NoDup (map TabsBarItem.id its) ->
  TabsBarOverlay.update P its initialId visible sel unsel opacity o = Trap.
Proof.
  intros Hdup. unfold TabsBarOverlay.update.
  rewrite OverlayFacts.uniqueKeysWithValues_Trap; [done|].
  by rewrite OverlayFacts.enumeratedIds_fst.
Qed.

(** Every call that passes the checks and repeats an id is resolved and
    then traps in [update]. *)
Lemma configure_repeated_id_traps P call p itemsArr jsItems :
  JS.getArray_JSObject "items" call = Some itemsArr ->
  JSItem.decodeAll itemsArr = Some jsItems ->
  (forall js, js ∈ jsItems -> JSItem.id js <> "" /\ JSItem.systemIcon js <> None) ->
  ~ NoDup (map JSItem.id jsItems) ->
  hostVC p = true \/ is_Some (overlayVC p) ->
  configure P call p = Resolved Trap.
Proof.
  intros Harr Hdec Hok Hdup Hhost. unfold configure. rewrite Harr, Hdec.
  rewrite bool_decide_eq_false_2 by (intros ->; apply Hdup; constructor).
  assert (Hex : existsb (fun item => Str.isEmpty (JSItem.id item)) jsItems = false).
  { apply not_true_is_false. intros Hex. apply existsb_exists in Hex as (item & Hitem & He).
    apply list_elem_of_In in Hitem. destruct (Hok item Hitem) as [Hid _]. apply Hid.
    unfold Str.isEmpty, Str.eqb in He. by apply bool_decide_eq_true_1 in He. }
  rewrite Hex.
  destruct (convertItems_Done jsItems) as (items & -> & Hids);
    [intros js Hjs; by destruct (Hok js Hjs)|].
  f_equal. unfold ensureOverlay.
  destruct (overlayVC p) as [overlay|] eqn:Hov; simpl.
  - rewrite Hov. rewrite update_duplicate_ids_trap; [done|by rewrite Hids].
  - destruct Hhost as [->|[? [=]]]. simpl.
    rewrite update_duplicate_ids_trap; [done|by rewrite Hids].
Qed.

End Duplicates.

(** * The transformer: scaling and determinism *)

Module GfxFacts.
Import Gfx ImageUtils.


Lemma selfContained_ret {A} (a : A) : selfContained (ret a).
Proof. by exists a. Qed.

Lemma selfContained_bind {A B} (m : M A) (k : A -> M B) :
  selfContained m -> (forall a, selfContained (k a)) -> selfContained (bind m k).
Proof.
  intros [a Ha] Hk. destruct (Hk a) as [b Hb]. exists b. intros stk.
  unfold bind. by rewrite Ha, Hb.
Qed.

Lemma resizeImageAspectFill_run P image target stk :
  resizeImageAspectFill P image target stk
  = (ImageOfContext target (screenScale P)
       [DrawImage image
          (centeredRect target
             (mkSize (width (UIImage_size image) * aspectFillRatio (UIImage_size image) target)
                     (height (UIImage_size image) * aspectFillRatio (UIImage_size image) target)))],
     stk).
Proof. reflexivity. Qed.

Lemma resizeImageToFill_run P image target stk :
  resizeImageToFill P image target stk
  = (ImageOfContext target (screenScale P) [DrawImage image (CGRect_zero_origin target)], stk).
Proof. reflexivity. Qed.

Lemma resizeImageAspectFit_run P image target stk :
  resizeImageAspectFit P image target stk
  = (ImageOfContext target (screenScale P)
       [DrawImage image
          (centeredRect target
             (mkSize (width (UIImage_size image) * aspectFitRatio (UIImage_size image) target)
                     (height (UIImage_size image) * aspectFitRatio (UIImage_size image) target)))],
     stk).
Proof. reflexivity. Qed.

Lemma plugin_resizeImageAspectFit_run P image target stk :
  plugin_resizeImageAspectFit P image target stk
  = (ImageOfContext target (screenScale P)
       [DrawImage image
          (centeredRect target
             (mkSize (width (UIImage_size image)
                      * plugin_aspectFitRatio (UIImage_size image) target)
                     (height (UIImage_size image)
                      * plugin_aspectFitRatio (UIImage_size image) target)))],
     stk).
Proof. reflexivity. Qed.

Lemma makeCircularImage_run P image stk :
  makeCircularImage P image stk
  = (ImageOfContext (UIImage_size image) (screenScale P)
       [Clip [PathEllipse (CGRect_zero_origin (UIImage_size image))];
        DrawImage image (CGRect_zero_origin (UIImage_size image))],
     stk).
Proof. reflexivity. Qed.

Lemma addEnhancedRingToImage_selfContained P image ringWidth ringColor :
  selfContained (addEnhancedRingToImage P image ringWidth ringColor).
Proof.
  unfold addEnhancedRingToImage, selfContained.
  destruct (Qeq_bool (width (UIImage_size image)) (height (UIImage_size image))) eqn:Hsq.
  - eexists. intros stk. reflexivity.
  - eexists. intros stk. reflexivity.
Qed.

Lemma applyImageIconStyling_selfContained P image shape size :
  selfContained (applyImageIconStyling P image shape size).
Proof.
  unfold applyImageIconStyling. destruct image as [image|]; [|apply selfContained_ret].
  apply selfContained_bind.
  - destruct (Str.eqb (Str.lowercased size) "cover");
      [eexists; intros stk; apply resizeImageAspectFill_run|].
    destruct (Str.eqb (Str.lowercased size) "stretch");
      [eexists; intros stk; apply resizeImageToFill_run|].
    destruct (Str.eqb (Str.lowercased size) "fit");
      eexists; intros stk; apply resizeImageAspectFit_run.
  - intros resized.
    destruct (Str.eqb (Str.lowercased shape) "circle");
      [|destruct (Str.eqb (Str.lowercased shape) "square"); apply selfContained_ret].
    apply selfContained_bind; [eexists; intros stk; apply makeCircularImage_run|].
    intros c. apply selfContained_ret.
Qed.

Lemma plugin_applyImageIconStyling_selfContained P image shape size :
  selfContained (plugin_applyImageIconStyling P image shape size).
Proof.
  unfold plugin_applyImageIconStyling.
  destruct image as [image|]; [|apply selfContained_ret].
  apply selfContained_bind.
  - destruct (Str.eqb (Str.lowercased size) "cover");
      [eexists; intros stk; apply resizeImageAspectFill_run|].
    destruct (Str.eqb (Str.lowercased size) "stretch");
      [eexists; intros stk; apply resizeImageToFill_run|].
    destruct (Str.eqb (Str.lowercased size) "fit");
      eexists; intros stk; apply plugin_resizeImageAspectFit_run.
  - intros resized.
    destruct (Str.eqb (Str.lowercased shape) "circle");
      [|destruct (Str.eqb (Str.lowercased shape) "square"); apply selfContained_ret].
    apply selfContained_bind; [eexists; intros stk; apply makeCircularImage_run|].
    intros c. apply selfContained_ret.
Qed.

Lemma selfContained_run {A} (m : M A) stk1 stk2 :
  selfContained m -> run m stk1 = run m stk2 /\ snd (m stk1) = stk1.
Proof. intros [a Ha]. unfold run. by rewrite !Ha. Qed.

End GfxFacts.

(** C8. Rendering is deterministic: the styled image and the image with its
    ring are functions of the arguments alone; whatever bitmap contexts are
    open when the call is made, the result is the same and the contexts are
    left as they were. *)
Theorem render_deterministic P image shape size ringWidth ringColor stk1 stk2 :
  (Gfx.run (ImageUtils.applyImageIconStyling P image shape size) stk1
   = Gfx.run (ImageUtils.applyImageIconStyling P image shape size) stk2 /\
   snd (ImageUtils.applyImageIconStyling P image shape size stk1) = stk1) /\
  (Gfx.run (ImageUtils.plugin_applyImageIconStyling P image shape size) stk1
   = Gfx.run (ImageUtils.plugin_applyImageIconStyling P image shape size) stk2 /\
   snd (ImageUtils.plugin_applyImageIconStyling P image shape size stk1) = stk1) /\
  (forall styled,
     Gfx.run (ImageUtils.addEnhancedRingToImage P styled ringWidth ringColor) stk1
     = Gfx.run (ImageUtils.addEnhancedRingToImage P styled ringWidth ringColor) stk2 /\
     snd (ImageUtils.addEnhancedRingToImage P styled ringWidth ringColor stk1) = stk1).
Proof.
  repeat split.
  - by apply GfxFacts.selfContained_run, GfxFacts.applyImageIconStyling_selfContained.
  - by apply GfxFacts.selfContained_run, GfxFacts.applyImageIconStyling_selfContained.
  - by apply GfxFacts.selfContained_run, GfxFacts.plugin_applyImageIconStyling_selfContained.
  - by apply GfxFacts.selfContained_run, GfxFacts.plugin_applyImageIconStyling_selfContained.
  - by apply GfxFacts.selfContained_run, GfxFacts.addEnhancedRingToImage_selfContained.
  - by apply GfxFacts.selfContained_run, GfxFacts.addEnhancedRingToImage_selfContained.
Qed.

Module ScalingFacts.
Import ImageUtils.
Local Open Scope Q_scope.

Lemma CGFloat_min_Qmin x y : CGFloat_min x y == Qmin x y.
Proof.
  unfold CGFloat_min. destruct (Qle_bool x y) eqn:H.
  - apply Qle_bool_iff in H. symmetry. by apply Q.min_l.
  - assert (y <= x).
    { destruct (Qlt_le_dec y x) as [Hlt|Hle]; [by apply Qlt_le_weak|].
      apply Qle_bool_iff in Hle. congruence. }
    symmetry. by apply Q.min_r.
Qed.

Lemma CGFloat_max_Qmax x y : CGFloat_max x y == Qmax x y.
Proof.
  unfold CGFloat_max. destruct (Qle_bool x y) eqn:H.
  - apply Qle_bool_iff in H. symmetry. by apply Q.max_r.
  - assert (y <= x).
    { destruct (Qlt_le_dec y x) as [Hlt|Hle]; [by apply Qlt_le_weak|].
      apply Qle_bool_iff in Hle. congruence. }
    symmetry. by apply Q.max_l.
Qed.

(** [centeredRect] puts the middle of the rectangle on the middle of the
    target. *)
Lemma centeredRect_centered target newSize :
  originX (centeredRect target newSize) + rectW (centeredRect target newSize) / 2
  == width target / 2 /\
  originY (centeredRect target newSize) + rectH (centeredRect target newSize) / 2
  == height target / 2.
Proof. unfold centeredRect; simpl. split; field. Qed.

Lemma scale_le_of_ratio_le s r a : 0 < s -> r <= a / s -> s * r <= a.
Proof.
  intros Hs Hr.
  assert (Hne : ~ s == 0) by (intros E; rewrite E in Hs; by apply Qlt_irrefl in Hs).
  apply Qle_trans with (s * (a / s)).
  - by apply Qmult_le_l.
  - apply Qle_lteq. right. by field.
Qed.

Lemma scale_ge_of_ratio_ge s r a : 0 < s -> a / s <= r -> a <= s * r.
Proof.
  intros Hs Hr.
  assert (Hne : ~ s == 0) by (intros E; rewrite E in Hs; by apply Qlt_irrefl in Hs).
  apply Qle_trans with (s * (a / s)).
  - apply Qle_lteq. right. by field.
  - by apply Qmult_le_l.
Qed.

End ScalingFacts.

Section Scaling.
Import ImageUtils ScalingFacts.
Local Open Scope Q_scope.

(** C9. [fit] scales by min(availW/srcW, availH/srcH), where avail is the
    target less a padding of 4 on every side, and centres the scaled image
    in the target; [cover] scales by max(targetW/srcW, targetH/srcH),
    centres, and the target-sized canvas crops what sticks out.  The copy
    of [fit] in the plugin file is the same with no padding. *)
Theorem fit_and_cover_scaling P image target stk :
  0 < width (UIImage_size image) ->
  0 < height (UIImage_size image) ->
  let srcW := width (UIImage_size image) in
  let srcH := height (UIImage_size image) in
  (exists ratio rect,
      Gfx.run (resizeImageAspectFit P image target) stk
      = ImageOfContext target (screenScale P) [DrawImage image rect] /\
      ratio == Qmin ((width target - 2 * 4) / srcW) ((height target - 2 * 4) / srcH) /\
      rectW rect == srcW * ratio /\ rectH rect == srcH * ratio /\
      originX rect + rectW rect / 2 == width target / 2 /\
      originY rect + rectH rect / 2 == height target / 2 /\
      rectW rect <= width target - 2 * 4 /\ rectH rect <= height target - 2 * 4) /\
  (exists ratio rect,
      Gfx.run (resizeImageAspectFill P image target) stk
      = ImageOfContext target (screenScale P) [DrawImage image rect] /\
      ratio == Qmax (width target / srcW) (height target / srcH) /\
      rectW rect == srcW * ratio /\ rectH rect == srcH * ratio /\
      originX rect + rectW rect / 2 == width target / 2 /\
      originY rect + rectH rect / 2 == height target / 2 /\
      width target <= rectW rect /\ height target <= rectH rect) /\
  (exists ratio rect,
      Gfx.run (plugin_resizeImageAspectFit P image target) stk
      = ImageOfContext target (screenScale P) [DrawImage image rect] /\
      ratio == Qmin (width target / srcW) (height target / srcH) /\
      rectW rect == srcW * ratio /\ rectH rect == srcH * ratio /\
      originX rect + rectW rect / 2 == width target / 2 /\
      originY rect + rectH rect / 2 == height target / 2).
Proof.
  intros HW HH srcW srcH. repeat split.
  - exists (aspectFitRatio (UIImage_size image) target). eexists.
    split; [reflexivity|].
    assert (Hr : aspectFitRatio (UIImage_size image) target
                 == Qmin ((width target - 2 * 4) / srcW) ((height target - 2 * 4) / srcH)).
    { unfold aspectFitRatio, padding; simpl. rewrite CGFloat_min_Qmin.
      apply Q.min_compat; (apply Qmult_comp; [ring|reflexivity]). }
    split; [exact Hr|]. simpl.
    split; [reflexivity|]. split; [reflexivity|].
    split; [field|]. split; [field|].
    split; (apply scale_le_of_ratio_le; [done|]); rewrite Hr.
    + apply Q.le_min_l.
    + apply Q.le_min_r.
  - exists (aspectFillRatio (UIImage_size image) target). eexists.
    split; [reflexivity|].
    assert (Hr : aspectFillRatio (UIImage_size image) target
                 == Qmax (width target / srcW) (height target / srcH)).
    { unfold aspectFillRatio; simpl. apply CGFloat_max_Qmax. }
    split; [exact Hr|]. simpl.
    split; [reflexivity|]. split; [reflexivity|].
    split; [field|]. split; [field|].
    split; (apply scale_ge_of_ratio_ge; [done|]); rewrite Hr.
    + apply Q.le_max_l.
    + apply Q.le_max_r.
  - exists (plugin_aspectFitRatio (UIImage_size image) target). eexists.
    split; [reflexivity|].
    split; [unfold plugin_aspectFitRatio; simpl; apply CGFloat_min_Qmin|]. simpl.
    split; [reflexivity|]. split; [reflexivity|].
    split; field.
Qed.

End Scaling.

Lemma fit_and_cover_scaling_witness :
  exists ratio rect,
    Gfx.run (ImageUtils.resizeImageAspectFit Demo.platform
               (ImageOfData Demo.png (mkSize 40 20)) (mkSize 20 20)) []
    = ImageOfContext (mkSize 20 20) 2 [DrawImage (ImageOfData Demo.png (mkSize 40 20)) rect] /\
    (ratio == Qmin ((20 - 2 * 4) / 40) ((20 - 2 * 4) / 20))%Q.
Proof.
  destruct (fit_and_cover_scaling Demo.platform (ImageOfData Demo.png (mkSize 40 20))
              (mkSize 20 20) []) as [(ratio & rect & Hrun & Hratio & _) _].
  - reflexivity.
  - reflexivity.
  - exists ratio, rect. split; [exact Hrun|exact Hratio].
Defined.

(** * Content-type validation *)

Module ContentTypeFacts.

(** iOS: a declared type outside the list fails the response. *)
Lemma acceptResponse_rejects_type P r contentType :
  ImageUtils.mimeType r = Some contentType ->
  Str.contains ImageUtils.validTypes (Str.lowercased contentType) = false ->
  ImageUtils.acceptResponse P r = None.
Proof.
  intros Hm Hbad. unfold ImageUtils.acceptResponse. rewrite Hm, Hbad. simpl.
  destruct (ImageUtils.resultData r); [|done].
  destruct (ImageUtils.statusCode r); [|done].
  by destruct (_ || _).
Qed.

(** iOS: an accepted response that declares a type declares an allowed one. *)
Lemma acceptResponse_declared_type P r image contentType :
  ImageUtils.acceptResponse P r = Some image ->
  ImageUtils.mimeType r = Some contentType ->
  Str.contains ImageUtils.validTypes (Str.lowercased contentType) = true.
Proof.
  intros Hacc Hm.
  destruct (Str.contains ImageUtils.validTypes (Str.lowercased contentType)) eqn:Hc; [done|].
  by rewrite (acceptResponse_rejects_type P r contentType Hm Hc) in Hacc.
Qed.

(** iOS: a failed response caches nothing and completes with [nil]. *)
Lemma taskFinished_failure {C} P task r (l : @ImageUtils.Loader C) :
  ImageUtils.acceptResponse P r = None ->
  ImageUtils.imageCache (fst (ImageUtils.taskFinished P task r l)) = ImageUtils.imageCache l /\
  Forall (fun c => snd c = None) (snd (ImageUtils.taskFinished P task r l)).
Proof.
  intros Hacc. unfold ImageUtils.taskFinished.
  destruct (find _ _) as [[[t url] completion]|]; simpl.
  - rewrite Hacc. simpl. split; [done|]. by repeat constructor.
  - split; [done|constructor].
Qed.

(** Web: the checks pass only with a [content-type] header in the list. *)
Lemma checkResponse_declared_type ok status contentType body blob :
  Web.ImageManager.checkResponse (Web.Response ok status contentType body) = inr blob ->
  exists c, contentType = Some c /\ Web.ImageValidator.isValidImageFormat c = true.
Proof.
  unfold Web.ImageManager.checkResponse. destruct ok; simpl; [|done].
  destruct contentType as [c|]; simpl.
  - destruct (Web.ImageValidator.isValidImageFormat c) eqn:Hc; simpl; [|done]. eauto.
  - by vm_compute.
Qed.

(** Web: a header outside the list (or no header) fails the fetch, with
    [UnsupportedImageFormat] when the status was a success. *)
Lemma checkResponse_rejects_type ok status contentType body :
  Web.ImageValidator.isValidImageFormat (default "" contentType) = false ->
  exists e, Web.ImageManager.checkResponse (Web.Response ok status contentType body) = inl e /\
            (ok = true -> e = Web.UnsupportedImageFormat (default "" contentType)).
Proof.
  intros Hbad. unfold Web.ImageManager.checkResponse. destruct ok; simpl.
  - rewrite Hbad. simpl. eauto.
  - eexists. split; [done|discriminate].
Qed.

(** Web: a failed fetch leaves the cache alone and rejects every waiter. *)
Lemma fetchSettles_failure {W} p o now (m : @Web.ImageManager.t W) url waiters e :
  Web.ImageManager.pending m !! p = Some (url, waiters) ->
  Web.ImageManager.checkResponse o = inl e ->
  Web.ImageManager.cache (Web.ImageManager.fetchSettles p o now m) = Web.ImageManager.cache m /\
  Web.ImageManager.settled (Web.ImageManager.fetchSettles p o now m)
  = (Web.ImageManager.settled m
     ++ map (fun w => (w, inl (Web.FailedToLoad url e) : Web.Result)) waiters)%list.
Proof.
  intros Hp He. unfold Web.ImageManager.fetchSettles. by rewrite Hp, He.
Qed.

End ContentTypeFacts.

(** C6, as the code has it. A response that declares a content type outside
    {png, jpeg, jpg, svg+xml, webp} fails the resolve and nothing is cached;
    a resolve that succeeds had a declared type in that set, if it declared
    one.  On the web a missing header counts as a type outside the set (and
    the failure is [UnsupportedImageFormat] when the status was a success);
    on iOS a response that declares no type is not checked. *)
Theorem content_type_is_validated P :
  (forall W (m : @Web.ImageManager.t W) p url waiters ok status contentType body now,
      Web.ImageManager.pending m !! p = Some (url, waiters) ->
      let o := Web.Response ok status contentType body in
      let m' := Web.ImageManager.fetchSettles p o now m in
      (Web.ImageValidator.isValidImageFormat (default "" contentType) = false ->
       Web.ImageManager.cache m' = Web.ImageManager.cache m /\
       exists e,
         Web.ImageManager.settled m'
         = (Web.ImageManager.settled m
            ++ map (fun w => (w, inl (Web.FailedToLoad url e) : Web.Result)) waiters)%list /\
         (ok = true -> e = Web.UnsupportedImageFormat (default "" contentType))) /\
      (forall blob, Web.ImageManager.checkResponse o = inr blob ->
                    exists c, contentType = Some c /\
                              Web.ImageValidator.isValidImageFormat c = true)) /\
  (forall C (l : @ImageUtils.Loader C) task r contentType,
      ImageUtils.mimeType r = Some contentType ->
      (Str.contains ImageUtils.validTypes (Str.lowercased contentType) = false ->
       ImageUtils.imageCache (fst (ImageUtils.taskFinished P task r l))
       = ImageUtils.imageCache l /\
       Forall (fun c => snd c = None) (snd (ImageUtils.taskFinished P task r l))) /\
      (forall image, ImageUtils.acceptResponse P r = Some image ->
                     Str.contains ImageUtils.validTypes (Str.lowercased contentType) = true)).
Proof.
  split.
  - intros W m p url waiters ok status contentType body now Hp o m'. split.
    + intros Hbad.
      destruct (ContentTypeFacts.checkResponse_rejects_type ok status contentType body Hbad)
        as (e & He & Hkind).
      destruct (ContentTypeFacts.fetchSettles_failure p o now m url waiters e Hp He)
        as [Hcache Hsettled].
      split; [exact Hcache|]. exists e. by split.
    + intros blob. apply ContentTypeFacts.checkResponse_declared_type.
  - intros C l task r contentType Hm. split.
    + intros Hbad. apply ContentTypeFacts.taskFinished_failure.
      by eapply ContentTypeFacts.acceptResponse_rejects_type.
    + intros image Hacc. by eapply ContentTypeFacts.acceptResponse_declared_type.
Qed.

(** C6 as the specification states it fails on iOS: a response without a
    declared content type is accepted and handed to the completion. *)
Lemma ios_accepts_undeclared_content_type :
  ~ (forall r image,
        ImageUtils.acceptResponse Demo.platform r = Some image ->
        exists contentType,
          ImageUtils.mimeType r = Some contentType /\
          Str.contains ImageUtils.validTypes (Str.lowercased contentType) = true).
Proof.
  intros H.
  destruct (H (Demo.okResponse None) (ImageOfData Demo.png (mkSize 40 20)))
    as (contentType & Hm & _).
  - vm_compute. reflexivity.
  - discriminate Hm.
Qed.

Lemma content_type_is_validated_witness :
  let l := fst (ImageUtils.loadImageFromUrl Demo.platform Demo.avatar 1%nat
                  ImageUtils.Loader_empty) in
  let r := Demo.okResponse (Some "text/html") in
  ImageUtils.imageCache (fst (ImageUtils.taskFinished Demo.platform 0 r l))
  = ImageUtils.imageCache l /\
  Forall (fun c => snd c = None) (snd (ImageUtils.taskFinished Demo.platform 0 r l)).
Proof.
  intros l r.
  destruct (content_type_is_validated Demo.platform) as [_ Hios].
  destruct (Hios nat l 0%nat r "text/html" eq_refl) as [Hrej _].
  apply Hrej. vm_compute. reflexivity.
Defined.

(** * Time to live *)

Module TtlFacts.
Import Web.ImageManager.

Section Web.
Context {W : Type}.
Implicit Type m : @t W.

(** [fresh] is [now < expiresAt] with [expiresAt = timestamp + 24 h]. *)
Lemma fresh_iff now cached :
  fresh now cached = true <-> (now < timestamp cached + CACHE_DURATION)%Z.
Proof. unfold fresh. rewrite Z.ltb_lt. lia. Qed.

(** A load never sends a request while the entry is fresh. *)
Lemma loadRemoteImage_fresh_no_fetch m url w now cached :
  cache m !! url = Some cached -> fresh now cached = true ->
  issued (loadRemoteImage url w now m) = issued m.
Proof.
  intros Hc Hf. unfold loadRemoteImage. rewrite Hc, Hf. by destruct (loadingPromises m !! url).
Qed.

(** With no fetch in flight it answers from the cache. *)
Lemma loadRemoteImage_fresh_hit m url w now cached :
  loadingPromises m !! url = None ->
  cache m !! url = Some cached -> fresh now cached = true ->
  settled (loadRemoteImage url w now m)
  = (settled m ++ [(w, inr (objectUrl cached) : Web.Result)])%list /\
  cache (loadRemoteImage url w now m) = cache m /\
  pending (loadRemoteImage url w now m) = pending m.
Proof. intros Hl Hc Hf. unfold loadRemoteImage. by rewrite Hl, Hc, Hf. Qed.

(** Once the entry is stale, the load starts a fetch. *)
Lemma loadRemoteImage_stale_fetches m url w now cached :
  loadingPromises m !! url = None ->
  cache m !! url = Some cached -> fresh now cached = false ->
  let m' := loadRemoteImage url w now m in
  issued m' = (issued m ++ [url])%list /\
  loadingPromises m' !! url = Some (nextPromise m) /\
  pending m' = <[nextPromise m := (url, [w])]> (pending m) /\
  cache m' = cache m /\ settled m' = settled m.
Proof.
  intros Hl Hc Hf m'. subst m'. unfold loadRemoteImage. rewrite Hl, Hc, Hf. simpl.
  by rewrite lookup_insert_eq.
Qed.

(** While that fetch is in flight, further loads join it. *)
Lemma loadRemoteImage_joins m url w now p :
  loadingPromises m !! url = Some p ->
  let m' := loadRemoteImage url w now m in
  issued m' = issued m /\ loadingPromises m' = loadingPromises m /\
  cache m' = cache m /\ settled m' = settled m /\
  pending m' = alter (fun e : string * list W => (fst e, (snd e ++ [w])%list)) p (pending m).
Proof. intros Hl m'. subst m'. unfold loadRemoteImage. by rewrite Hl. Qed.

Lemma cleanupCache_keeps now (c : gmap string CachedImage) url cached :
  c !! url = Some cached -> expired now cached = false ->
  fst (cleanupCache now c) !! url = Some cached.
Proof.
  intros Hc He. unfold cleanupCache. simpl.
  apply map_lookup_filter_Some. by split.
Qed.

(** A fetch that succeeds stores the new asset in place of the old one,
    stamped with the time of completion; the old object URL is revoked. *)
Lemma fetchSettles_success m p url waiters o blob now :
  pending m !! p = Some (url, waiters) ->
  checkResponse o = inr blob ->
  let m' := fetchSettles p o now m in
  cache m' !! url = Some (mkCached url blob now (createObjectURL (nextObjectUrl m))) /\
  (forall old, cache m !! url = Some old -> objectUrl old ∈ revoked m') /\
  settled m'
  = (settled m
     ++ map (fun w => (w, inr (createObjectURL (nextObjectUrl m)) : Web.Result)) waiters)%list /\
  issued m' = issued m.
Proof.
  intros Hp Hok m'. subst m'. unfold fetchSettles. rewrite Hp, Hok.
  destruct (cleanupCache now _) as [cache' revokedExpired] eqn:Hclean. simpl.
  repeat split.
  - change cache' with (fst (cache', revokedExpired)). rewrite <- Hclean.
    apply cleanupCache_keeps; [by rewrite lookup_insert_eq|].
    unfold expired. simpl. rewrite Z.gtb_ltb. apply Z.ltb_ge. unfold CACHE_DURATION. lia.
  - intros old Hold. rewrite Hold. set_solver.
Qed.

End Web.

(** iOS: what is cached is served, whenever it is asked for. *)
Lemma loadImageFromUrl_cached {C} P url (k : C) (l : @ImageUtils.Loader C) image :
  ImageUtils.imageCache l !! url = Some image ->
  ImageUtils.loadImageFromUrl P url k l = (l, [(k, Some image)]).
Proof. intros H. unfold ImageUtils.loadImageFromUrl. by rewrite H. Qed.

(** iOS: no event removes an entry of the cache. *)
Lemma step1_keeps_cached {C} P (e : @LoaderEvents.Event C) l url :
  is_Some (ImageUtils.imageCache l !! url) ->
  is_Some (ImageUtils.imageCache (fst (LoaderEvents.step1 P e l)) !! url).
Proof.
  assert (Hload : forall u (k : C) (l' : @ImageUtils.Loader C),
            is_Some (ImageUtils.imageCache l' !! url) ->
            is_Some (ImageUtils.imageCache (fst (ImageUtils.loadImageFromUrl P u k l')) !! url)).
  { intros u k l' H. unfold ImageUtils.loadImageFromUrl.
    destruct (ImageUtils.imageCache l' !! u); [done|].
    destruct (bool_decide _); [done|]. by destruct (urlScheme P u). }
  intros H. destruct e as [u k|n|task r]; simpl.
  - by apply Hload.
  - unfold ImageUtils.runRetry. destruct (ImageUtils.retries l !! n) as [[u k]|]; [|done].
    by apply Hload.
  - unfold ImageUtils.taskFinished.
    destruct (find _ _) as [[[t u] k]|]; [|done].
    destruct (ImageUtils.acceptResponse P r); simpl; [|done].
    destruct (decide (u = url)) as [->|Hne].
    + rewrite lookup_insert_eq. by eexists.
    + by rewrite lookup_insert_ne.
Qed.

Lemma run_keeps_cached {C} P (es : list (@LoaderEvents.Event C)) : forall l called url,
  is_Some (ImageUtils.imageCache l !! url) ->
  is_Some (ImageUtils.imageCache (fst (fold_left (LoaderEvents.step P) es (l, called))) !! url).
Proof.
  induction es as [|e es IH]; intros l called url H; [done|].
  simpl. unfold LoaderEvents.step at 2. simpl.
  destruct (LoaderEvents.step1 P e l) as [l' called'] eqn:He.
  apply IH. change l' with (fst (l', called')). rewrite <- He. by apply step1_keeps_cached.
Qed.

End TtlFacts.

(** C5, as the code has it. Web: while [now < timestamp + 24 h] a resolve of
    a stored key sends no request and, no fetch being in flight, is answered
    from the cache; once the 24 h have elapsed (no fetch in flight) it
    starts one fetch, which the resolves that follow join, and the asset of
    a successful fetch replaces the cached entry.  iOS: the cache has no
    expiry; a cached image is served without a request whenever it is asked
    for, and no event removes it. *)
Theorem cached_asset_ttl P :
  (forall W (m : @Web.ImageManager.t W) url cached w now,
      Web.ImageManager.cache m !! url = Some cached ->
      let m1 := Web.ImageManager.loadRemoteImage url w now m in
      ((now < Web.ImageManager.timestamp cached + Web.ImageManager.CACHE_DURATION)%Z ->
       Web.ImageManager.issued m1 = Web.ImageManager.issued m /\
       (Web.ImageManager.loadingPromises m !! url = None ->
        Web.ImageManager.settled m1
        = (Web.ImageManager.settled m
           ++ [(w, inr (Web.ImageManager.objectUrl cached) : Web.Result)])%list)) /\
      ((Web.ImageManager.timestamp cached + Web.ImageManager.CACHE_DURATION <= now)%Z ->
       Web.ImageManager.loadingPromises m !! url = None ->
       Web.ImageManager.issued m1 = (Web.ImageManager.issued m ++ [url])%list /\
       (forall w2 now2,
           Web.ImageManager.issued (Web.ImageManager.loadRemoteImage url w2 now2 m1)
           = Web.ImageManager.issued m1) /\
       (forall o blob now3,
           Web.ImageManager.checkResponse o = inr blob ->
           let m2 := Web.ImageManager.fetchSettles (Web.ImageManager.nextPromise m) o now3 m1 in
           Web.ImageManager.cache m2 !! url
           = Some (Web.ImageManager.mkCached url blob now3
                     (Web.ImageManager.createObjectURL (Web.ImageManager.nextObjectUrl m))) /\
           Web.ImageManager.objectUrl cached ∈ Web.ImageManager.revoked m2 /\
           Web.ImageManager.issued m2 = Web.ImageManager.issued m1))) /\
  (forall C (l : @ImageUtils.Loader C) url image,
      ImageUtils.imageCache l !! url = Some image ->
      (forall k, ImageUtils.loadImageFromUrl P url k l = (l, [(k, Some image)])) /\
      (forall es, is_Some (ImageUtils.imageCache (fst (LoaderEvents.run P es l)) !! url))).
Proof.
  split.
  - intros W m url cached w now Hc m1. split.
    + intros Hnow. apply TtlFacts.fresh_iff in Hnow. split.
      * by eapply TtlFacts.loadRemoteImage_fresh_no_fetch.
      * intros Hl. by eapply TtlFacts.loadRemoteImage_fresh_hit.
    + intros Hnow Hl.
      assert (Hstale : Web.ImageManager.fresh now cached = false).
      { apply not_true_is_false. intros Hf. apply TtlFacts.fresh_iff in Hf. lia. }
      destruct (TtlFacts.loadRemoteImage_stale_fetches m url w now cached Hl Hc Hstale)
        as (Hiss & Hreg & Hpend & Hcache & Hset).
      fold m1 in Hiss, Hreg, Hpend, Hcache, Hset.
      split; [exact Hiss|]. split.
      * intros w2 now2.
        by destruct (TtlFacts.loadRemoteImage_joins m1 url w2 now2 _ Hreg) as [-> _].
      * intros o blob now3 Hok m2.
        assert (Hp : Web.ImageManager.pending m1 !! Web.ImageManager.nextPromise m
                     = Some (url, [w])) by (by rewrite Hpend, lookup_insert_eq).
        destruct (TtlFacts.fetchSettles_success m1 _ url [w] o blob now3 Hp Hok)
          as (Hnew & Hrev & _ & Hiss2).
        fold m2 in Hnew, Hrev, Hiss2.
        assert (Hobj : Web.ImageManager.nextObjectUrl m1 = Web.ImageManager.nextObjectUrl m).
        { unfold m1, Web.ImageManager.loadRemoteImage. by rewrite Hl, Hc, Hstale. }
        rewrite Hobj in Hnew. split; [exact Hnew|]. split; [|exact Hiss2].
        apply Hrev. by rewrite Hcache.
  - intros C l url image Hc. split.
    + intros k. by apply TtlFacts.loadImageFromUrl_cached.
    + intros es. apply TtlFacts.run_keeps_cached. by rewrite Hc.
Qed.

(** C5 as the specification states it fails on iOS: an image stored at
    time 0 and asked for again 25 hours later is served from the cache; one
    request in all was sent. *)
Lemma ios_cache_has_no_ttl :
  let trace :=
    [(0%Z, LoaderEvents.Request Demo.avatar 1%nat);
     (100%Z, LoaderEvents.Finished 0 (Demo.okResponse (Some "image/png")));
     ((100 + Demo.hours25)%Z, LoaderEvents.Request Demo.avatar 2%nat)] in
  let after := LoaderEvents.runAt Demo.platform trace ImageUtils.Loader_empty in
  ImageUtils.issued (fst after) = [Demo.avatar] /\
  snd after = [(1%nat, Some (ImageOfData Demo.png (mkSize 40 20)));
               (2%nat, Some (ImageOfData Demo.png (mkSize 40 20)))] /\
  ImageUtils.issued (fst after) <> [Demo.avatar; Demo.avatar].
Proof. vm_compute. repeat split; discriminate. Qed.

Lemma cached_asset_ttl_witness :
  let l := fst (LoaderEvents.run Demo.platform
                  [LoaderEvents.Request Demo.avatar 1%nat;
                   LoaderEvents.Finished 0 (Demo.okResponse (Some "image/png"))]
                  ImageUtils.Loader_empty) in
  ImageUtils.loadImageFromUrl Demo.platform Demo.avatar 2%nat l
  = (l, [(2%nat, Some (ImageOfData Demo.png (mkSize 40 20)))]).
Proof.
  intros l.
  destruct (cached_asset_ttl Demo.platform) as [_ Hios].
  destruct (Hios nat l Demo.avatar (ImageOfData Demo.png (mkSize 40 20))) as [Hserve _].
  - vm_compute. reflexivity.
  - apply Hserve.
Defined.

(** * One fetch per key: the web manager *)

Module WebFetchFacts.
Import Web.ImageManager.

Section Web.
Context {W : Type}.
Implicit Type m : @t W.


Lemma agree_empty : agree (W:=W) empty.
Proof. split; intros *; simpl; by rewrite lookup_empty. Qed.

Lemma agree_loadRemoteImage m url w now : agree m -> agree (loadRemoteImage url w now m).
Proof.
  intros [Hrp Hpr Hb]. unfold loadRemoteImage.
  destruct (loadingPromises m !! url) as [p|] eqn:Hreg.
  - split; simpl.
    + intros url' p' H'. destruct (Hrp _ _ H') as [ws Hws].
      destruct (decide (p = p')) as [->|Hne].
      * rewrite lookup_alter_eq, Hws. simpl. eauto.
      * rewrite lookup_alter_ne by done. eauto.
    + intros p' url' ws'. destruct (decide (p = p')) as [->|Hne].
      * rewrite lookup_alter_eq. destruct (pending m !! p') as [[u ws]|] eqn:Hp; [|done].
        simpl. intros [= <- <-]. by eapply Hpr.
      * rewrite lookup_alter_ne by done. apply Hpr.
    + intros p' e. destruct (decide (p = p')) as [->|Hne].
      * rewrite lookup_alter_eq. destruct (pending m !! p') eqn:Hp; [|done].
        intros _. by eapply Hb.
      * rewrite lookup_alter_ne by done. apply Hb.
  - assert (Hstart : agree
      (mk (cache m) (<[url := nextPromise m]> (loadingPromises m))
          (<[nextPromise m := (url, [w])]> (pending m)) (S (nextPromise m))
          (nextObjectUrl m) (issued m ++ [url]) (revoked m) (settled m))).
    { assert (Hfree : pending m !! nextPromise m = None).
      { destruct (pending m !! nextPromise m) eqn:Hp; [|done].
        apply Hb in Hp. lia. }
      split; simpl.
      - intros url' p'. destruct (decide (url = url')) as [->|Hne].
        + rewrite lookup_insert_eq. intros [= <-]. rewrite lookup_insert_eq. eauto.
        + rewrite lookup_insert_ne by done. intros H'.
          destruct (Hrp _ _ H') as [ws Hws]. exists ws.
          rewrite lookup_insert_ne; [done|]. intros <-. by rewrite Hfree in Hws.
      - intros p' url' ws'. destruct (decide (nextPromise m = p')) as [<-|Hne].
        + rewrite lookup_insert_eq. intros [= <- <-]. by rewrite lookup_insert_eq.
        + rewrite lookup_insert_ne by done. intros H'.
          pose proof (Hpr _ _ _ H') as Hreg'.
          rewrite lookup_insert_ne; [done|]. intros <-. by rewrite Hreg in Hreg'.
      - intros p' e. destruct (decide (nextPromise m = p')) as [<-|Hne].
        + intros _. lia.
        + rewrite lookup_insert_ne by done. intros H'. apply Hb in H'. lia. }
    destruct (cache m !! url) as [cached|]; [|exact Hstart].
    destruct (fresh now cached); [|exact Hstart].
    by split.
Qed.

Lemma agree_fetchSettles m p o now : agree m -> agree (fetchSettles p o now m).
Proof.
  intros [Hrp Hpr Hb]. unfold fetchSettles.
  destruct (pending m !! p) as [[url waiters]|] eqn:Hp; [|by split].
  assert (Hcore : forall c n r s,
    agree (mk c (delete url (loadingPromises m)) (delete p (pending m))
              (nextPromise m) n (issued m) r s)).
  { intros c n r s. split; simpl.
    - intros url' p'. destruct (decide (url = url')) as [->|Hne].
      + by rewrite lookup_delete_eq.
      + rewrite lookup_delete_ne by done. intros H'.
        destruct (Hrp _ _ H') as [ws Hws]. exists ws.
        rewrite lookup_delete_ne; [done|]. intros <-. rewrite Hp in Hws. congruence.
    - intros p' url' ws'. destruct (decide (p = p')) as [->|Hne].
      + by rewrite lookup_delete_eq.
      + rewrite lookup_delete_ne by done. intros H'.
        pose proof (Hpr _ _ _ H') as Hreg'.
        rewrite lookup_delete_ne; [done|]. intros <-.
        pose proof (Hpr _ _ _ Hp) as Hreg. congruence.
    - intros p' e. destruct (decide (p = p')) as [->|Hne].
      + by rewrite lookup_delete_eq.
      + rewrite lookup_delete_ne by done. apply Hb. }
  destruct (checkResponse o); [apply Hcore|].
  destruct (cleanupCache now _). apply Hcore.
Qed.

Lemma agree_clearCache m : pending m = ∅ -> agree (clearCache m).
Proof.
  intros Hidle. split; simpl.
  - intros url p. by rewrite lookup_empty.
  - intros p url ws. by rewrite Hidle, lookup_empty.
  - intros p e. by rewrite Hidle, lookup_empty.
Qed.

Lemma agree_run es : forall m,
  clearsOnlyIdle es m = true -> agree m -> agree (run es m).
Proof.
  induction es as [|e es IH]; intros m Hes Hm; [done|].
  simpl in Hes. apply andb_true_iff in Hes as [He Hes].
  simpl. apply IH; [done|].
  destruct e; simpl in *;
    [by apply agree_loadRemoteImage|by apply agree_fetchSettles|].
  apply agree_clearCache. by apply bool_decide_eq_true_1 in He.
Qed.

(** With registry and fetches in agreement, no key has two fetches in
    flight. *)
Lemma agree_inFlight m url : agree m -> (length (inFlight url m) <= 1)%nat.
Proof.
  intros [Hrp Hpr Hb]. unfold inFlight. rewrite length_map.
  set (fm := filter (fun e : nat * (string * list W) => fst (snd e) = url) (pending m)).
  pose proof (NoDup_fst_map_to_list fm) as Hnd.
  assert (Hkey : forall p e, (p, e) ∈ map_to_list fm -> loadingPromises m !! url = Some p).
  { intros p [u ws] Hin. apply elem_of_map_to_list in Hin.
    apply map_lookup_filter_Some in Hin as [Hin Hu]. simpl in Hu. subst u. by eapply Hpr. }
  destruct (map_to_list fm) as [|[p1 e1] [|[p2 e2] rest]]; simpl; [lia|lia|].
  exfalso.
  assert (p1 = p2).
  { pose proof (Hkey p1 e1 ltac:(constructor)) as H1.
    pose proof (Hkey p2 e2 ltac:(constructor; constructor)) as H2. congruence. }
  subst p2. simpl in Hnd. apply NoDup_cons in Hnd as [Hnotin _].
  apply Hnotin. constructor.
Qed.

Lemma loadAll_join rest : forall m url p ws,
  loadingPromises m !! url = Some p ->
  pending m !! p = Some (url, ws) ->
  let m' := loadAll url rest m in
  loadingPromises m' = loadingPromises m /\
  pending m' = <[p := (url, (ws ++ map fst rest)%list)]> (pending m) /\
  issued m' = issued m /\ settled m' = settled m /\ cache m' = cache m /\
  nextObjectUrl m' = nextObjectUrl m /\ nextPromise m' = nextPromise m.
Proof.
  induction rest as [|[w now] rest IH]; intros m url p ws Hreg Hp; simpl.
  - rewrite app_nil_r. repeat split; try done. by rewrite insert_id.
  - set (m1 := loadRemoteImage url w now m).
    assert (H1 : loadingPromises m1 = loadingPromises m /\
                 pending m1 = <[p := (url, (ws ++ [w])%list)]> (pending m) /\
                 issued m1 = issued m /\ settled m1 = settled m /\ cache m1 = cache m /\
                 nextObjectUrl m1 = nextObjectUrl m /\ nextPromise m1 = nextPromise m).
    { unfold m1, loadRemoteImage. rewrite Hreg. simpl. repeat split; try done.
      apply map_eq. intros q. destruct (decide (p = q)) as [<-|Hne].
      - by rewrite lookup_alter_eq, lookup_insert_eq, Hp.
      - by rewrite lookup_alter_ne, lookup_insert_ne. }
    destruct H1 as (Hr1 & Hp1 & Hi1 & Hs1 & Hc1 & Ho1 & Hn1).
    destruct (IH m1 url p (ws ++ [w])%list) as (Hr2 & Hp2 & Hi2 & Hs2 & Hc2 & Ho2 & Hn2).
    { by rewrite Hr1. }
    { by rewrite Hp1, lookup_insert_eq. }
    fold (loadAll url rest m1).
    rewrite Hr2, Hp2, Hi2, Hs2, Hc2, Ho2, Hn2, Hr1, Hp1, Hi1, Hs1, Hc1, Ho1, Hn1.
    repeat split; try done.
    by rewrite insert_insert_eq, <- app_assoc.
Qed.


(** Requests for a key that is neither in flight nor freshly cached, all
    made before the answer: one request leaves, and the answer reaches
    every requester. *)
Lemma loadAll_fanout m url w0 now0 rest o now :
  agree m ->
  loadingPromises m !! url = None ->
  (forall cached, cache m !! url = Some cached -> fresh now0 cached = false) ->
  let m1 := loadAll url ((w0, now0) :: rest) m in
  let m2 := fetchSettles (nextPromise m) o now m1 in
  issued m1 = (issued m ++ [url])%list /\
  issued m2 = issued m1 /\
  settled m1 = settled m /\
  settled m2
  = (settled m
     ++ map (fun w => (w, outcomeOf url o (nextObjectUrl m))) (w0 :: map fst rest))%list.
Proof.
  intros Hagree Hreg Hstale m1 m2.
  set (m0 := loadRemoteImage url w0 now0 m).
  assert (H0 : loadingPromises m0 !! url = Some (nextPromise m) /\
               pending m0 !! nextPromise m = Some (url, [w0]) /\
               issued m0 = (issued m ++ [url])%list /\ settled m0 = settled m /\
               nextObjectUrl m0 = nextObjectUrl m).
  { unfold m0, loadRemoteImage. rewrite Hreg.
    destruct (cache m !! url) as [cached|] eqn:Hc.
    - rewrite (Hstale cached eq_refl). simpl. by rewrite !lookup_insert_eq.
    - simpl. by rewrite !lookup_insert_eq. }
  destruct H0 as (Hr0 & Hp0 & Hi0 & Hs0 & Ho0).
  destruct (loadAll_join rest m0 url _ _ Hr0 Hp0) as (Hr1 & Hp1 & Hi1 & Hs1 & Hc1 & Ho1 & Hn1).
  change (loadAll url rest m0) with m1 in Hr1, Hp1, Hi1, Hs1, Hc1, Ho1, Hn1.
  assert (Hp : pending m1 !! nextPromise m = Some (url, w0 :: map fst rest))
    by (by rewrite Hp1, lookup_insert_eq).
  repeat split.
  - by rewrite Hi1.
  - unfold m2, fetchSettles. rewrite Hp. destruct (checkResponse o); [done|].
    match goal with |- context [cleanupCache ?a ?b] => destruct (cleanupCache a b) end.
    reflexivity.
  - by rewrite Hs1.
  - unfold m2, fetchSettles, outcomeOf. rewrite Hp.
    destruct (checkResponse o); simpl; [by rewrite Hs1, Hs0|].
    by rewrite Hs1, Hs0, Ho1, Ho0.
Qed.

End Web.

End WebFetchFacts.

(** * One fetch per key: the iOS loader *)

Module LoaderFacts.
Import ImageUtils.

Section Loader.
Context (P : Platform) {C : Type}.
Implicit Type l : @Loader C.


Lemma orderly_empty : orderly (C:=C) Loader_empty.
Proof. split; simpl; [by intros e H%elem_of_nil|constructor|by intros e H%elem_of_nil]. Qed.

Lemma orderly_retries l r :
  orderly l ->
  orderly (mkLoader (imageCache l) (loadingStates l) (tasks l) r (nextTask l) (issued l)).
Proof. by intros [? ? ?]. Qed.

Lemma orderly_loadImageFromUrl l url k :
  orderly l -> orderly (fst (loadImageFromUrl P url k l)).
Proof.
  intros Hl. pose proof Hl as [Hload Hnd Hb]. unfold loadImageFromUrl.
  destruct (imageCache l !! url); [done|].
  destruct (bool_decide (loadingStates l !! url = Some true)) eqn:Hflag; [by apply orderly_retries|].
  apply bool_decide_eq_false in Hflag.
  destruct (urlScheme P url); [|done]. simpl.
  assert (Hfree : url ∉ map taskUrl (tasks l)).
  { intros Hin. apply list_elem_of_fmap in Hin as (e & -> & He). by apply Hflag, Hload. }
  split; simpl.
  - intros e He. apply elem_of_app in He as [He|He].
    + destruct (decide (taskUrl e = url)) as [Heq|Hne].
      * exfalso. apply Hfree. rewrite <- Heq. by apply list_elem_of_fmap_2.
      * rewrite lookup_insert_ne by done. by apply Hload.
    + apply list_elem_of_singleton in He as ->. unfold taskUrl; simpl.
      by rewrite lookup_insert_eq.
  - rewrite map_app. simpl. apply NoDup_app. split; [done|]. split.
    + intros u Hu Hin. apply list_elem_of_singleton in Hin as ->. done.
    + apply NoDup_singleton.
  - intros e He. apply elem_of_app in He as [He|He].
    + apply Hb in He. lia.
    + apply list_elem_of_singleton in He as ->. unfold taskId; simpl. lia.
Qed.

Lemma orderly_runRetry l n : orderly l -> orderly (fst (runRetry P n l)).
Proof.
  intros Hl. unfold runRetry. destruct (retries l !! n) as [[url k]|]; [|done].
  by apply orderly_loadImageFromUrl, orderly_retries.
Qed.

Lemma NoDup_map_inj {A B} (f : A -> B) (xs : list A) x y :
  NoDup (map f xs) -> x ∈ xs -> y ∈ xs -> f x = f y -> x = y.
Proof.
  induction xs as [|a xs IH]; intros Hnd Hx Hy Hf; [by apply elem_of_nil in Hx|].
  simpl in Hnd. apply NoDup_cons in Hnd as [Hnotin Hnd].
  apply elem_of_cons in Hx as [->|Hx]; apply elem_of_cons in Hy as [->|Hy]; try done.
  - exfalso. apply Hnotin. rewrite Hf. by apply list_elem_of_fmap_2.
  - exfalso. apply Hnotin. rewrite <- Hf. by apply list_elem_of_fmap_2.
  - by apply IH.
Qed.

Lemma orderly_taskFinished l t r : orderly l -> orderly (fst (taskFinished P t r l)).
Proof.
  intros Hl. pose proof Hl as [Hload Hnd Hb]. unfold taskFinished.
  destruct (find _ _) as [[[t0 url] k]|] eqn:Hfind; [|done].
  apply find_some in Hfind as [Hin Ht]. apply list_elem_of_In in Hin.
  simpl in Ht. apply Nat.eqb_eq in Ht. subst t0.
  set (remaining := List.filter _ (tasks l)).
  assert (Hsub : forall e, e ∈ remaining -> e ∈ tasks l /\ taskId e <> t).
  { intros e He. apply list_elem_of_In, filter_In in He as [He Hne].
    split; [by apply list_elem_of_In|].
    apply negb_true_iff, Nat.eqb_neq in Hne. done. }
  assert (Hcore : forall c, orderly (mkLoader c (<[url := false]> (loadingStates l))
                                       remaining (retries l) (nextTask l) (issued l))).
  { intros c. split; simpl.
    - intros e He. destruct (Hsub e He) as [He' Hid].
      rewrite lookup_insert_ne; [by apply Hload|].
      intros Hurl. apply Hid.
      assert (e = (t, url, k)) as ->; [|done].
      apply (NoDup_map_inj taskUrl (tasks l)); try done.
    - unfold remaining. clear -Hnd. induction (tasks l) as [|a ts IH]; [constructor|].
      simpl in *. apply NoDup_cons in Hnd as [Hnotin Hnd].
      destruct (negb _); simpl; [|by apply IH].
      apply NoDup_cons. split; [|by apply IH].
      intros Hin. apply Hnotin. apply list_elem_of_fmap in Hin as (e & -> & He).
      apply list_elem_of_fmap_2. apply list_elem_of_In, filter_In in He as [He _].
      by apply list_elem_of_In.
    - intros e He. destruct (Hsub e He) as [He' _]. by apply Hb. }
  destruct (acceptResponse P r); apply Hcore.
Qed.

Lemma orderly_step1 (e : @LoaderEvents.Event C) l :
  orderly l -> orderly (fst (LoaderEvents.step1 P e l)).
Proof.
  destruct e; simpl;
    [apply orderly_loadImageFromUrl|apply orderly_runRetry|apply orderly_taskFinished].
Qed.

Lemma orderly_run es : forall l called,
  orderly l -> orderly (fst (fold_left (LoaderEvents.step P) es (l, called))).
Proof.
  induction es as [|e es IH]; intros l called Hl; [done|].
  simpl. unfold LoaderEvents.step at 2. simpl.
  destruct (LoaderEvents.step1 P e l) as [l' called'] eqn:He.
  apply IH. change l' with (fst (l', called')). rewrite <- He. by apply orderly_step1.
Qed.

(** In an orderly loader no key has two data tasks in flight. *)
Lemma orderly_inFlight l url : orderly l -> (length (inFlight url l) <= 1)%nat.
Proof.
  intros [_ Hnd _]. unfold inFlight.
  induction (tasks l) as [|a ts IH]; simpl; [lia|].
  simpl in Hnd. apply NoDup_cons in Hnd as [Hnotin Hnd].
  destruct (Str.eqb (snd (fst a)) url) eqn:Ha; [|by apply IH].
  simpl. apply bool_decide_eq_true_1 in Ha.
  assert (Hnone : List.filter (fun e : nat * string * C => Str.eqb (snd (fst e)) url) ts = []).
  { destruct (List.filter _ ts) as [|b bs] eqn:Hf; [done|]. exfalso.
    assert (Hb : In b (List.filter (fun e : nat * string * C => Str.eqb (snd (fst e)) url) ts))
      by (rewrite Hf; by left).
    apply filter_In in Hb as [Hb Hburl]. apply bool_decide_eq_true_1 in Hburl.
    apply Hnotin. unfold taskUrl at 1. rewrite Ha, <- Hburl.
    apply list_elem_of_In in Hb. by apply (list_elem_of_fmap_2 taskUrl). }
  rewrite Hnone. simpl. lia.
Qed.

(** *** Several requests for one key *)


Lemma fold_step_app es1 es2 st :
  fold_left (LoaderEvents.step (C:=C) P) (es1 ++ es2) st
  = fold_left (LoaderEvents.step (C:=C) P) es2 (fold_left (LoaderEvents.step (C:=C) P) es1 st).
Proof. apply fold_left_app. Qed.

(** While the flag of [url] is up and nothing is cached, a request only
    queues a retry. *)
Lemma requests_wait url rest : forall l called,
  imageCache l !! url = None ->
  loadingStates l !! url = Some true ->
  fold_left (LoaderEvents.step (C:=C) P) (map (LoaderEvents.Request url) rest) (l, called)
  = (mkLoader (imageCache l) (loadingStates l) (tasks l)
              (retries l ++ waiting url rest) (nextTask l) (issued l), called).
Proof.
  induction rest as [|k rest IH]; intros l called Hc Hf; simpl.
  - rewrite app_nil_r. by destruct l.
  - unfold LoaderEvents.step at 2. simpl. unfold loadImageFromUrl. rewrite Hc.
    rewrite bool_decide_eq_true_2 by done. simpl.
    rewrite IH by done. simpl. by rewrite app_nil_r, <- app_assoc.
Qed.

(** The first request starts the data task. *)
Lemma first_request url k l :
  imageCache l !! url = None ->
  loadingStates l !! url <> Some true ->
  is_Some (urlScheme P url) ->
  loadImageFromUrl P url k l
  = (mkLoader (imageCache l) (<[url := true]> (loadingStates l))
              (tasks l ++ [(nextTask l, url, k)]) (retries l)
              (S (nextTask l)) (issued l ++ [url]), []).
Proof.
  intros Hc Hf [scheme Hs]. unfold loadImageFromUrl. rewrite Hc.
  rewrite bool_decide_eq_false_2 by done. by rewrite Hs.
Qed.

Lemma find_new_task l url k :
  orderly l ->
  find (fun e : nat * string * C => Nat.eqb (fst (fst e)) (nextTask l))
       (tasks l ++ [(nextTask l, url, k)]) = Some (nextTask l, url, k) /\
  List.filter (fun e : nat * string * C => negb (Nat.eqb (fst (fst e)) (nextTask l)))
              (tasks l ++ [(nextTask l, url, k)]) = tasks l.
Proof.
  intros [_ _ Hb].
  assert (Hold : Forall (fun e : nat * string * C => Nat.eqb (fst (fst e)) (nextTask l) = false)
                        (tasks l)).
  { apply Forall_forall. intros e He. apply Nat.eqb_neq. apply Hb in He.
    unfold taskId in He. lia. }
  clear Hb. induction (tasks l) as [|a ts IH]; simpl.
  - by rewrite Nat.eqb_refl.
  - apply Forall_cons in Hold as [Ha Hts]. rewrite Ha. simpl.
    destruct (IH Hts) as [-> ->]. done.
Qed.

(** The data task of that request completes. *)
Lemma new_task_finished l url k r rs :
  orderly l ->
  taskFinished P (nextTask l) r
    (mkLoader (imageCache l) (<[url := true]> (loadingStates l))
              (tasks l ++ [(nextTask l, url, k)]) rs
              (S (nextTask l)) (issued l ++ [url]))
  = match acceptResponse P r with
    | Some image =>
        (mkLoader (<[url := image]> (imageCache l))
                  (<[url := false]> (<[url := true]> (loadingStates l)))
                  (tasks l) rs (S (nextTask l)) (issued l ++ [url]),
         [(k, Some image)])
    | None =>
        (mkLoader (imageCache l)
                  (<[url := false]> (<[url := true]> (loadingStates l)))
                  (tasks l) rs (S (nextTask l)) (issued l ++ [url]),
         [(k, None)])
    end.
Proof.
  intros Hl. unfold taskFinished. simpl.
  destruct (find_new_task l url k Hl) as [-> ->].
  by destruct (acceptResponse P r).
Qed.

(** Once the image is cached, each queued retry is served from the cache. *)
Lemma retries_served url image rest : forall l called pre,
  imageCache l !! url = Some image ->
  retries l = (pre ++ waiting url rest)%list ->
  fold_left (LoaderEvents.step (C:=C) P)
            (repeat (LoaderEvents.Retry (length pre)) (length rest)) (l, called)
  = (mkLoader (imageCache l) (loadingStates l) (tasks l) pre (nextTask l) (issued l),
     (called ++ map (fun k => (k, Some image)) rest)%list).
Proof.
  induction rest as [|k rest IH]; intros l called pre Hc Hr; simpl.
  - rewrite app_nil_r in Hr. rewrite app_nil_r. destruct l; simpl in *. by subst.
  - unfold LoaderEvents.step at 2. simpl. unfold runRetry. rewrite Hr.
    change (waiting url (k :: rest)) with ((url, k) :: waiting url rest).
    rewrite list_lookup_middle by done.
    rewrite take_app_length.
    rewrite (cons_middle (url, k) pre), app_assoc.
    rewrite drop_app_length' by (rewrite length_app; simpl; lia).
    unfold loadImageFromUrl. simpl. rewrite Hc. simpl.
    rewrite (IH _ _ pre); simpl; [|done|done].
    by rewrite <- app_assoc.
Qed.

Lemma step_request l called url k :
  LoaderEvents.step P (l, called) (LoaderEvents.Request url k)
  = (fst (loadImageFromUrl P url k l), (called ++ snd (loadImageFromUrl P url k l))%list).
Proof. unfold LoaderEvents.step. simpl. by destruct (loadImageFromUrl P url k l). Qed.

Lemma step_finished l called t r :
  LoaderEvents.step P (l, called) (LoaderEvents.Finished t r)
  = (fst (taskFinished P t r l), (called ++ snd (taskFinished P t r l))%list).
Proof. unfold LoaderEvents.step. simpl. by destruct (taskFinished P t r l). Qed.

Lemma step_retry l called n :
  LoaderEvents.step P (l, called) (LoaderEvents.Retry n)
  = (fst (runRetry P n l), (called ++ snd (runRetry P n l))%list).
Proof. unfold LoaderEvents.step. simpl. by destruct (runRetry P n l). Qed.

(** The fetch succeeds: one request was sent and every requester gets the
    image, the first from its data task and the others, which were polling,
    from the cache. *)
Lemma fanout_success l url k0 rest r image :
  orderly l ->
  imageCache l !! url = None ->
  loadingStates l !! url <> Some true ->
  is_Some (urlScheme P url) ->
  acceptResponse P r = Some image ->
  let events :=
    (map (LoaderEvents.Request url) (k0 :: rest)
     ++ [LoaderEvents.Finished (nextTask l) r]
     ++ repeat (LoaderEvents.Retry (length (retries l))) (length rest))%list in
  issued (fst (LoaderEvents.run P events l)) = (issued l ++ [url])%list /\
  snd (LoaderEvents.run P events l) = map (fun k => (k, Some image)) (k0 :: rest).
Proof.
  intros Hl Hc Hf Hs Hacc events. unfold LoaderEvents.run. subst events.
  rewrite !fold_step_app. cbn [map fold_left].
  rewrite step_request, first_request by done. cbn [fst snd app].
  rewrite requests_wait; cbn [imageCache loadingStates tasks retries nextTask issued];
    [|done|by rewrite lookup_insert_eq].
  rewrite step_finished, new_task_finished by done. rewrite Hacc. cbn [fst snd app].
  rewrite (retries_served url image rest _ _ (retries l));
    cbn [imageCache loadingStates tasks retries nextTask issued fst snd app map];
    [done|by rewrite lookup_insert_eq|done].
Qed.

(** The fetch fails: the first requester is told so, and the requester that
    polls next sends a request of its own. *)
Lemma fanout_failure l url k0 k1 rest r :
  orderly l ->
  imageCache l !! url = None ->
  loadingStates l !! url <> Some true ->
  is_Some (urlScheme P url) ->
  acceptResponse P r = None ->
  let events :=
    (map (LoaderEvents.Request url) (k0 :: k1 :: rest)
     ++ [LoaderEvents.Finished (nextTask l) r; LoaderEvents.Retry (length (retries l))])%list in
  issued (fst (LoaderEvents.run P events l)) = (issued l ++ [url; url])%list /\
  snd (LoaderEvents.run P events l) = [(k0, None)].
Proof.
  intros Hl Hc Hf Hs Hacc events. unfold LoaderEvents.run. subst events.
  rewrite !fold_step_app. cbn [map fold_left].
  rewrite step_request, first_request by done. cbn [fst snd app].
  change (fold_left (LoaderEvents.step (C:=C) P) (map (LoaderEvents.Request url) rest)
            (LoaderEvents.step P ?st (LoaderEvents.Request url k1)))
    with (fold_left (LoaderEvents.step (C:=C) P)
            (map (LoaderEvents.Request url) (k1 :: rest)) st).
  rewrite requests_wait; cbn [imageCache loadingStates tasks retries nextTask issued];
    [|done|by rewrite lookup_insert_eq].
  rewrite step_finished, new_task_finished by done. rewrite Hacc. cbn [fst snd app].
  rewrite step_retry. unfold runRetry.
  cbn [imageCache loadingStates tasks retries nextTask issued].
  change (waiting url (k1 :: rest)) with ((url, k1) :: waiting url rest).
  rewrite list_lookup_middle by done.
  destruct Hs as [scheme Hs].
  unfold loadImageFromUrl. cbn [imageCache loadingStates tasks retries nextTask issued].
  rewrite Hc.
  rewrite bool_decide_eq_false_2 by (by rewrite lookup_insert_eq). rewrite Hs.
  cbn [fst snd issued]. by rewrite <- app_assoc.
Qed.

End Loader.

End LoaderFacts.

(** C3, as the code has it. As long as the cache is not cleared while a
    fetch is in flight, no key has two fetches in flight, on the web and on
    iOS (where nothing calls [clearCache]).  Web: requests for a key
    with no fetch in flight and no fresh entry, made before the answer,
    send one request, and every requester receives the result of that
    fetch, success or failure.  iOS: the first request sends the fetch and
    the others poll; when the fetch succeeds one request was sent and every
    requester receives the image; when it fails only the first requester is
    told, and the requester that polls next sends a request of its own. *)
Theorem one_fetch_per_key P :
  (forall W (es : list (@Web.ImageManager.Event W)) url,
      Web.ImageManager.clearsOnlyIdle es Web.ImageManager.empty = true ->
      (length (Web.ImageManager.inFlight url (Web.ImageManager.run es Web.ImageManager.empty))
       <= 1)%nat) /\
  (forall W (es : list (@Web.ImageManager.Event W)) url w0 now0 rest o now,
      Web.ImageManager.clearsOnlyIdle es Web.ImageManager.empty = true ->
      let m := Web.ImageManager.run es Web.ImageManager.empty in
      Web.ImageManager.loadingPromises m !! url = None ->
      (forall cached, Web.ImageManager.cache m !! url = Some cached ->
                      Web.ImageManager.fresh now0 cached = false) ->
      let m1 := Web.ImageManager.loadAll url ((w0, now0) :: rest) m in
      let m2 := Web.ImageManager.fetchSettles (Web.ImageManager.nextPromise m) o now m1 in
      Web.ImageManager.issued m1 = (Web.ImageManager.issued m ++ [url])%list /\
      Web.ImageManager.issued m2 = Web.ImageManager.issued m1 /\
      Web.ImageManager.settled m2
      = (Web.ImageManager.settled m
         ++ map (fun w => (w, Web.ImageManager.outcomeOf url o (Web.ImageManager.nextObjectUrl m)))
                (w0 :: map fst rest))%list) /\
  (forall C (es : list (@LoaderEvents.Event C)) url,
      (length (ImageUtils.inFlight url (fst (LoaderEvents.run P es ImageUtils.Loader_empty)))
       <= 1)%nat) /\
  (forall C (es : list (@LoaderEvents.Event C)) url k0 rest r,
      let l := fst (LoaderEvents.run P es ImageUtils.Loader_empty) in
      ImageUtils.imageCache l !! url = None ->
      ImageUtils.loadingStates l !! url <> Some true ->
      is_Some (urlScheme P url) ->
      (forall image,
          ImageUtils.acceptResponse P r = Some image ->
          let events :=
            (map (LoaderEvents.Request url) (k0 :: rest)
             ++ [LoaderEvents.Finished (ImageUtils.nextTask l) r]
             ++ repeat (LoaderEvents.Retry (length (ImageUtils.retries l))) (length rest))%list in
          ImageUtils.issued (fst (LoaderEvents.run P events l))
          = (ImageUtils.issued l ++ [url])%list /\
          snd (LoaderEvents.run P events l) = map (fun k => (k, Some image)) (k0 :: rest)) /\
      (forall k1 rest',
          rest = k1 :: rest' ->
          ImageUtils.acceptResponse P r = None ->
          let events :=
            (map (LoaderEvents.Request url) (k0 :: rest)
             ++ [LoaderEvents.Finished (ImageUtils.nextTask l) r;
                 LoaderEvents.Retry (length (ImageUtils.retries l))])%list in
          ImageUtils.issued (fst (LoaderEvents.run P events l))
          = (ImageUtils.issued l ++ [url; url])%list /\
          snd (LoaderEvents.run P events l) = [(k0, None)])).
Proof.
  repeat apply conj.
  - intros W es url Hes. apply WebFetchFacts.agree_inFlight.
    apply WebFetchFacts.agree_run; [done|apply WebFetchFacts.agree_empty].
  - intros W es url w0 now0 rest o now Hes m Hreg Hstale m1 m2.
    assert (Hm : Web.ImageManager.agree m)
      by (apply WebFetchFacts.agree_run; [done|apply WebFetchFacts.agree_empty]).
    destruct (WebFetchFacts.loadAll_fanout m url w0 now0 rest o now Hm Hreg Hstale)
      as (H1 & H2 & _ & H3).
    by repeat split.
  - intros C es url. apply LoaderFacts.orderly_inFlight.
    apply LoaderFacts.orderly_run, LoaderFacts.orderly_empty.
  - intros C es url k0 rest r l Hc Hf Hs.
    assert (Hl : ImageUtils.orderly l)
      by (apply LoaderFacts.orderly_run, LoaderFacts.orderly_empty).
    split.
    + intros image Hacc. by apply LoaderFacts.fanout_success.
    + intros k1 rest' -> Hacc. by apply LoaderFacts.fanout_failure.
Qed.

(** C3 as the specification states it fails twice. Web: the cache is cleared while
    a fetch is in flight, and the next request for the key starts a second
    fetch beside the first.  iOS: the fetch of two concurrent requests
    fails, and the second requester sends a request of its own. *)
Lemma concurrent_requests_can_fetch_twice :
  (let m := Web.ImageManager.run
              [Web.ImageManager.Load Demo.avatar 1%nat 0%Z;
               Web.ImageManager.ClearCache;
               Web.ImageManager.Load Demo.avatar 2%nat 10%Z]
              Web.ImageManager.empty in
   length (Web.ImageManager.inFlight Demo.avatar m) = 2%nat /\
   Web.ImageManager.issued m = [Demo.avatar; Demo.avatar]) /\
  (let after := LoaderEvents.run Demo.platform
                  [LoaderEvents.Request Demo.avatar 1%nat;
                   LoaderEvents.Request Demo.avatar 2%nat;
                   LoaderEvents.Finished 0 Demo.failedResponse;
                   LoaderEvents.Retry 0]
                  ImageUtils.Loader_empty in
   ImageUtils.issued (fst after) = [Demo.avatar; Demo.avatar] /\
   snd after = [(1%nat, None)]).
Proof. vm_compute. repeat split. Qed.

Lemma one_fetch_per_key_witness :
  let events :=
    [LoaderEvents.Request Demo.avatar 1%nat;
     LoaderEvents.Request Demo.avatar 2%nat;
     LoaderEvents.Finished 0 (Demo.okResponse (Some "image/png"));
     LoaderEvents.Retry 0] in
  ImageUtils.issued (fst (LoaderEvents.run Demo.platform events ImageUtils.Loader_empty))
  = [Demo.avatar] /\
  snd (LoaderEvents.run Demo.platform events ImageUtils.Loader_empty)
  = [(1%nat, Some (ImageOfData Demo.png (mkSize 40 20)));
     (2%nat, Some (ImageOfData Demo.png (mkSize 40 20)))].
Proof.
  destruct (one_fetch_per_key Demo.platform) as (_ & _ & _ & Hios).
  destruct (Hios nat [] Demo.avatar 1%nat [2%nat]
              (Demo.okResponse (Some "image/png"))) as [Hok _].
  - vm_compute. reflexivity.
  - vm_compute. discriminate.
  - eexists. vm_compute. reflexivity.
  - apply (Hok (ImageOfData Demo.png (mkSize 40 20))). vm_compute. reflexivity.
Defined.
(** * Facts about the colour strings *)

Module ColorFacts.
Import SwiftString ColorUtils ColorNotation.

(** A hexadecimal digit is no white space, no sign and no hash. *)
Lemma hexDigit_plain c v :
  digitValue c = Some v -> (v < 16)%Z ->
  (0 <= v)%Z /\ isWhitespaceOrNewline c = false /\
  Ascii.eqb c "-" = false /\ Ascii.eqb c "+" = false /\ Ascii.eqb c "#" = false.
Proof.
  destruct c as [[] [] [] [] [] [] [] []]; vm_compute; intros [= <-] Hv;
    repeat split; congruence.
Qed.

Lemma hexByte_digits c d r :
  hexByte c d = Some r ->
  exists a b, digitValue c = Some a /\ digitValue d = Some b /\
              (0 <= a < 16)%Z /\ (0 <= b < 16)%Z /\ r = (16 * a + b)%Z.
Proof.
  unfold hexByte. destruct (digitValue c) as [a|] eqn:Ha; [|done].
  destruct (digitValue d) as [b|] eqn:Hb; [|done]. simpl.
  destruct (a <? 16)%Z eqn:Ha16; [|done]. destruct (b <? 16)%Z eqn:Hb16; [|done].
  simpl. intros [= <-]. apply Z.ltb_lt in Ha16, Hb16.
  destruct (hexDigit_plain _ _ Ha Ha16) as [? _], (hexDigit_plain _ _ Hb Hb16) as [? _].
  exists a, b. repeat split; try done; lia.
Qed.

Lemma dropTrailing_plain c r :
  isWhitespaceOrNewline c = false -> dropTrailing (String c r) = String c (dropTrailing r).
Proof. intros H. simpl. by rewrite H. Qed.

Lemma dropLeading_plain c r :
  isWhitespaceOrNewline c = false -> dropLeading (String c r) = String c r.
Proof. intros H. simpl. by rewrite H. Qed.

Lemma fitsInt_small v : (- 2 ^ 32 < v < 2 ^ 32)%Z -> fitsInt v = Some v.
Proof.
  intros Hv. unfold fitsInt, Int_min, Int_max.
  replace ((- 2 ^ 63 <=? v)%Z && (v <=? 2 ^ 63 - 1)%Z) with true; [done|].
  symmetry. apply andb_true_iff. split; apply Z.leb_le; lia.
Qed.

Lemma parseDigits_hex c v acc r :
  digitValue c = Some v -> (v < 16)%Z ->
  parseDigits 16 acc (String c r) = parseDigits 16 (acc * 16 + v) r.
Proof. intros Hc Hv. simpl. rewrite Hc. by apply Z.ltb_lt in Hv as ->. Qed.

(** [Int(text, radix: 16)] on six hexadecimal digits. *)
Lemma Int_ofString_six c1 c2 c3 c4 c5 c6 r g b :
  hexByte c1 c2 = Some r -> hexByte c3 c4 = Some g -> hexByte c5 c6 = Some b ->
  Int_ofString (String c1 (String c2 (String c3 (String c4 (String c5 (String c6 "")))))) 16
  = Some (65536 * r + 256 * g + b)%Z /\
  (0 <= r < 256)%Z /\ (0 <= g < 256)%Z /\ (0 <= b < 256)%Z.
Proof.
  intros (v1 & v2 & H1 & H2 & B1 & B2 & ->)%hexByte_digits
         (v3 & v4 & H3 & H4 & B3 & B4 & ->)%hexByte_digits
         (v5 & v6 & H5 & H6 & B5 & B6 & ->)%hexByte_digits.
  split; [|lia].
  destruct (hexDigit_plain _ _ H1 (proj2 B1)) as (_ & _ & Hm & Hp & _).
  unfold Int_ofString. rewrite Hm, Hp.
  rewrite (parseDigits_hex _ _ _ _ H1), (parseDigits_hex _ _ _ _ H2),
    (parseDigits_hex _ _ _ _ H3), (parseDigits_hex _ _ _ _ H4),
    (parseDigits_hex _ _ _ _ H5), (parseDigits_hex _ _ _ _ H6) by lia.
  simpl. rewrite fitsInt_small by lia. f_equal. lia.
Qed.

(** The bytes of [0xRRGGBB]. *)
Lemma channels_of_Int r g b :
  (0 <= r < 256)%Z -> (0 <= g < 256)%Z -> (0 <= b < 256)%Z ->
  let colorInt := (65536 * r + 256 * g + b)%Z in
  Z.land (Z.shiftr colorInt 16) 255 = r /\
  Z.land (Z.shiftr colorInt 8) 255 = g /\
  Z.land colorInt 255 = b.
Proof.
  intros Hr Hg Hb colorInt. unfold colorInt.
  change 255%Z with (Z.ones 8). rewrite !Z.land_ones, !Z.shiftr_div_pow2 by lia.
  change (2 ^ 16)%Z with 65536%Z. change (2 ^ 8)%Z with 256%Z.
  repeat split; Z.div_mod_to_equations; lia.
Qed.

Local Open Scope Q_scope.

Lemma channel_range n : (0 <= n <= 255)%Z -> 0 <= channel n /\ channel n <= 1.
Proof.
  intros Hn. unfold channel, Qle, Qdiv, Qmult, Qinv, inject_Z. simpl. lia.
Qed.

Lemma land_255_range x : (0 <= Z.land x 255 <= 255)%Z.
Proof.
  change 255%Z with (Z.ones 8) at 1 2. rewrite Z.land_ones by lia.
  pose proof (Z.mod_pos_bound x (2 ^ 8) eq_refl). change (2 ^ 8)%Z with 256%Z in *. lia.
Qed.

Lemma parseDigits_two_bound a b acc v :
  parseDigits 16 acc (String a (String b "")) = Some v ->
  (acc * 256 <= v <= acc * 256 + 255)%Z.
Proof.
  simpl. destruct (digitValue a) as [x|] eqn:Ha; [|done].
  destruct (x <? 16)%Z eqn:Hx; [|done].
  destruct (digitValue b) as [y|] eqn:Hb; [|done].
  destruct (y <? 16)%Z eqn:Hy; [|done].
  intros [= <-]. apply Z.ltb_lt in Hx, Hy.
  destruct (hexDigit_plain _ _ Ha Hx) as [? _], (hexDigit_plain _ _ Hb Hy) as [? _]. lia.
Qed.

Lemma fitsInt_Some v w : fitsInt v = Some w -> w = v.
Proof. unfold fitsInt. by destruct (_ && _); intros [= <-]. Qed.

(** What two characters can write as an alpha byte. *)
Lemma alpha_pair_bound a b v :
  Int_ofString (String a (String b "")) 16 = Some v -> (-15 <= v <= 255)%Z.
Proof.
  unfold Int_ofString.
  assert (Hone : forall w, parseDigits 16 0 (String b "") = Some w -> (0 <= w <= 15)%Z).
  { simpl. destruct (digitValue b) as [y|] eqn:Hb; [|done].
    destruct (y <? 16)%Z eqn:Hy; [|done]. intros w [= <-]. apply Z.ltb_lt in Hy.
    destruct (hexDigit_plain _ _ Hb Hy) as [? _]. lia. }
  destruct (Ascii.eqb a "-").
  - destruct (parseDigits 16 0 (String b "")) as [w|] eqn:Hw; [|done]. simpl.
    intros ->%fitsInt_Some. specialize (Hone _ eq_refl). lia.
  - destruct (Ascii.eqb a "+").
    + destruct (parseDigits 16 0 (String b "")) as [w|] eqn:Hw; [|done]. simpl.
      intros ->%fitsInt_Some. specialize (Hone _ eq_refl). lia.
    + destruct (parseDigits 16 0 (String a (String b ""))) as [w|] eqn:Hw; [|done]. simpl.
      intros ->%fitsInt_Some. apply parseDigits_two_bound in Hw. lia.
Qed.

Lemma channel_le_1 n : (n <= 255)%Z -> channel n <= 1.
Proof. intros Hn. unfold channel, Qle, Qdiv, Qmult, Qinv, inject_Z. simpl. lia. Qed.

Lemma substring_tail8 c1 c2 c3 c4 c5 c6 c7 c8 :
  let s := String c1 (String c2 (String c3 (String c4 (String c5 (String c6
             (String c7 (String c8 ""))))))) in
  String.substring 6 2 s = String c7 (String c8 "") /\
  String.substring 0 6 s
  = String c1 (String c2 (String c3 (String c4 (String c5 (String c6 ""))))).
Proof. done. Qed.

Lemma parseHexColor_range hex color :
  parseHexColor hex = Some color ->
  exists r g b a, color = RGBA r g b a /\
    0 <= r /\ r <= 1 /\ 0 <= g /\ g <= 1 /\ 0 <= b /\ b <= 1 /\ a <= 1.
Proof.
  unfold parseHexColor.
  set (stripped := match trimmingWhitespacesAndNewlines hex with
                   | String "#" rest => rest
                   | _ => trimmingWhitespacesAndNewlines hex
                   end).
  destruct (negb _); [done|].
  set (expanded := if (String.length stripped =? 3)%nat then doubled stripped else stripped).
  assert (Hfinal : forall alpha digits,
    alpha <= 1 ->
    match Int_ofString digits 16 with
    | Some colorInt =>
        Some (RGBA (channel (Z.land (Z.shiftr colorInt 16) 255))
                   (channel (Z.land (Z.shiftr colorInt 8) 255))
                   (channel (Z.land colorInt 255)) alpha)
    | None => None
    end = Some color ->
    exists r g b a, color = RGBA r g b a /\
      0 <= r /\ r <= 1 /\ 0 <= g /\ g <= 1 /\ 0 <= b /\ b <= 1 /\ a <= 1).
  { intros alpha digits Ha. destruct (Int_ofString digits 16) as [colorInt|]; [|done].
    intros [= <-]. do 4 eexists. split; [reflexivity|].
    pose proof (channel_range _ (land_255_range (Z.shiftr colorInt 16))).
    pose proof (channel_range _ (land_255_range (Z.shiftr colorInt 8))).
    pose proof (channel_range _ (land_255_range colorInt)). tauto. }
  destruct (String.length expanded =? 8)%nat.
  - destruct (Int_ofString (substring 6 2 expanded) 16) as [alphaInt|] eqn:Halpha.
    + apply Hfinal. apply channel_le_1.
      destruct (substring 6 2 expanded) as [|a [|b [|]]] eqn:Hsub.
      * done.
      * unfold Int_ofString in Halpha. simpl in Halpha.
        destruct (Ascii.eqb a "-"); [done|]. destruct (Ascii.eqb a "+"); [done|].
        destruct (digitValue a) as [x|] eqn:Hx; [|done].
        destruct (x <? 16)%Z eqn:Hx16; [|done]. simpl in Halpha.
        apply fitsInt_Some in Halpha as ->. apply Z.ltb_lt in Hx16. lia.
      * apply alpha_pair_bound in Halpha. lia.
      * exfalso. clear -Hsub. revert Hsub. generalize expanded. intros e.
        destruct e as [|? [|? [|? [|? [|? [|? [|? [|? [|? ?]]]]]]]]]; simpl; try done.
    + by apply Hfinal.
  - by apply Hfinal.
Qed.


Lemma six_digits_plain c1 c2 c3 c4 c5 c6 r g b :
  hexByte c1 c2 = Some r -> hexByte c3 c4 = Some g -> hexByte c5 c6 = Some b ->
  isWhitespaceOrNewline c1 = false /\ isWhitespaceOrNewline c2 = false /\
  isWhitespaceOrNewline c3 = false /\ isWhitespaceOrNewline c4 = false /\
  isWhitespaceOrNewline c5 = false /\ isWhitespaceOrNewline c6 = false.
Proof.
  intros (v1 & v2 & H1 & H2 & B1 & B2 & _)%hexByte_digits
         (v3 & v4 & H3 & H4 & B3 & B4 & _)%hexByte_digits
         (v5 & v6 & H5 & H6 & B5 & B6 & _)%hexByte_digits.
  destruct (hexDigit_plain _ _ H1 (proj2 B1)) as (_ & W1 & _).
  destruct (hexDigit_plain _ _ H2 (proj2 B2)) as (_ & W2 & _).
  destruct (hexDigit_plain _ _ H3 (proj2 B3)) as (_ & W3 & _).
  destruct (hexDigit_plain _ _ H4 (proj2 B4)) as (_ & W4 & _).
  destruct (hexDigit_plain _ _ H5 (proj2 B5)) as (_ & W5 & _).
  destruct (hexDigit_plain _ _ H6 (proj2 B6)) as (_ & W6 & _).
  done.
Qed.

(** Six digits, once the string is trimmed. *)
Lemma parseHexColor_of_trimmed s c1 c2 c3 c4 c5 c6 r g b :
  hexByte c1 c2 = Some r -> hexByte c3 c4 = Some g -> hexByte c5 c6 = Some b ->
  let digits := String c1 (String c2 (String c3 (String c4 (String c5 (String c6 ""))))) in
  trimmingWhitespacesAndNewlines s = String "#" digits \/
  trimmingWhitespacesAndNewlines s = digits ->
  parseHexColor s = Some (RGBA (channel r) (channel g) (channel b) 1).
Proof.
  intros Hr Hg Hb digits Hs.
  destruct (Int_ofString_six _ _ _ _ _ _ _ _ _ Hr Hg Hb) as (Hint & Br & Bg & Bb).
  destruct (channels_of_Int r g b Br Bg Bb) as (Cr & Cg & Cb).
  destruct (hexByte_digits _ _ _ Hr) as (v1 & v2 & H1 & _ & B1 & _).
  destruct (hexDigit_plain _ _ H1 (proj2 B1)) as (_ & _ & _ & _ & N1).
  unfold parseHexColor.
  assert (Hstrip : match trimmingWhitespacesAndNewlines s with
                   | String "#" rest => rest
                   | _ => trimmingWhitespacesAndNewlines s
                   end = digits).
  { destruct Hs as [-> | ->]; [done|]. unfold digits.
    apply Ascii.eqb_neq in N1. destruct c1 as [[] [] [] [] [] [] [] []]; done. }
  rewrite Hstrip. unfold digits at 1 2 3 4 5. simpl String.length. simpl negb. cbv iota.
  simpl Nat.eqb. cbv iota. unfold digits. rewrite Hint, Cr, Cg, Cb. done.
Qed.

End ColorFacts.

Section HexColor.
Import SwiftString ColorUtils ColorNotation ColorFacts.

(** X1. A colour of six hexadecimal digits is read as RRGGBB, most
    significant pair first, each pair over 255, with or without the leading
    hash; the colour is opaque. *)
Theorem parseHexColor_six_digits c1 c2 c3 c4 c5 c6 r g b :
  hexByte c1 c2 = Some r -> hexByte c3 c4 = Some g -> hexByte c5 c6 = Some b ->
  let digits := String c1 (String c2 (String c3 (String c4 (String c5 (String c6 ""))))) in
  parseHexColor (String "#" digits) = Some (RGBA (channel r) (channel g) (channel b) 1) /\
  parseHexColor digits = Some (RGBA (channel r) (channel g) (channel b) 1).
Proof.
  intros Hr Hg Hb digits.
  destruct (six_digits_plain _ _ _ _ _ _ _ _ _ Hr Hg Hb) as (W1 & W2 & W3 & W4 & W5 & W6).
  split; apply (parseHexColor_of_trimmed _ _ _ _ _ _ _ _ _ _ Hr Hg Hb).
  - left. unfold trimmingWhitespacesAndNewlines. rewrite dropLeading_plain by done.
    rewrite dropTrailing_plain by done. f_equal. unfold digits.
    by rewrite !dropTrailing_plain by done.
  - right. unfold trimmingWhitespacesAndNewlines, digits.
    rewrite dropLeading_plain by done. by rewrite !dropTrailing_plain by done.
Qed.


(** X3. With eight hexadecimal digits the last pair is the alpha, over 255.
    A last pair that [Int(_:radix:)] does not read is ignored: the colour is
    then opaque, not rejected. *)
Theorem parseHexColor_eight_digits c1 c2 c3 c4 c5 c6 c7 c8 r g b :
  hexByte c1 c2 = Some r -> hexByte c3 c4 = Some g -> hexByte c5 c6 = Some b ->
  isWhitespaceOrNewline c8 = false ->
  let alphaHex := String c7 (String c8 "") in
  parseHexColor
    (String "#" (String c1 (String c2 (String c3 (String c4 (String c5 (String c6 alphaHex)))))))
  = Some (RGBA (channel r) (channel g) (channel b)
               (default 1%Q (channel <$> Int_ofString alphaHex 16)))
  /\ (forall a, hexByte c7 c8 = Some a -> Int_ofString alphaHex 16 = Some a).
Proof.
  intros Hr Hg Hb W8 alphaHex. split.
  - destruct (Int_ofString_six _ _ _ _ _ _ _ _ _ Hr Hg Hb) as (Hint & Br & Bg & Bb).
    destruct (channels_of_Int r g b Br Bg Bb) as (Cr & Cg & Cb).
    destruct (six_digits_plain _ _ _ _ _ _ _ _ _ Hr Hg Hb) as (W1 & W2 & W3 & W4 & W5 & W6).
    unfold parseHexColor, trimmingWhitespacesAndNewlines, alphaHex.
    rewrite dropLeading_plain by done. rewrite !dropTrailing_plain by done.
    assert (Hlast : dropTrailing (String c7 (String c8 "")) = String c7 (String c8 "")).
    { simpl. rewrite W8. simpl. by rewrite andb_false_r. }
    rewrite Hlast. cbv iota. simpl String.length. simpl Nat.eqb. simpl negb. cbv iota.
    simpl substring.
    destruct (Int_ofString (String c7 (String c8 "")) 16) as [alphaInt|];
      cbv beta iota zeta; rewrite Hint, Cr, Cg, Cb; reflexivity.
  - intros a (v7 & v8 & H7 & H8 & B7 & B8 & ->)%hexByte_digits.
    destruct (hexDigit_plain _ _ H7 (proj2 B7)) as (_ & _ & Hm & Hp & _).
    unfold alphaHex, Int_ofString. rewrite Hm, Hp.
    rewrite (parseDigits_hex _ _ _ _ H7), (parseDigits_hex _ _ _ _ H8) by lia.
    simpl. rewrite fitsInt_small by lia. f_equal. lia.
Qed.

End HexColor.

Lemma parseHexColor_six_digits_witness :
  ColorUtils.parseHexColor "#FF5733"
  = Some (RGBA (ColorUtils.channel 255) (ColorUtils.channel 87) (ColorUtils.channel 51) 1%Q) /\
  ColorUtils.parseHexColor "FF5733"
  = Some (RGBA (ColorUtils.channel 255) (ColorUtils.channel 87) (ColorUtils.channel 51) 1%Q).
Proof.
  apply (parseHexColor_six_digits "F" "F" "5" "7" "3" "3" 255 87 51); reflexivity.
Defined.


Lemma parseHexColor_eight_digits_witness :
  ColorUtils.parseHexColor "#8E8E9380"
  = Some (RGBA (ColorUtils.channel 142) (ColorUtils.channel 142) (ColorUtils.channel 147)
               (default 1%Q (ColorUtils.channel <$> SwiftString.Int_ofString "80" 16))) /\
  (forall a, ColorNotation.hexByte "8" "0" = Some a ->
             SwiftString.Int_ofString "80" 16 = Some a).
Proof.
  apply (parseHexColor_eight_digits "8" "E" "8" "E" "9" "3" "8" "0" 142 142 147);
    reflexivity.
Defined.

Section ParseColor.
Import SwiftString ColorUtils ColorNotation ColorFacts.
Local Open Scope Q_scope.

Lemma parseRgbaColor_range rgba color :
  parseRgbaColor rgba = Some color ->
  exists r g b a, color = RGBA r g b a /\
    0 <= r /\ r <= 1 /\ 0 <= g /\ g <= 1 /\ 0 <= b /\ b <= 1 /\ 0 <= a /\ a <= 1.
Proof.
  unfold parseRgbaColor.
  destruct (Regex.firstMatch rgbaPattern rgba) as [m|]; [|done].
  destruct (Regex.substringAt m 1 rgba ≫= Double_ofString) as [red|]; [|done].
  destruct (Regex.substringAt m 2 rgba ≫= Double_ofString) as [green|]; [|done].
  destruct (Regex.substringAt m 3 rgba ≫= Double_ofString) as [blue|]; [|done].
  set (alpha := default 1 _).
  destruct (_ && _) eqn:Hguard; [|done]. intros [= <-].
  repeat (apply andb_true_iff in Hguard as [Hguard ?]).
  repeat match goal with H : Qle_bool _ _ = true |- _ => apply Qle_bool_iff in H end.
  assert (Hdiv : forall x, 0 <= x -> x <= 255 -> 0 <= x / 255 /\ x / 255 <= 1).
  { intros x Hlo Hhi. split.
    - apply Qle_shift_div_l; [done|]. by rewrite Qmult_0_l.
    - apply Qle_shift_div_r; [done|]. by rewrite Qmult_1_l. }
  exists (red / 255), (green / 255), (blue / 255), alpha.
  split; [done|].
  destruct (Hdiv red), (Hdiv green), (Hdiv blue); try done; tauto.
Qed.

(** X4. Every colour [parseColor] returns has its red, green and blue
    between 0 and 1 and its alpha at most 1, whatever the string. *)
Theorem parseColor_components_in_range colorString color :
  parseColor colorString = Some color ->
  exists r g b a, color = RGBA r g b a /\
    0 <= r /\ r <= 1 /\ 0 <= g /\ g <= 1 /\ 0 <= b /\ b <= 1 /\ a <= 1.
Proof.
  unfold parseColor. destruct colorString as [s|]; [|done].
  destruct (Str.isEmpty _); [done|].
  destruct (hasPrefix "#" _).
  - apply parseHexColor_range.
  - destruct (_ || _); [|done].
    intros (r & g & b & a & -> & H)%parseRgbaColor_range.
    exists r, g, b, a. tauto.
Qed.
End ParseColor.

Lemma parseColor_components_in_range_witness :
  exists r g b a,
    RGBA (ColorUtils.channel 255) (ColorUtils.channel 87) (ColorUtils.channel 51) 1%Q
    = RGBA r g b a /\
    (0 <= r /\ r <= 1 /\ 0 <= g /\ g <= 1 /\ 0 <= b /\ b <= 1 /\ a <= 1)%Q.
Proof.
  apply (parseColor_components_in_range (Some " #FF5733 ")). reflexivity.
Defined.
(** * Facts about the layout of the bar *)

Module LayoutFacts.
Import TabsBarOverlay Selection Layout OverlayFacts.

Lemma core_layout o o' : core o = core o' -> layout o = layout o'.
Proof. unfold core, layout. by intros [= -> -> -> _ _ _ -> _]. Qed.

Lemma wellIndexed_layout o o' : layout o = layout o' -> wellIndexed o -> wellIndexed o'.
Proof.
  unfold layout. intros [= Hi Hx Ht Hobj] [H1 H2 H3]. split.
  - by rewrite <- Hi, <- Hx.
  - by rewrite <- Ht.
  - rewrite <- Ht. intros ref Href. specialize (H3 ref Href).
    assert (Hl : (UITabBarItem.tag <$> objects o') !! ref = (UITabBarItem.tag <$> objects o) !! ref)
      by (by rewrite Hobj).
    rewrite !lookup_fmap in Hl. destruct H3 as [b Hb]. rewrite Hb in Hl. simpl in Hl.
    destruct (objects o' !! ref); [by eexists|done].
Qed.

Lemma applyColorConfiguration_layout o : layout (applyColorConfiguration o) = layout o.
Proof. apply core_layout, applyColorConfiguration_core. Qed.

Lemma restorePreviousSelection_layout o : layout (restorePreviousSelection o) = layout o.
Proof.
  unfold restorePreviousSelection.
  destruct (lastSelectedIndex o) as [i|]; [|done].
  destruct (tabItems (tabBar o)) as [refs|] eqn:Ht; [|done].
  destruct (_ && _); [|done].
  rewrite applyColorConfiguration_layout. unfold layout; simpl. by rewrite Ht.
Qed.

Lemma select_layout id o : layout (select id o) = layout o.
Proof.
  unfold select.
  destruct (idToIndex o !! id) as [idx|]; [|done].
  destruct (tabItems (tabBar o)) as [refs|] eqn:Ht; [|done].
  destruct (idx <? length refs)%nat; [|done].
  rewrite applyColorConfiguration_layout. unfold layout; simpl. by rewrite Ht.
Qed.

Lemma callOnInteraction_layout id kind o : layout (callOnInteraction id kind o) = layout o.
Proof. apply core_layout, callOnInteraction_core. Qed.

Lemma tabBar_didSelect_layout tag o : layout (tabBar_didSelect tag o) = layout o.
Proof.
  unfold tabBar_didSelect. destruct (_ && _); [|done].
  destruct (suppressNextSelectionEvent o).
  - by rewrite restorePreviousSelection_layout.
  - set (o1 := applyColorConfiguration _).
    assert (H1 : layout o1 = layout o) by (unfold o1; by rewrite applyColorConfiguration_layout).
    destruct (items o1 !! Z.to_nat tag); [|done].
    by rewrite callOnInteraction_layout.
Qed.

Lemma userSelects_layout pos o : layout (userSelects pos o) = layout o.
Proof.
  unfold userSelects. destruct (tabItems (tabBar o) ≫= _) as [ref|]; [|done].
  rewrite tabBar_didSelect_layout. unfold layout; simpl. done.
Qed.

Lemma handleLongPress_layout g o : layout (handleLongPress g o) = layout o.
Proof.
  unfold handleLongPress. destruct (gestureState g); try done.
  destruct (indexForGesture g o) as [index|]; [|done].
  destruct (_ && _); [|done].
  set (o1 := restorePreviousSelection _).
  assert (H1 : layout o1 = layout o) by (unfold o1; by rewrite restorePreviousSelection_layout).
  destruct (items o1 !! Z.to_nat index); [|done].
  by rewrite callOnInteraction_layout.
Qed.

Lemma uniqueKeysWithValues_mono l : forall acc m,
  uniqueKeysWithValues l acc = Done m ->
  forall k v, acc !! k = Some v -> m !! k = Some v.
Proof.
  induction l as [|[k0 v0] l IH]; intros acc m H k v Hk; simpl in H.
  - by injection H as <-.
  - destruct (acc !! k0) eqn:Hk0; [discriminate|].
    apply (IH _ _ H). rewrite lookup_insert_ne; [done|]. congruence.
Qed.

Lemma uniqueKeysWithValues_complete l : forall acc m,
  uniqueKeysWithValues l acc = Done m ->
  forall k v, (k, v) ∈ l -> m !! k = Some v.
Proof.
  induction l as [|[k0 v0] l IH]; intros acc m H k v Hin; simpl in H.
  - by apply elem_of_nil in Hin.
  - destruct (acc !! k0) eqn:Hk0; [discriminate|].
    apply elem_of_cons in Hin as [[= -> ->]|Hin].
    + apply (uniqueKeysWithValues_mono _ _ _ H). by rewrite lookup_insert_eq.
    + by apply (IH _ _ H).
Qed.

Lemma loadImageForItem_objects P model ref o :
  nextObject (loadImageForItem P model ref o) = nextObject o /\
  objects (loadImageForItem P model ref o)
  = match TabsBarItem.imageIcon model with
    | Some _ => objects o
    | None =>
        alter (UITabBarItem.set_image
                 (Some (default ImageEmpty
                          (UIImage_systemName P (TabsBarItem.systemIcon model)))))
              ref (objects o)
    end.
Proof.
  unfold loadImageForItem. destruct (TabsBarItem.imageIcon model); [|done].
  by destruct (ImageUtils.processImageIcon _ _ _ _).
Qed.

Lemma applyBadge_fields badge b :
  UITabBarItem.title (applyBadge badge b) = UITabBarItem.title b /\
  UITabBarItem.image (applyBadge badge b) = UITabBarItem.image b /\
  UITabBarItem.selectedImage (applyBadge badge b) = UITabBarItem.selectedImage b /\
  UITabBarItem.tag (applyBadge badge b) = UITabBarItem.tag b /\
  UITabBarItem.badgeValue (applyBadge badge b) = badgeText badge.
Proof. unfold badgeText, applyBadge. by destruct badge as [[]|]. Qed.

Lemma makeBarItems_objects P models : forall idx o refs o',
  makeBarItems P idx models o = (refs, o') ->
  refs = seq (nextObject o) (length models) /\
  nextObject o' = (nextObject o + length models)%nat /\
  (forall r, (r < nextObject o)%nat -> objects o' !! r = objects o !! r) /\
  (forall k model, models !! k = Some model ->
     exists b, objects o' !! (nextObject o + k)%nat = Some b /\ made P (idx + k) model b).
Proof.
  induction models as [|model rest IH]; intros idx o refs o' H; simpl in H.
  - injection H as <- <-. repeat split; try done; simpl; lia.
  - unfold makeBarItem in H.
    set (item := applyBadge _ _) in H.
    set (o0 := set_nextObject _ _) in H.
    set (o1 := loadImageForItem P model (nextObject o) o0) in H.
    destruct (makeBarItems P (S idx) rest o1) as [refs' o2] eqn:Hrest.
    injection H as <- <-.
    destruct (loadImageForItem_objects P model (nextObject o) o0) as (Hn1 & Hobj1).
    fold o1 in Hn1, Hobj1. simpl in Hn1.
    destruct (IH _ _ _ _ Hrest) as (Hrefs & Hn2 & Hold & Hnew).
    rewrite Hn1 in Hrefs, Hn2, Hold, Hnew.
    assert (Hother : forall r, r <> nextObject o -> objects o1 !! r = objects o !! r).
    { intros r Hr. rewrite Hobj1. unfold o0; simpl.
      destruct (TabsBarItem.imageIcon model).
      - by rewrite lookup_insert_ne.
      - rewrite lookup_alter_ne by done. by rewrite lookup_insert_ne. }
    repeat split.
    + simpl. by rewrite Hrefs.
    + simpl. lia.
    + intros r Hr. rewrite Hold by lia. apply Hother. lia.
    + intros [|k] m Hk; simpl in Hk.
      * injection Hk as <-. rewrite Nat.add_0_r. rewrite Hold by lia.
        rewrite Hobj1. unfold o0; simpl.
        destruct (applyBadge_fields (TabsBarItem.badge model)
                    (UITabBarItem.mk (default "" (TabsBarItem.title model)) None None
                                     (Z.of_nat idx) None)) as (Ht & Him & Hs & Htag & Hb).
        fold item in Ht, Him, Hs, Htag, Hb.
        unfold made. destruct (TabsBarItem.imageIcon model).
        -- rewrite lookup_insert_eq. eexists. split; [done|].
           rewrite Ht, Htag, Hb, Hs, Him. by rewrite Nat.add_0_r.
        -- rewrite lookup_alter_eq, lookup_insert_eq. simpl. eexists. split; [done|].
           simpl. rewrite Ht, Htag, Hb, Hs. by rewrite Nat.add_0_r.
      * destruct (Hnew _ _ Hk) as (b & Hb & Hmade).
        exists b. split.
        -- by replace (nextObject o + S k)%nat with (S (nextObject o) + k)%nat by lia.
        -- by replace (idx + S k)%nat with (S idx + k)%nat by lia.
Qed.

Local Opaque applyColorConfiguration.

(** What [update] leaves behind, field by field. *)
Lemma update_shape P its initialId visible sel unsel opacity o o' :
  update P its initialId visible sel unsel opacity o = Done o' ->
  exists index o2,
    uniqueKeysWithValues (enumeratedIds its) ∅ = Done index /\
    makeBarItems P 0 its
      (set_idToIndex index
         (set_configuration its sel unsel (CGFloat_max 0%Q (CGFloat_min opacity 1%Q)) o))
    = (seq (nextObject o) (length its), o2) /\
    items o' = its /\ idToIndex o' = index /\
    tabItems (tabBar o') = Some (seq (nextObject o) (length its)) /\
    objects o' = objects o2 /\
    view_isHidden o' = negb visible /\
    interactions o' = interactions o /\
    lastSelectedIndex o'
    = match initialId ≫= (fun i => index !! i) with
      | Some idx =>
          if (idx <? length its)%nat then Some (Z.of_nat idx)
          else if bool_decide (its = []) then None else Some 0%Z
      | None => if bool_decide (its = []) then None else Some 0%Z
      end.
Proof.
  unfold update.
  destruct (uniqueKeysWithValues (enumeratedIds its) ∅) as [index|] eqn:Hidx; [|done].
  simpl.
  destruct (makeBarItems P 0 its _) as [refs o2] eqn:Hmk.
  destruct (makeBarItems_spec _ _ _ _ _ _ Hmk) as (Hst & Hlen & _ & _ & Htags).
  destruct (makeBarItems_objects _ _ _ _ _ _ Hmk) as (Hrefs & _). simpl in Hrefs.
  unfold static in Hst. simpl in Hst.
  injection Hst as Hitems Hindex Hbar Hlast Hon2 Hsup Hint _ _ _.
  set (oA := applyColorConfiguration _).
  assert (HcoreA : core oA = (its, index, Some refs, None, lastSelectedIndex o, onInteraction o,
                              UITabBarItem.tag <$> objects o2,
                              map (fun button => mkRecognizer (45 # 100)%Q false button)
                                  (seq 0 (length refs)))).
  { unfold oA. rewrite applyColorConfiguration_core. unfold core; simpl.
    by rewrite Hitems, Hindex, Hlast, Hon2. }
  assert (HframeA : frame oA = (suppressNextSelectionEvent o, interactions o, objects o2,
                                nextObject o2, loader o2, mainQueue o2, view_isHidden o2)).
  { unfold oA. rewrite applyColorConfiguration_frame. unfold frame; simpl.
    by rewrite Hsup, Hint. }
  unfold core in HcoreA. injection HcoreA as HiA HxA HtA HsA HlA HonA HtagA HrecA.
  unfold frame in HframeA. injection HframeA as HsupA HintA HobjA _ _ _ _.
  assert (HtagOf : forall ref, tagOf ref oA = tagOf ref o2)
    by (intros ref; by rewrite !tagOf_tags, HtagA).
  intros Hdone. exists index, o2. split; [done|]. split; [by rewrite <- Hrefs|].
  rewrite HtA, HxA in Hdone. subst refs.
  assert (Hfirst : forall rest firstItem, seq (nextObject o) (length its) = firstItem :: rest ->
            tagOf firstItem oA = 0%Z /\ its <> []).
  { intros rest firstItem Heq. rewrite HtagOf.
    destruct (Htags 0%nat firstItem) as [-> _]; [by rewrite Heq|].
    split; [done|]. intros ->. done. }
  rewrite length_seq in Hdone.
  destruct (initialId ≫= (fun i => index !! i)) as [idx|] eqn:Hinit.
  - destruct (idx <? length its)%nat eqn:Hlt.
    + injection Hdone as <-. simpl. by rewrite HiA, HxA, HtA, HobjA, HintA.
    + destruct (seq (nextObject o) (length its)) as [|firstItem rest] eqn:Hseq;
        injection Hdone as <-; simpl; rewrite HiA, HxA, HtA, HobjA, HintA.
      * destruct its; [|done]. by rewrite bool_decide_eq_true_2.
      * destruct (Hfirst _ _ eq_refl) as [-> Hne]. by rewrite bool_decide_eq_false_2.
  - destruct (seq (nextObject o) (length its)) as [|firstItem rest] eqn:Hseq;
      injection Hdone as <-; simpl; rewrite HiA, HxA, HtA, HobjA, HintA.
    + destruct its; [|done]. by rewrite bool_decide_eq_true_2.
    + destruct (Hfirst _ _ eq_refl) as [-> Hne]. by rewrite bool_decide_eq_false_2.
Qed.

Lemma enumeratedIds_elem its id pos :
  (id, pos) ∈ enumeratedIds its <->
  exists model, its !! pos = Some model /\ TabsBarItem.id model = id.
Proof.
  unfold enumeratedIds. rewrite elem_of_lookup_imap. split.
  - intros (i & model & [= -> ->] & Hi). eauto.
  - intros (model & Hm & <-). eauto.
Qed.

Lemma update_index P its initialId visible sel unsel opacity o o' :
  update P its initialId visible sel unsel opacity o = Done o' ->
  forall id pos,
    idToIndex o' !! id = Some pos <->
    exists model, its !! pos = Some model /\ TabsBarItem.id model = id.
Proof.
  intros (index & o2 & Hidx & _ & _ & -> & _)%update_shape id pos.
  rewrite <- enumeratedIds_elem. split.
  - intros Hin. destruct (uniqueKeysWithValues_sound _ _ _ Hidx _ _ Hin) as [H|H]; [|done].
    by rewrite lookup_empty in H.
  - by apply (uniqueKeysWithValues_complete _ _ _ Hidx).
Qed.

Lemma update_wellIndexed P its initialId visible sel unsel opacity o o' :
  update P its initialId visible sel unsel opacity o = Done o' -> wellIndexed o'.
Proof.
  intros Hup. pose proof (update_index _ _ _ _ _ _ _ _ _ Hup) as Hindex.
  destruct (update_shape _ _ _ _ _ _ _ _ _ Hup)
    as (index & o2 & Hidx & Hmk & Hi & Hx & Ht & Hobj & _).
  destruct (makeBarItems_objects _ _ _ _ _ _ Hmk) as (_ & _ & _ & Hnew). simpl in Hnew.
  split.
  - intros pos model Hpos. apply Hindex. rewrite Hi in Hpos. eauto.
  - rewrite Ht. simpl. apply NoDup_seq.
  - rewrite Ht. simpl. intros ref Href%elem_of_seq.
    destruct (lookup_lt_is_Some_2 its (ref - nextObject o)) as [model Hm]; [lia|].
    destruct (Hnew _ _ Hm) as (b & Hb & _). rewrite Hobj.
    replace (nextObject o + (ref - nextObject o))%nat with ref in Hb by lia. by eexists.
Qed.

Lemma reachable_wellIndexed P o : reachable P o -> wellIndexed o.
Proof.
  induction 1 as [|o o' Hr IH Hstep].
  - split; simpl; [done|constructor|]. intros ref Href. by apply elem_of_nil in Href.
  - destruct Hstep.
    + by eapply update_wellIndexed.
    + eapply wellIndexed_layout; [symmetry; apply select_layout|done].
    + eapply wellIndexed_layout; [symmetry; apply core_layout, setBadge_core|done].
    + eapply wellIndexed_layout; [symmetry; apply userSelects_layout|done].
    + eapply wellIndexed_layout; [symmetry; apply handleLongPress_layout|done].
    + eapply wellIndexed_layout; [symmetry; apply core_layout, runMainQueue_core|done].
    + eapply wellIndexed_layout; [symmetry; apply core_layout, dataTaskFinished_core|done].
    + eapply wellIndexed_layout; [symmetry; apply core_layout, retryFired_core|done].
Qed.

(** The bar item behind a position of a consistent overlay. *)
Lemma barItem_ref o pos model :
  consistent o -> wellIndexed o -> items o !! pos = Some model ->
  exists refs ref b,
    tabItems (tabBar o) = Some refs /\ refs !! pos = Some ref /\ objects o !! ref = Some b /\
    barItem pos o = Some b /\ tagOf ref o = Z.of_nat pos.
Proof.
  intros Hc Hw Hpos. pose proof (lookup_lt_Some _ _ _ Hpos) as Hlt.
  rewrite <- (bar_length _ Hc) in Hlt.
  destruct (tabItems (tabBar o)) as [refs|] eqn:Ht; simpl in Hlt; [|lia].
  destruct (lookup_lt_is_Some_2 refs pos Hlt) as [ref Href].
  destruct (bar_objects _ Hw ref) as [b Hb].
  { rewrite Ht. simpl. by eapply list_elem_of_lookup_2. }
  exists refs, ref, b. repeat split; try done.
  - unfold barItem. rewrite Ht. simpl. rewrite Href. done.
  - apply (bar_tags _ Hc). by rewrite Ht.
Qed.

End LayoutFacts.

Section Taps.
Import TabsBarOverlay Selection Layout OverlayFacts LayoutFacts.
Local Opaque applyColorConfiguration.
Context (P : Platform).

(** X6. A tap on a tab that no long press suppresses selects the tab and tells
    the listener once, with the tab's id and [tap]. *)
Theorem tap_selects_and_notifies o pos model :
  reachable P o ->
  suppressNextSelectionEvent o = false ->
  items o !! pos = Some model ->
  let o' := userSelects pos o in
  selectedId o' = Some (TabsBarItem.id model) /\
  highlightedId o' = Some (TabsBarItem.id model) /\
  interactions o' = (interactions o ++ [(TabsBarItem.id model, tap)])%list /\
  items o' = items o.
Proof.
  intros Hr Hsup Hpos o'.
  pose proof (reachable_consistent _ _ Hr) as Hc.
  pose proof (reachable_wellIndexed _ _ Hr) as Hw.
  assert (Hc' : consistent o') by (by apply userSelects_consistent).
  destruct (barItem_ref _ _ _ Hc Hw Hpos) as (refs & ref & b & Ht & Href & Hb & _ & Htag).
  pose proof (lookup_lt_Some _ _ _ Hpos) as Hlt.
  assert (Hsel : selectedId o' = Some (TabsBarItem.id model) /\
                 interactions o' = (interactions o ++ [(TabsBarItem.id model, tap)])%list /\
                 items o' = items o).
  { unfold o', userSelects. rewrite Ht. simpl. rewrite Href.
    change (tagOf ref (set_selectedItem (Some ref) o)) with (tagOf ref o). rewrite Htag.
    unfold tabBar_didSelect. simpl.
    replace ((0 <=? Z.of_nat pos)%Z && (Z.of_nat pos <? Z.of_nat (length (items o)))%Z)
      with true by (symmetry; apply andb_true_iff; split; [apply Z.leb_le|apply Z.ltb_lt]; lia).
    rewrite Hsup.
    set (o1 := applyColorConfiguration _).
    pose proof (applyColorConfiguration_core
                  (set_lastSelectedIndex (Some (Z.of_nat pos)) (set_selectedItem (Some ref) o)))
      as Hcore.
    pose proof (applyColorConfiguration_interactions
                  (set_lastSelectedIndex (Some (Z.of_nat pos)) (set_selectedItem (Some ref) o)))
      as Hint.
    fold o1 in Hcore, Hint. unfold core in Hcore. simpl in Hcore, Hint.
    injection Hcore as Hi _ _ _ Hl Hon _ _.
    rewrite Hi, Nat2Z.id, Hpos.
    unfold callOnInteraction. rewrite Hon, (listener_set _ Hc).
    unfold selectedId. simpl. rewrite Hl, Hi. simpl. rewrite Nat2Z.id, Hpos, Hint. done. }
  destruct Hsel as (Hs & Hi & Hit). repeat split; try done.
  by rewrite (highlighted_is_selected _ Hc').
Qed.

(** X7. [select(id:)] with the id of a tab selects that tab, on the overlay and
    on the bar, and tells no listener. *)
Theorem select_known_id_selects o pos model :
  reachable P o ->
  items o !! pos = Some model ->
  let o' := select (TabsBarItem.id model) o in
  selectedId o' = Some (TabsBarItem.id model) /\
  highlightedId o' = Some (TabsBarItem.id model) /\
  interactions o' = interactions o /\
  items o' = items o.
Proof.
  intros Hr Hpos o'.
  pose proof (reachable_consistent _ _ Hr) as Hc.
  pose proof (reachable_wellIndexed _ _ Hr) as Hw.
  assert (Hc' : consistent o') by (by apply select_consistent).
  destruct (barItem_ref _ _ _ Hc Hw Hpos) as (refs & ref & b & Ht & Href & _).
  pose proof (lookup_lt_Some _ _ _ Href) as Hlt.
  assert (Hsel : selectedId o' = Some (TabsBarItem.id model) /\
                 interactions o' = interactions o /\ items o' = items o).
  { unfold o', select. rewrite (index_complete _ Hw _ _ Hpos), Ht.
    apply Nat.ltb_lt in Hlt as ->.
    set (o0 := set_lastSelectedIndex _ _).
    pose proof (applyColorConfiguration_core o0) as Hcore.
    pose proof (applyColorConfiguration_interactions o0) as Hint.
    unfold core in Hcore. simpl in Hcore, Hint. injection Hcore as Hi _ _ _ Hl _ _ _.
    unfold selectedId. rewrite Hl, Hi, Hint. simpl. by rewrite Nat2Z.id, Hpos. }
  destruct Hsel as (Hs & Hi & Hit). repeat split; try done.
  by rewrite (highlighted_is_selected _ Hc').
Qed.

End Taps.

Lemma tap_selects_and_notifies_witness :
  let o' := TabsBarOverlay.userSelects 1 Demo.configured in
  Selection.selectedId o' = Some "b" /\
  TabsBarOverlay.interactions o' = [("b", tap)].
Proof.
  destruct (tap_selects_and_notifies Demo.platform Demo.configured 1
              (TabsBarItem.mk "b" None "gear" None None None)
              Demo_configured_reachable)
    as (Hsel & _ & Hint & _).
  - vm_compute. reflexivity.
  - vm_compute. reflexivity.
  - split; [exact Hsel|exact Hint].
Defined.

Lemma select_known_id_selects_witness :
  let o' := TabsBarOverlay.select "c" Demo.configured in
  Selection.selectedId o' = Some "c" /\
  TabsBarOverlay.interactions o' = TabsBarOverlay.interactions Demo.configured.
Proof.
  destruct (select_known_id_selects Demo.platform Demo.configured 2
              (TabsBarItem.mk "c" None "person" None None None)
              Demo_configured_reachable)
    as (Hsel & _ & Hint & _).
  - vm_compute. reflexivity.
  - split; [exact Hsel|exact Hint].
Defined.

Section Update.
Import TabsBarOverlay Selection Layout OverlayFacts LayoutFacts.
Local Opaque applyColorConfiguration.
Context (P : Platform).

(** X8. [update] selects the tab named by [initialId] when the new list has a
    tab of that id, and the first tab otherwise (no tab when the list is
    empty); the bar highlights the same tab, the view is hidden unless
    [visible], and no listener is told. *)
Theorem update_initial_selection its initialId visible sel unsel opacity o o' :
  reachable P o ->
  update P its initialId visible sel unsel opacity o = Done o' ->
  let ids := map TabsBarItem.id its in
  selectedId o'
  = match initialId with
    | Some id => if bool_decide (id ∈ ids) then Some id else head ids
    | None => head ids
    end /\
  highlightedId o' = selectedId o' /\
  view_isHidden o' = negb visible /\
  interactions o' = interactions o.
Proof.
  intros Hr Hup ids.
  pose proof (reachable_consistent _ _ Hr) as Hc.
  pose proof (update_consistent _ _ _ _ _ _ _ _ _ (listener_set _ Hc) Hup) as Hc'.
  pose proof (update_index _ _ _ _ _ _ _ _ _ Hup) as Hindex.
  destruct (update_shape _ _ _ _ _ _ _ _ _ Hup)
    as (index & o2 & _ & _ & Hi & Hx & _ & _ & Hhid & Hint & Hlast).
  split; [|by rewrite (highlighted_is_selected _ Hc')].
  assert (Hhead : (if bool_decide (its = []) then None else Some 0%Z)
                  ≫= (fun i => TabsBarItem.id <$> its !! Z.to_nat i) = head ids).
  { unfold ids. by destruct its. }
  unfold selectedId. rewrite Hlast, Hi. subst index.
  destruct initialId as [id|]; simpl; [|exact Hhead].
  destruct (idToIndex o' !! id) as [pos|] eqn:Hid.
  - destruct (proj1 (Hindex id pos) Hid) as (model & Hm & Hmid).
    pose proof (lookup_lt_Some _ _ _ Hm) as Hlt. apply Nat.ltb_lt in Hlt as ->.
    simpl. rewrite Nat2Z.id, Hm. simpl.
    rewrite (bool_decide_eq_true_2 (id ∈ ids)); [by rewrite Hmid|].
    unfold ids. apply list_elem_of_fmap. exists model. split; [done|].
    by eapply list_elem_of_lookup_2.
  - rewrite (bool_decide_eq_false_2 (id ∈ ids)); [exact Hhead|].
    unfold ids. intros (model & -> & (pos & Hpos)%list_elem_of_lookup_1)%list_elem_of_fmap.
    assert (idToIndex o' !! TabsBarItem.id model = Some pos) by (apply Hindex; eauto).
    congruence.
Qed.

(** X9. After [update] the bar shows one item per tab, in order: its title (or
    the empty string), its position as tag, the text of its badge, no
    selected image, and as image the SF Symbol of [systemIcon] (the empty
    image when there is none of that name) unless the tab has an
    [imageIcon], whose image is not there yet. *)
Theorem update_bar_items its initialId visible sel unsel opacity o o' :
  update P its initialId visible sel unsel opacity o = Done o' ->
  items o' = its /\
  (forall pos, (length its <= pos)%nat -> barItem pos o' = None) /\
  (forall pos model, its !! pos = Some model ->
     exists b, barItem pos o' = Some b /\
       UITabBarItem.title b = default "" (TabsBarItem.title model) /\
       UITabBarItem.tag b = Z.of_nat pos /\
       UITabBarItem.badgeValue b = badgeText (TabsBarItem.badge model) /\
       UITabBarItem.selectedImage b = None /\
       UITabBarItem.image b
       = match TabsBarItem.imageIcon model with
         | Some _ => None
         | None =>
             Some (default ImageEmpty (UIImage_systemName P (TabsBarItem.systemIcon model)))
         end).
Proof.
  intros Hup.
  destruct (update_shape _ _ _ _ _ _ _ _ _ Hup)
    as (index & o2 & _ & Hmk & Hi & _ & Ht & Hobj & _).
  destruct (makeBarItems_objects _ _ _ _ _ _ Hmk) as (_ & _ & _ & Hnew). simpl in Hnew.
  split; [done|]. split.
  - intros pos Hpos. unfold barItem. rewrite Ht. simpl.
    rewrite lookup_seq_ge by done. done.
  - intros pos model Hm. destruct (Hnew _ _ Hm) as (b & Hb & Hmade).
    exists b. split; [|exact Hmade].
    unfold barItem. rewrite Ht. simpl.
    rewrite lookup_seq_lt by (by eapply lookup_lt_Some). simpl. by rewrite Hobj.
Qed.

End Update.

Lemma update_initial_selection_witness :
  Selection.selectedId
    (Samples.overlayOf
       (TabsBarOverlay.update Demo.platform Demo.threeTabsItems (Some "zz") false None None
                              (7 # 10) Demo.configured))
  = Some "a".
Proof.
  destruct (update_initial_selection Demo.platform Demo.threeTabsItems (Some "zz") false
              None None (7 # 10) Demo.configured
              (Samples.overlayOf
                 (TabsBarOverlay.update Demo.platform Demo.threeTabsItems (Some "zz") false
                    None None (7 # 10) Demo.configured))
              Demo_configured_reachable) as (Hsel & _).
  - vm_compute. reflexivity.
  - exact Hsel.
Defined.

Lemma update_bar_items_witness :
  TabsBarOverlay.items
    (Samples.overlayOf
       (TabsBarOverlay.update Demo.platform Demo.threeTabsItems None true None None
                              (7 # 10) TabsBarOverlay.init))
  = Demo.threeTabsItems.
Proof.
  destruct (update_bar_items Demo.platform Demo.threeTabsItems None true None None (7 # 10)
              TabsBarOverlay.init
              (Samples.overlayOf
                 (TabsBarOverlay.update Demo.platform Demo.threeTabsItems None true None None
                    (7 # 10) TabsBarOverlay.init))) as (Hitems & _).
  - vm_compute. reflexivity.
  - exact Hitems.
Defined.
(** * Facts about the bridge methods *)

Module BadgeFacts.
Import TabsBarOverlay Selection Layout OverlayFacts LayoutFacts.

Lemma setBadge_frame id value o :
  items (setBadge id value o) = items o /\
  lastSelectedIndex (setBadge id value o) = lastSelectedIndex o /\
  tabBar (setBadge id value o) = tabBar o /\
  interactions (setBadge id value o) = interactions o.
Proof. unfold setBadge. by repeat case_match. Qed.

End BadgeFacts.

Section Badges.
Import TabsBarOverlay Selection Layout OverlayFacts LayoutFacts BadgeFacts.
Context (P : Platform).

(** X10. [setBadge(id:value:)] writes the text of the badge on the tab of that id
    and nothing else: the tab keeps its title and images, the other tabs
    keep their items, the selection stays and no listener is told.  With an
    id that no tab has the overlay is unchanged. *)
Theorem setBadge_shows_badge o id value :
  reachable P o ->
  (id ∉ currentIds o -> setBadge id value o = o) /\
  (forall pos model,
     items o !! pos = Some model -> TabsBarItem.id model = id ->
     let o' := setBadge id value o in
     (exists b b',
        barItem pos o = Some b /\ barItem pos o' = Some b' /\
        UITabBarItem.badgeValue b' = badgeText value /\
        UITabBarItem.title b' = UITabBarItem.title b /\
        UITabBarItem.image b' = UITabBarItem.image b /\
        UITabBarItem.selectedImage b' = UITabBarItem.selectedImage b /\
        UITabBarItem.tag b' = UITabBarItem.tag b) /\
     (forall pos', pos' <> pos -> barItem pos' o' = barItem pos' o) /\
     selectedId o' = selectedId o /\
     highlightedId o' = highlightedId o /\
     interactions o' = interactions o).
Proof.
  intros Hr.
  pose proof (reachable_consistent _ _ Hr) as Hc.
  pose proof (reachable_wellIndexed _ _ Hr) as Hw.
  split.
  - intros Hid. unfold setBadge.
    destruct (idToIndex o !! id) as [idx|] eqn:Hidx; [|done].
    destruct (index_sound _ Hc _ _ Hidx) as (model & Hm & <-).
    destruct Hid. unfold currentIds. apply list_elem_of_fmap. exists model.
    split; [done|]. by eapply list_elem_of_lookup_2.
  - intros pos model Hpos <- o'.
    destruct (barItem_ref _ _ _ Hc Hw Hpos) as (refs & ref & b & Ht & Href & Hb & Hbar & _).
    pose proof (lookup_lt_Some _ _ _ Href) as Hlt.
    destruct (setBadge_frame (TabsBarItem.id model) value o) as (Hi & Hl & Hbar' & Hint).
    fold o' in Hi, Hl, Hbar', Hint.
    assert (Hobj : objects o' = alter (applyBadge value) ref (objects o)).
    { unfold o', setBadge. rewrite (index_complete _ Hw _ _ Hpos), Ht.
      apply Nat.ltb_lt in Hlt as ->. by rewrite Href. }
    repeat split.
    + exists b, (applyBadge value b).
      destruct (applyBadge_fields value b) as (H1 & H2 & H3 & H4 & H5).
      repeat split; try done.
      unfold barItem. rewrite Hbar', Ht. simpl. rewrite Href. simpl.
      by rewrite Hobj, lookup_alter_eq, Hb.
    + intros pos' Hne. unfold barItem. rewrite Hbar', Ht. simpl.
      destruct (refs !! pos') as [ref'|] eqn:Href'; [|done]. simpl.
      rewrite Hobj, lookup_alter_ne; [done|]. intros ->.
      apply Hne. pose proof (bar_distinct _ Hw) as Hnd. rewrite Ht in Hnd. simpl in Hnd.
      by eapply NoDup_lookup.
    + unfold selectedId. by rewrite Hl, Hi.
    + unfold highlightedId. rewrite Hbar', Hi.
      destruct (selectedItem (tabBar o)) as [sel|]; [|done]. simpl.
      replace (tagOf sel o') with (tagOf sel o); [done|].
      rewrite !tagOf_tags. unfold o'.
      pose proof (setBadge_core (TabsBarItem.id model) value o) as Hcore.
      unfold core in Hcore. by injection Hcore as _ _ _ _ _ _ -> _.
    + done.
Qed.

End Badges.

Lemma setBadge_shows_badge_witness :
  let o' := TabsBarOverlay.setBadge "b" (Some (badge_number 3)) Demo.configured in
  (exists b', Layout.barItem 1 o' = Some b' /\ UITabBarItem.badgeValue b' = Some "3") /\
  Layout.barItem 0 o' = Layout.barItem 0 Demo.configured.
Proof.
  destruct (setBadge_shows_badge Demo.platform Demo.configured "b"
              (Some (badge_number 3)) Demo_configured_reachable) as [_ Hsome].
  destruct (Hsome 1%nat (TabsBarItem.mk "b" None "gear" None None None))
    as ((b & b' & _ & Hb' & Hbadge & _) & Hothers & _).
  - vm_compute. reflexivity.
  - reflexivity.
  - split; [exists b'; split; [exact Hb'|exact Hbadge]|].
    apply Hothers. discriminate.
Defined.

Section BadgeText.
Import Layout.

(** X11. A badge value (a number in the range of [Int], ["dot"] or [null])
    shows the same text whether it comes with [configure] or with
    [setBadge]: the number when it is a positive integer, a bullet for
    ["dot"], and nothing for [null], zero, a negative number or a number
    with a fractional part. *)
Theorem badge_text_of_value v call o js :
  BadgeValue.representable v ->
  JS.get "value" call = Some (BadgeValue.toJS v) ->
  JS.get "badge" o = Some (BadgeValue.toJS v) ->
  JSItem.decode o = Some js ->
  badgeText (PluginCalls.badgeValueOf call) = BadgeValue.text v /\
  badgeText (TabsBarPlugin.convertBadge (JSItem.badge js)) = BadgeValue.text v.
Proof.
  intros _ Hcall Hbadge Hdec. split.
  - unfold PluginCalls.badgeValueOf, JS.getString, JS.getInt. rewrite Hcall.
    destruct v as [n| |]; simpl; [|reflexivity|reflexivity].
    destruct (Qden (Qred n)) as [?|?|]; [reflexivity|reflexivity|]. simpl.
    destruct (Z.ltb_spec (Qnum (Qred n)) 0) as [Hneg|Hpos].
    + replace (0 <? Qnum (Qred n))%Z with false by (symmetry; apply Z.ltb_ge; lia). done.
    + unfold badgeText. simpl. rewrite Z.gtb_ltb. by destruct (0 <? Qnum (Qred n))%Z.
  - assert (Hb : JS.decodeIfPresent JSBadge.decode "badge" o = Some (JSItem.badge js)).
    { unfold JSItem.decode in Hdec.
      destruct (JS.decode JS.asString "id" o); [|done]. simpl in Hdec.
      destruct (JS.decodeIfPresent JS.asString "title" o); [|done]. simpl in Hdec.
      destruct (JS.decodeIfPresent JS.asString "systemIcon" o); [|done]. simpl in Hdec.
      destruct (JS.decodeIfPresent JS.asString "image" o); [|done]. simpl in Hdec.
      destruct (JS.decodeIfPresent JSImageIcon.decode "imageIcon" o); [|done]. simpl in Hdec.
      destruct (JS.decodeIfPresent JSBadge.decode "badge" o); [|done]. simpl in Hdec.
      by injection Hdec as <-. }
    unfold JS.decodeIfPresent in Hb. rewrite Hbadge in Hb.
    destruct v as [n| |]; simpl in Hb |- *.
    + destruct (Qden (Qred n)) as [?|?|]; injection Hb as <-; [reflexivity|reflexivity|].
      simpl. unfold badgeText. simpl. rewrite Z.gtb_ltb.
      by destruct (0 <? Qnum (Qred n))%Z.
    + by injection Hb as <-.
    + by injection Hb as <-.
Qed.

End BadgeText.

Lemma badge_text_of_value_witness :
  Layout.badgeText (PluginCalls.badgeValueOf [("value", JS.JSNumber 5)]) = Some "5" /\
  Layout.badgeText
    (TabsBarPlugin.convertBadge (Some (JSBadge.number 5))) = Some "5".
Proof.
  apply (badge_text_of_value (BadgeValue.Number 5) [("value", JS.JSNumber 5)]
           Samples.badged (JSItem.mk "a" None None None None (Some (JSBadge.number 5)))).
  - vm_compute. split; [discriminate|reflexivity].
  - reflexivity.
  - reflexivity.
  - vm_compute. reflexivity.
Defined.

Module ColourFacts.
Import TabsBarOverlay Selection Layout OverlayFacts LayoutFacts.
Local Open Scope Q_scope.

(** The colours of the bar after [applyColorConfiguration]. *)
Lemma applyColorConfiguration_colours o :
  let o' := applyColorConfiguration o in
  tintColor (tabBar o') = from_option Some (tintColor (tabBar o)) (selectedIconColor o) /\
  unselectedItemTintColor (tabBar o')
  = from_option Some (unselectedItemTintColor (tabBar o)) (unselectedIconColor o) /\
  titleTextColors (tabBar o')
  = Some (default label (selectedIconColor o),
          withAlphaComponent (default label (unselectedIconColor o))
            (CGFloat_max 0 (CGFloat_min (titleOpacity o) 1))) /\
  selectedIconColor o' = selectedIconColor o /\
  unselectedIconColor o' = unselectedIconColor o /\
  titleOpacity o' = titleOpacity o.
Proof.
  unfold applyColorConfiguration, applyTitleTextAttributes.
  destruct o as [its idx bar oi sel unsel op rec sup last hid objs nxt ld q ints].
  by destruct sel, unsel.
Qed.

Lemma clamp_spec x :
  let c := CGFloat_max 0 (CGFloat_min x 1) in
  0 <= c /\ c <= 1 /\
  (0 <= x -> x <= 1 -> c == x) /\ (x < 0 -> c == 0) /\ (1 < x -> c == 1).
Proof.
  unfold CGFloat_max, CGFloat_min.
  destruct (Qle_bool x 1) eqn:H1.
  - apply Qle_bool_iff in H1. destruct (Qle_bool 0 x) eqn:H0.
    + apply Qle_bool_iff in H0. repeat split; try done.
      * intros Hx. exfalso. by apply (Qlt_not_le _ _ Hx).
      * intros Hx. exfalso. by apply (Qlt_not_le _ _ Hx).
    + assert (Hneg : x < 0).
      { apply Qnot_le_lt. intros H. apply Qle_bool_iff in H. congruence. }
      repeat split; try done.
      * intros Hx. exfalso. by apply (Qlt_not_le _ _ Hneg).
      * intros Hx. exfalso. apply (Qlt_not_le _ _ Hx). done.
  - assert (Hbig : 1 < x).
    { apply Qnot_le_lt. intros H. apply Qle_bool_iff in H. congruence. }
    simpl. repeat split; try done.
    + intros _ Hx. exfalso. by apply (Qlt_not_le _ _ Hbig).
    + intros Hx. exfalso. apply (Qlt_not_le 1 0); [|done].
      apply Qlt_trans with x; done.
Qed.

Local Opaque applyColorConfiguration.

Lemma update_colours P its initialId visible sel unsel opacity o o' :
  update P its initialId visible sel unsel opacity o = Done o' ->
  selectedIconColor o' = sel /\ unselectedIconColor o' = unsel /\
  titleOpacity o' = CGFloat_max 0 (CGFloat_min opacity 1) /\
  tintColor (tabBar o') = from_option Some (tintColor (tabBar o)) sel /\
  unselectedItemTintColor (tabBar o')
  = from_option Some (unselectedItemTintColor (tabBar o)) unsel /\
  titleTextColors (tabBar o')
  = Some (default label sel,
          withAlphaComponent (default label unsel)
            (CGFloat_max 0 (CGFloat_min (CGFloat_max 0 (CGFloat_min opacity 1)) 1))).
Proof.
  unfold update.
  destruct (uniqueKeysWithValues (enumeratedIds its) ∅) as [index|] eqn:Hidx; [|done].
  simpl.
  destruct (makeBarItems P 0 its _) as [refs o2] eqn:Hmk.
  destruct (makeBarItems_spec _ _ _ _ _ _ Hmk) as (Hst & _).
  unfold static in Hst. simpl in Hst.
  injection Hst as _ _ Hbar _ _ _ _ Hsel Hunsel Hop.
  set (oA := applyColorConfiguration _).
  destruct (applyColorConfiguration_colours
              (configureLongPressRecognizers (set_tabItems refs o2)))
    as (Htint & Huntint & Htitle & Hs & Hu & Ho).
  fold oA in Htint, Huntint, Htitle, Hs, Hu, Ho. simpl in Htint, Huntint, Htitle, Hs, Hu, Ho.
  rewrite Hbar, Hsel in Htint. rewrite Hbar, Hunsel in Huntint.
  rewrite Hsel, Hunsel, Hop in Htitle. rewrite Hsel in Hs. rewrite Hunsel in Hu.
  rewrite Hop in Ho.
  assert (Hall : forall last item,
    let o'' := set_view_isHidden (negb visible)
                 (set_lastSelectedIndex last (set_selectedItem item oA)) in
    selectedIconColor o'' = sel /\ unselectedIconColor o'' = unsel /\
    titleOpacity o'' = CGFloat_max 0 (CGFloat_min opacity 1) /\
    tintColor (tabBar o'') = from_option Some (tintColor (tabBar o)) sel /\
    unselectedItemTintColor (tabBar o'')
    = from_option Some (unselectedItemTintColor (tabBar o)) unsel /\
    titleTextColors (tabBar o'')
    = Some (default label sel,
            withAlphaComponent (default label unsel)
              (CGFloat_max 0 (CGFloat_min (CGFloat_max 0 (CGFloat_min opacity 1)) 1)))).
  { intros last item. simpl. by rewrite Hs, Hu, Ho, Htint, Huntint, Htitle. }
  assert (Hnone :
    let o'' := set_view_isHidden (negb visible) (set_lastSelectedIndex None oA) in
    selectedIconColor o'' = sel /\ unselectedIconColor o'' = unsel /\
    titleOpacity o'' = CGFloat_max 0 (CGFloat_min opacity 1) /\
    tintColor (tabBar o'') = from_option Some (tintColor (tabBar o)) sel /\
    unselectedItemTintColor (tabBar o'')
    = from_option Some (unselectedItemTintColor (tabBar o)) unsel /\
    titleTextColors (tabBar o'')
    = Some (default label sel,
            withAlphaComponent (default label unsel)
              (CGFloat_max 0 (CGFloat_min (CGFloat_max 0 (CGFloat_min opacity 1)) 1)))).
  { simpl. by rewrite Hs, Hu, Ho, Htint, Huntint, Htitle. }
  destruct (initialId ≫= _) as [idx|]; destruct (tabItems (tabBar oA)) as [[|? ?]|];
    try destruct (idx <? _)%nat; intros [= <-]; first [apply Hall | apply Hnone].
Qed.

End ColourFacts.

Module PluginFacts.
Import TabsBarOverlay.

(** The title opacity [configure] hands to [update]. *)
Lemma configure_resolved P call p q o :
  TabsBarPlugin.overlayVC (TabsBarPlugin.ensureOverlay p) = Some o ->
  TabsBarPlugin.configure P call p = TabsBarPlugin.Resolved (Done q) ->
  exists its o',
    update P its (JS.getString "initialId" call) (default true (JS.getBool "visible" call))
           (parseColor P (JS.getString "selectedIconColor" call))
           (parseColor P (JS.getString "unselectedIconColor" call))
           (match JS.getDouble "titleOpacity" call with
            | Some requestedTitleOpacity =>
                if Qle_bool 0 requestedTitleOpacity && Qle_bool requestedTitleOpacity 1
                then requestedTitleOpacity
                else TabsBarPlugin.defaultTitleOpacity
            | None => TabsBarPlugin.defaultTitleOpacity
            end) o = Done o' /\
    q = TabsBarPlugin.mk (Some o') (TabsBarPlugin.hostVC p).
Proof.
  intros Ho. unfold TabsBarPlugin.configure.
  destruct (JS.getArray_JSObject "items" call) as [itemsArr|]; [|done].
  destruct (JSItem.decodeAll itemsArr) as [jsItems|]; [|done].
  destruct (bool_decide _); [done|]. destruct (existsb _ _); [done|].
  destruct (Exec_map _ _) as [its|]; [|done].
  cbv zeta. rewrite Ho.
  assert (Hhost : TabsBarPlugin.hostVC (TabsBarPlugin.ensureOverlay p) = TabsBarPlugin.hostVC p).
  { unfold TabsBarPlugin.ensureOverlay. destruct p as [[ov|] []]; reflexivity. }
  rewrite Hhost.
  match goal with |- context [update P its ?i ?v ?s ?u ?t o] =>
    destruct (update P its i v s u t o) as [o'|] eqn:Hup end; [|done].
  simpl. intros [= <-]. by do 2 eexists.
Qed.

End PluginFacts.

Section Colours.
Import TabsBarOverlay PluginFacts ColourFacts.
Local Open Scope Q_scope.
Context (P : Platform).

(** X12. A resolved [configure] sets the tint of the bar to each colour that
    parses and leaves the tint it had for a colour that is absent or does
    not parse; the titles take the colours (or [label]) with the unselected
    one at the title opacity, which is the requested one when it lies in
    [0, 1] and 0.7 otherwise. *)
Theorem configure_colours_and_opacity call p q o :
  TabsBarPlugin.overlayVC (TabsBarPlugin.ensureOverlay p) = Some o ->
  TabsBarPlugin.configure P call p = TabsBarPlugin.Resolved (Done q) ->
  let sel := parseColor P (JS.getString "selectedIconColor" call) in
  let unsel := parseColor P (JS.getString "unselectedIconColor" call) in
  exists o' a,
    TabsBarPlugin.overlayVC q = Some o' /\
    tintColor (tabBar o') = from_option Some (tintColor (tabBar o)) sel /\
    unselectedItemTintColor (tabBar o')
    = from_option Some (unselectedItemTintColor (tabBar o)) unsel /\
    titleTextColors (tabBar o')
    = Some (default label sel, withAlphaComponent (default label unsel) a) /\
    a == titleOpacity o' /\
    titleOpacity o'
    == match JS.getDouble "titleOpacity" call with
       | Some requested =>
           if Qle_bool 0 requested && Qle_bool requested 1 then requested else 7 # 10
       | None => 7 # 10
       end.
Proof.
  intros Ho Hconf sel unsel.
  destruct (configure_resolved _ _ _ _ _ Ho Hconf) as (its & o' & Hup & ->).
  destruct (update_colours _ _ _ _ _ _ _ _ _ Hup) as (_ & _ & Hop & Htint & Hun & Htitle).
  set (given := match JS.getDouble "titleOpacity" call with
                | Some x => if Qle_bool 0 x && Qle_bool x 1 then x
                            else TabsBarPlugin.defaultTitleOpacity
                | None => TabsBarPlugin.defaultTitleOpacity
                end) in *.
  assert (Hrange : 0 <= given /\ given <= 1).
  { unfold given. destruct (JS.getDouble "titleOpacity" call) as [x|]; [|done].
    destruct (Qle_bool 0 x && Qle_bool x 1) eqn:Hx; [|done].
    apply andb_true_iff in Hx as [H0 H1]. by apply Qle_bool_iff in H0, H1. }
  destruct (clamp_spec given) as (_ & _ & Hsame & _).
  destruct (clamp_spec (CGFloat_max 0 (CGFloat_min given 1))) as (H0 & H1 & Hsame' & _).
  destruct (clamp_spec given) as (Hc0 & Hc1 & _).
  eexists o', _. split; [done|]. split; [exact Htint|]. split; [exact Hun|].
  split; [exact Htitle|]. rewrite Hop. split.
  - by apply Hsame'.
  - rewrite Hsame by tauto. reflexivity.
Qed.

End Colours.

Lemma configure_colours_and_opacity_witness :
  exists o',
    TabsBarPlugin.overlayVC
      (Samples.pluginOf
         (TabsBarPlugin.configure Samples.platform Samples.coloured Demo.freshPlugin))
    = Some o' /\
    TabsBarOverlay.tintColor (TabsBarOverlay.tabBar o')
    = Some (RGBA (255 / 255) (85 / 255) (119 / 255) 1) /\
    TabsBarOverlay.titleOpacity o' == 1 # 2.
Proof.
  destruct (configure_colours_and_opacity Samples.platform Samples.coloured Demo.freshPlugin
              (Samples.pluginOf
                 (TabsBarPlugin.configure Samples.platform Samples.coloured
                    Demo.freshPlugin))
              Samples.created)
    as (o' & a & Ho' & Htint & _ & _ & _ & Hop).
  - reflexivity.
  - vm_compute. reflexivity.
  - exists o'. split; [exact Ho'|]. split; [|exact Hop].
    rewrite Htint. vm_compute. reflexivity.
Defined.

Section Visibility.
Import TabsBarOverlay PluginCalls LayoutFacts PluginFacts.
Context (P : Platform).

(** X13. [hide] hides the view and turns its user interaction off, and only
    [show] turns it on again: a [configure] that shows the bar after a
    [hide] leaves it visible and deaf to touches until [show] is called. *)
Theorem configure_after_hide_keeps_touches_off p o call q :
  TabsBarPlugin.overlayVC (plugin p) = Some o ->
  JS.getBool "visible" call <> Some false ->
  TabsBarPlugin.configure P call (plugin (after (hide p))) = TabsBarPlugin.Resolved (Done q) ->
  exists p' o',
    configure P call (after (hide p)) = Done p' /\
    TabsBarPlugin.overlayVC (plugin p') = Some o' /\
    view_isHidden o' = false /\
    isUserInteractionEnabled (view p') = false /\
    TabsBarPlugin.overlayVC (plugin (after (show p'))) = Some (set_view_isHidden false o') /\
    isUserInteractionEnabled (view (after (show p'))) = true.
Proof.
  intros Ho Hvis Hconf. unfold configure. rewrite Hconf. simpl.
  assert (Hhidden : TabsBarPlugin.overlayVC (plugin (after (hide p)))
                    = Some (set_view_isHidden true o))
    by (unfold hide; by rewrite Ho).
  assert (Hensure : TabsBarPlugin.overlayVC
                      (TabsBarPlugin.ensureOverlay (plugin (after (hide p))))
                    = Some (set_view_isHidden true o))
    by (unfold TabsBarPlugin.ensureOverlay; by rewrite Hhidden).
  destruct (configure_resolved _ _ _ _ _ Hensure Hconf) as (its & o' & Hup & ->).
  destruct (update_shape _ _ _ _ _ _ _ _ _ Hup)
    as (_ & _ & _ & _ & _ & _ & _ & _ & Hhid & _).
  eexists. exists o'. split; [done|]. simpl. split; [done|]. split.
  - rewrite Hhid. destruct (JS.getBool "visible" call) as [[]|]; simpl; congruence.
  - unfold hide. rewrite Ho. simpl. split; [done|]. unfold show. simpl. done.
Qed.

End Visibility.

Lemma configure_after_hide_keeps_touches_off_witness :
  exists p',
    PluginCalls.configure Samples.platform Demo.threeTabs
      (PluginCalls.after (PluginCalls.hide Samples.configuredPlugin)) = Done p' /\
    PluginCalls.isUserInteractionEnabled (PluginCalls.view p') = false /\
    PluginCalls.isUserInteractionEnabled
      (PluginCalls.view (PluginCalls.after (PluginCalls.show p'))) = true.
Proof.
  destruct (configure_after_hide_keeps_touches_off Samples.platform Samples.configuredPlugin
              (Demo.overlayAfter
                 (TabsBarPlugin.configure Samples.platform Demo.threeTabs Demo.freshPlugin))
              Demo.threeTabs
              (Samples.pluginOf
                 (TabsBarPlugin.configure Samples.platform Demo.threeTabs
                    (PluginCalls.plugin
                       (PluginCalls.after (PluginCalls.hide Samples.configuredPlugin))))))
    as (p' & o' & Hconf & _ & _ & Hoff & _ & Hon).
  - vm_compute. reflexivity.
  - vm_compute. discriminate.
  - vm_compute. reflexivity.
  - exists p'. split; [exact Hconf|]. split; [exact Hoff|exact Hon].
Defined.
(** * Facts about the pictures and the touches *)

Module RingFacts.
Import Gfx ImageUtils GfxFacts.
Local Open Scope Q_scope.


End RingFacts.

Section Ring.
Import Gfx ImageUtils RingFacts.
Local Open Scope Q_scope.


End Ring.

Module StylingFacts.
Import Gfx ImageUtils GfxFacts.

(** A styled image has the target size, whatever the shape and the mode. *)
Lemma applyImageIconStyling_size P image shape size stk :
  exists styled,
    applyImageIconStyling P (Some image) shape size stk = (Some styled, stk) /\
    UIImage_size styled = targetSize.
Proof.
  unfold applyImageIconStyling, bind. cbv zeta.
  assert (Hresize : exists resized,
    (if Str.eqb (Str.lowercased size) "cover" then resizeImageAspectFill P image targetSize
     else if Str.eqb (Str.lowercased size) "stretch"
          then resizeImageToFill P image targetSize
     else if Str.eqb (Str.lowercased size) "fit"
          then resizeImageAspectFit P image targetSize
     else resizeImageAspectFit P image targetSize) stk = (resized, stk) /\
    UIImage_size resized = targetSize).
  { destruct (Str.eqb (Str.lowercased size) "cover");
      [eexists; split; [apply resizeImageAspectFill_run|done]|].
    destruct (Str.eqb (Str.lowercased size) "stretch");
      [eexists; split; [apply resizeImageToFill_run|done]|].
    destruct (Str.eqb (Str.lowercased size) "fit");
      eexists; (split; [apply resizeImageAspectFit_run|done]). }
  destruct Hresize as (resized & -> & Hsize).
  destruct (Str.eqb (Str.lowercased shape) "circle").
  - rewrite makeCircularImage_run. eexists. split; [reflexivity|]. exact Hsize.
  - destruct (Str.eqb (Str.lowercased shape) "square"); by exists resized.
Qed.

Lemma plugin_applyImageIconStyling_size P image shape size stk :
  exists styled,
    plugin_applyImageIconStyling P (Some image) shape size stk = (Some styled, stk) /\
    UIImage_size styled = plugin_targetSize.
Proof.
  unfold plugin_applyImageIconStyling, bind. cbv zeta.
  assert (Hresize : exists resized,
    (if Str.eqb (Str.lowercased size) "cover"
     then resizeImageAspectFill P image plugin_targetSize
     else if Str.eqb (Str.lowercased size) "stretch"
          then resizeImageToFill P image plugin_targetSize
     else if Str.eqb (Str.lowercased size) "fit"
          then plugin_resizeImageAspectFit P image plugin_targetSize
     else plugin_resizeImageAspectFit P image plugin_targetSize) stk = (resized, stk) /\
    UIImage_size resized = plugin_targetSize).
  { destruct (Str.eqb (Str.lowercased size) "cover");
      [eexists; split; [apply resizeImageAspectFill_run|done]|].
    destruct (Str.eqb (Str.lowercased size) "stretch");
      [eexists; split; [apply resizeImageToFill_run|done]|].
    destruct (Str.eqb (Str.lowercased size) "fit");
      eexists; (split; [apply plugin_resizeImageAspectFit_run|done]). }
  destruct Hresize as (resized & -> & Hsize).
  destruct (Str.eqb (Str.lowercased shape) "circle").
  - rewrite makeCircularImage_run. eexists. split; [reflexivity|]. exact Hsize.
  - destruct (Str.eqb (Str.lowercased shape) "square"); by exists resized.
Qed.

End StylingFacts.

Section InlineIcon.
Import TabsBarOverlay ImageUtils StylingFacts.
Context (P : Platform).

(** X15. A tab whose icon is an inline data URI that decodes: the call that loads
    it leaves the bar item and the network alone and queues one block; when
    the block runs, the item gets the styled picture, 20 by 20 before any
    ring, as image and as selected image, both with rendering mode
    [alwaysOriginal], and keeps its title, tag and badge. *)
Theorem inline_icon_is_shown_by_the_queued_block o model icon ref b picture :
  TabsBarItem.imageIcon model = Some icon ->
  isValidBase64DataUri (ImageIcon.image icon) = true ->
  loadImageFromBase64 P (ImageIcon.image icon) = Some picture ->
  objects o !! ref = Some b ->
  mainQueue o = [] ->
  let o1 := loadImageForItem P model ref o in
  let o2 := runMainQueue P o1 in
  objects o1 = objects o /\ loader o1 = loader o /\ length (mainQueue o1) = 1%nat /\
  exists styled b',
    Gfx.run (applyImageIconStyling P (Some picture) (ImageIcon.shape icon)
                                   (ImageIcon.size icon)) [] = Some styled /\
    UIImage_size styled = mkSize 20 20 /\
    objects o2 !! ref = Some b' /\
    UITabBarItem.image b'
    = Some (ImageWithMode alwaysOriginal (createUnselectedImageWithRing P styled icon o)) /\
    UITabBarItem.selectedImage b'
    = Some (ImageWithMode alwaysOriginal (createSelectedImageWithRing P styled icon o)) /\
    UITabBarItem.title b' = UITabBarItem.title b /\
    UITabBarItem.tag b' = UITabBarItem.tag b /\
    UITabBarItem.badgeValue b' = UITabBarItem.badgeValue b /\
    mainQueue o2 = [] /\
    (forall ref', ref' <> ref -> objects o2 !! ref' = objects o !! ref').
Proof.
  intros Hicon Hvalid Hload Hb Hq o1 o2.
  destruct (applyImageIconStyling_size P picture (ImageIcon.shape icon) (ImageIcon.size icon) [])
    as (styled & Hstyle & Hsize).
  assert (H1 : o1 = set_mainQueue
                      [(mkIconCompletion model icon ref, Some styled)] o).
  { unfold o1, loadImageForItem. rewrite Hicon. unfold processImageIcon.
    rewrite Hvalid, Hload. unfold callStyled, Gfx.run. rewrite Hstyle. simpl.
    unfold callIconCompletions. simpl. rewrite Hq. simpl.
    by destruct o. }
  unfold o2. clearbody o1. subst o1. clear o2. repeat split; try done.
  exists styled. eexists. split; [unfold Gfx.run; by rewrite Hstyle|].
  split; [exact Hsize|].
  unfold runMainQueue. simpl. rewrite lookup_alter_eq, Hb. simpl.
  repeat split; try done.
  intros ref' Hne. by rewrite lookup_alter_ne.
Qed.

End InlineIcon.

Lemma inline_icon_is_shown_by_the_queued_block_witness :
  let o1 := TabsBarOverlay.loadImageForItem Demo.platform Samples.inlineTab 0
              Demo.configured in
  length (TabsBarOverlay.mainQueue o1) = 1%nat /\
  exists b' picture,
    TabsBarOverlay.objects (TabsBarOverlay.runMainQueue Demo.platform o1) !! 0%nat = Some b' /\
    UITabBarItem.image b' = Some (ImageWithMode alwaysOriginal picture).
Proof.
  destruct (inline_icon_is_shown_by_the_queued_block Demo.platform Demo.configured
              Samples.inlineTab (ImageIcon.mk "circle" "cover" Samples.inlineIcon None) 0
              (UITabBarItem.mk "" (Some (ImageOfSymbol "house" (mkSize 24 24))) None 0 None)
              (ImageOfData [Byte.x89; Byte.x28; Byte.x28] (mkSize 40 40)))
    as (_ & _ & Hqueue & styled & b' & _ & _ & Hb' & Himage & _).
  - reflexivity.
  - vm_compute. reflexivity.
  - vm_compute. reflexivity.
  - vm_compute. reflexivity.
  - vm_compute. reflexivity.
  - split; [exact Hqueue|]. eexists b', _. split; [exact Hb'|exact Himage].
Defined.

Module TouchFacts.
Import TabsBarOverlay.
Local Open Scope Q_scope.




End TouchFacts.

Section Touch.
Import TabsBarOverlay TouchFacts.
Local Open Scope Q_scope.


End Touch.

(** * Facts about icon sources and the decoding of a call *)

Module DataUriFacts.
Import ImageUtils.

Lemma lowercasedAscii_comma c :
  Ascii.eqb (Str.lowercasedAscii c) "," = Ascii.eqb c ",".
Proof. destruct c as [[] [] [] [] [] [] [] []]; reflexivity. Qed.

(** A string that starts, in lower case, with [p] splits into a head that
    is [p] in lower case and the rest. *)
Lemma prefix_lowercased p : forall s,
  String.prefix p (Str.lowercased s) = true ->
  exists head rest, s = (head ++ rest)%string /\ Str.lowercased head = p.
Proof.
  induction p as [|c p IH]; intros s H.
  - exists "", s. done.
  - destruct s as [|d s]; simpl in H; [done|].
    destruct (ascii_dec c (Str.lowercasedAscii d)) as [->|]; [|done].
    destruct (IH _ H) as (head & rest & -> & <-).
    exists (String d head), rest. done.
Qed.

Lemma prefix_app p : forall head rest,
  Str.lowercased head = p -> String.prefix p (Str.lowercased (head ++ rest)) = true.
Proof.
  induction p as [|c p IH]; intros head rest H.
  - by destruct (Str.lowercased (head ++ rest)).
  - destruct head as [|d head]; [done|]. simpl in *. injection H as <- <-.
    destruct (ascii_dec _ _); [|done]. by apply IH.
Qed.

(** The payload follows the first comma when the head ends with the only
    comma it has. *)
Lemma afterFirstComma_head head payload :
  afterFirstComma (Str.lowercased head) = Some "" ->
  afterFirstComma (head ++ payload) = Some payload.
Proof.
  induction head as [|c head IH]; simpl; [done|].
  rewrite lowercasedAscii_comma. destruct (Ascii.eqb c ",").
  - intros [= H]. by destruct head.
  - exact IH.
Qed.

End DataUriFacts.

Section DataUri.
Import ImageUtils DataUriFacts.
Context (P : Platform).

(** X17. A source that [isValidBase64DataUri] accepts is one of the five heads
    [data:image/...;base64,], in any case, followed by a payload, and
    [loadImageFromBase64] decodes exactly that payload: base64 first, then
    the image.  The web validator accepts the same sources. *)
Theorem valid_data_uri_decodes_its_payload dataUri :
  isValidBase64DataUri dataUri = true ->
  exists head payload,
    dataUri = (head ++ payload)%string /\
    Str.lowercased head ∈ dataUriPrefixes /\
    loadImageFromBase64 P dataUri = base64Decode P payload ≫= UIImage_ofData P /\
    Web.ImageValidator.isValidBase64DataUri dataUri = true.
Proof.
  intros Hvalid.
  assert (Hweb : Web.ImageValidator.isValidBase64DataUri dataUri = true) by exact Hvalid.
  unfold isValidBase64DataUri in Hvalid.
  apply existsb_exists in Hvalid as (p & Hp & Hprefix).
  destruct (prefix_lowercased _ _ Hprefix) as (head & payload & -> & Hhead).
  exists head, payload. split; [done|]. split.
  - rewrite Hhead. by apply list_elem_of_In.
  - split; [|done]. unfold loadImageFromBase64.
    rewrite (afterFirstComma_head head payload).
    + by destruct (base64Decode P payload).
    + rewrite Hhead. unfold dataUriPrefixes in Hp. simpl in Hp.
      destruct Hp as [<-|[<-|[<-|[<-|[<-|[]]]]]]; reflexivity.
Qed.

End DataUri.

Lemma valid_data_uri_decodes_its_payload_witness :
  exists head payload,
    Samples.inlineIcon = (head ++ payload)%string /\
    ImageUtils.loadImageFromBase64 Demo.platform Samples.inlineIcon
    = base64Decode Demo.platform payload ≫= UIImage_ofData Demo.platform.
Proof.
  destruct (valid_data_uri_decodes_its_payload Demo.platform Samples.inlineIcon)
    as (head & payload & Hsplit & _ & Hload & _).
  - vm_compute. reflexivity.
  - exists head, payload. split; [exact Hsplit|exact Hload].
Defined.

Module DecodeFacts.





End DecodeFacts.

Section Malformed.
Import TabsBarPlugin DecodeFacts.
Context (P : Platform).


End Malformed.

(** * Facts about the completions of the loader *)

Module CompletionFacts.
Import ImageUtils Completions.

Section Loader.
Context (P : Platform) {C : Type}.
Implicit Type l : @Loader C.

Lemma numbered_empty : numbered (C:=C) Loader_empty.
Proof. split; simpl; [constructor|by intros e H%elem_of_nil]. Qed.

Lemma loadImageFromUrl_conserves l url k l' called :
  numbered l ->
  loadImageFromUrl P url k l = (l', called) ->
  numbered l' /\ map fst called ++ held l' ≡ₚ held l ++ [k].
Proof.
  intros [Hnd Hb]. unfold loadImageFromUrl, held.
  destruct (imageCache l !! url).
  { intros [= <- <-]. split; [done|]. simpl. apply Permutation_cons_append. }
  destruct (bool_decide _).
  { intros [= <- <-]. split; [done|]. simpl. by rewrite map_app, app_assoc. }
  destruct (urlScheme P url).
  - intros [= <- <-]. split.
    + split; simpl.
      * rewrite map_app. simpl. apply NoDup_app. split; [done|]. split; [|apply NoDup_singleton].
        intros t Ht Hin. apply list_elem_of_singleton in Hin as ->.
        apply list_elem_of_fmap in Ht as (e & He & Hin). apply Hb in Hin.
        unfold taskId at 1 in He. simpl in He. lia.
      * intros e [He|He]%elem_of_app; [apply Hb in He; lia|].
        apply list_elem_of_singleton in He as ->. unfold taskId. simpl. lia.
    + simpl. rewrite map_app. simpl.
      rewrite <- !app_assoc. apply Permutation_app_head. apply Permutation_app_comm.
  - intros [= <- <-]. split; [done|]. simpl. apply Permutation_cons_append.
Qed.

Lemma runRetry_conserves l n l' called :
  numbered l ->
  runRetry P n l = (l', called) ->
  numbered l' /\ map fst called ++ held l' ≡ₚ held l.
Proof.
  intros Hn. unfold runRetry.
  destruct (retries l !! n) as [[url k]|] eqn:Hr.
  2:{ intros [= <- <-]. done. }
  assert (Hp : retries l ≡ₚ (url, k) :: (take n (retries l) ++ drop (S n) (retries l)))
    by (by rewrite Permutation_middle, take_drop_middle).
  set (rest := (take n (retries l) ++ drop (S n) (retries l))%list) in *.
  intros Hload. apply loadImageFromUrl_conserves in Hload as [Hn' Hperm]; [|done].
  split; [done|]. rewrite Hperm. unfold held. simpl.
  rewrite <- app_assoc. apply Permutation_app_head.
  rewrite Hp. simpl. symmetry. apply Permutation_cons_append.
Qed.

(** The task a number names is the only one with that number. *)
Lemma find_task_split (ts : list (nat * string * C)) t e :
  NoDup (map taskId ts) ->
  List.find (fun e => Nat.eqb (fst (fst e)) t) ts = Some e ->
  ts ≡ₚ e :: List.filter (fun e => negb (Nat.eqb (fst (fst e)) t)) ts.
Proof.
  induction ts as [|a ts IH]; intros Hnd Hfind; [done|].
  simpl in *. apply NoDup_cons in Hnd as [Hnotin Hnd].
  destruct (Nat.eqb (fst (fst a)) t) eqn:Ha; simpl.
  - injection Hfind as <-. apply Permutation_skip.
    apply Nat.eqb_eq in Ha.
    assert (Hall : List.filter (fun e => negb (Nat.eqb (fst (fst e)) t)) ts = ts).
    { clear IH Hnd. induction ts as [|b ts IH]; [done|]. simpl.
      destruct (Nat.eqb (fst (fst b)) t) eqn:Hb; simpl.
      - exfalso. apply Nat.eqb_eq in Hb. apply Hnotin. unfold taskId at 1.
        rewrite Ha, <- Hb. simpl. left.
      - f_equal. apply IH. intros Hin. apply Hnotin. simpl. by right. }
    by rewrite Hall.
  - rewrite (IH Hnd Hfind) at 1. apply Permutation_swap.
Qed.

Lemma taskFinished_conserves l t r l' called :
  numbered l ->
  taskFinished P t r l = (l', called) ->
  numbered l' /\ map fst called ++ held l' ≡ₚ held l.
Proof.
  intros [Hnd Hb]. unfold taskFinished.
  destruct (find _ _) as [[[t0 url] k]|] eqn:Hfind.
  2:{ intros [= <- <-]. done. }
  pose proof (find_task_split _ _ _ Hnd Hfind) as Hsplit.
  set (remaining := List.filter _ (tasks l)) in *.
  assert (Hnum : forall c f, numbered (mkLoader c f remaining (retries l) (nextTask l) (issued l))).
  { intros c f. split; simpl.
    - assert (Hp : map taskId (tasks l) ≡ₚ t0 :: map taskId remaining)
        by (by rewrite Hsplit).
      rewrite Hp in Hnd. by apply NoDup_cons in Hnd as [_ ?].
    - intros e He. apply Hb. rewrite Hsplit. by right. }
  assert (Hheld : forall c f,
    k :: held (mkLoader c f remaining (retries l) (nextTask l) (issued l)) ≡ₚ held l).
  { intros c f. unfold held. simpl. by rewrite Hsplit. }
  destruct (acceptResponse P r); intros [= <- <-]; (split; [apply Hnum|apply Hheld]).
Qed.

Lemma step1_conserves (e : @LoaderEvents.Event C) l l' called :
  numbered l ->
  LoaderEvents.step1 P e l = (l', called) ->
  numbered l' /\ map fst called ++ held l' ≡ₚ held l ++ requested [e].
Proof.
  intros Hn. destruct e as [url k|n|t r]; simpl.
  - by apply loadImageFromUrl_conserves.
  - intros H. apply runRetry_conserves in H as [? ->]; [|done]. by rewrite app_nil_r.
  - intros H. apply taskFinished_conserves in H as [? ->]; [|done]. by rewrite app_nil_r.
Qed.

Lemma run_conserves es : forall l called,
  numbered l ->
  map fst (snd (fold_left (LoaderEvents.step P) es (l, called)))
  ++ held (fst (fold_left (LoaderEvents.step P) es (l, called)))
  ≡ₚ map fst called ++ held l ++ requested es.
Proof.
  induction es as [|e es IH]; intros l called Hn.
  - simpl. by rewrite app_nil_r.
  - destruct (LoaderEvents.step1 P e l) as [l' called'] eqn:He.
    assert (Hstep : LoaderEvents.step P (l, called) e = (l', (called ++ called')%list))
      by (unfold LoaderEvents.step; simpl; by rewrite He).
    destruct (step1_conserves _ _ _ _ Hn He) as [Hn' Hperm].
    simpl fold_left. rewrite Hstep, (IH _ _ Hn'). rewrite map_app, <- app_assoc.
    apply Permutation_app_head. rewrite app_assoc, Hperm.
    replace (requested (e :: es)) with (requested [e] ++ requested es)%list
      by (by destruct e).
    by rewrite app_assoc.
Qed.

End Loader.
End CompletionFacts.

Section Completions.
Import ImageUtils Completions CompletionFacts.
Context (P : Platform) {C : Type}.

(** X19. Along any course of requests, retries and task completions, the
    completions the loader has called together with those it still holds (in
    a data task or in a queued retry) are the completions it was given, each
    as often as it was given: none is dropped and none is called twice.  Once
    the loader holds none, every request has had its one answer. *)
Theorem every_request_gets_one_answer (es : list (@LoaderEvents.Event C)) :
  let st := LoaderEvents.run P es Loader_empty in
  (map fst (snd st) ++ held (fst st) ≡ₚ requested es) /\
  (tasks (fst st) = [] -> retries (fst st) = [] -> map fst (snd st) ≡ₚ requested es).
Proof.
  intros st.
  pose proof (run_conserves P es Loader_empty [] numbered_empty) as H.
  change (fold_left (LoaderEvents.step P) es (Loader_empty, [])) with st in H.
  simpl in H.
  split; [exact H|].
  intros Ht Hr. rewrite <- H. unfold held. rewrite Ht, Hr. simpl. by rewrite app_nil_r.
Qed.

End Completions.

Lemma every_request_gets_one_answer_witness :
  map fst (snd (LoaderEvents.run Demo.platform Samples.twoRequests ImageUtils.Loader_empty))
  ≡ₚ [1; 2]%nat.
Proof.
  destruct (every_request_gets_one_answer Demo.platform Samples.twoRequests) as [_ Hall].
  apply Hall; reflexivity.
Defined.
(** * Facts about the object URLs of the web image manager *)

Module ObjectUrlFacts.
Import Web.ImageManager ObjectUrls.

Section Web.
Context {W : Type}.
Implicit Type m : @t W.

Lemma createObjectURL_inj n1 n2 : createObjectURL n1 = createObjectURL n2 -> n1 = n2.
Proof.
  unfold createObjectURL. intros H. simpl in H. injection H as H.
  change (pretty n1 = pretty n2) in H. by apply (inj pretty) in H.
Qed.

Lemma tidy_empty : tidy (W:=W) empty.
Proof.
  split; simpl.
  - intros url c Hc. by rewrite lookup_empty in Hc.
  - intros url c Hc. by rewrite lookup_empty in Hc.
  - intros url1 url2 c1 c2 Hc. by rewrite lookup_empty in Hc.
  - intros u Hu. by apply elem_of_empty in Hu.
  - intros n Hn. lia.
Qed.

Lemma tidy_loadRemoteImage m url w now : tidy m -> tidy (loadRemoteImage url w now m).
Proof.
  intros [H1 H2 H3 H4 H5]. unfold loadRemoteImage.
  destruct (loadingPromises m !! url); [by split|].
  destruct (cache m !! url) as [c|]; [destruct (fresh now c)|]; by split.
Qed.

(** The URLs [cleanupCache] revokes are those of the entries it drops. *)
Lemma cleanupCache_spec now (c : gmap string CachedImage) :
  (forall url e, fst (cleanupCache now c) !! url = Some e <->
                 c !! url = Some e /\ expired now e = false) /\
  (forall u, u ∈ snd (cleanupCache now c) <->
             exists url e, c !! url = Some e /\ expired now e = true /\ objectUrl e = u).
Proof.
  unfold cleanupCache. simpl. split.
  - intros url e. by rewrite map_lookup_filter_Some.
  - intros u. rewrite elem_of_list_to_set, list_elem_of_In, in_map_iff. split.
    + intros ([url e] & <- & Hin). apply list_elem_of_In, elem_of_map_to_list in Hin.
      apply map_lookup_filter_Some in Hin as [Hc He]. simpl in *. eauto.
    + intros (url & e & Hc & He & <-). exists (url, e). split; [done|].
      apply list_elem_of_In, elem_of_map_to_list. by apply map_lookup_filter_Some.
Qed.

Lemma tidy_clearCache m : tidy m -> tidy (clearCache m).
Proof.
  intros [H1 H2 H3 H4 H5]. unfold clearCache.
  assert (Hin : forall u,
    u ∈ (list_to_set (map (fun e => objectUrl (snd e)) (map_to_list (cache m))) : gset string)
    <-> exists url c, cache m !! url = Some c /\ objectUrl c = u).
  { intros u. rewrite elem_of_list_to_set, list_elem_of_In, in_map_iff. split.
    - intros ([url c] & <- & Hin). apply list_elem_of_In, elem_of_map_to_list in Hin. eauto.
    - intros (url & c & Hc & <-). exists (url, c). split; [done|].
      by apply list_elem_of_In, elem_of_map_to_list. }
  split; simpl; try done.
  - intros u [Hu|Hu]%elem_of_union; [by apply H4|].
    apply Hin in Hu as (url & c & Hc & <-). by eapply H1.
  - intros n Hn. left. destruct (H5 n Hn) as [Hr|(url & c & Hc & Hu)].
    + by apply elem_of_union_l.
    + apply elem_of_union_r, Hin. eauto.
Qed.

Lemma tidy_fetchSettles m p o now : tidy m -> tidy (fetchSettles p o now m).
Proof.
  intros Ht. pose proof Ht as [H1 H2 H3 H4 H5]. unfold fetchSettles.
  destruct (pending m !! p) as [[url waiters]|]; [|done].
  destruct (checkResponse o) as [e|blob]; [by split|].
  set (new := mkCached url blob now (createObjectURL (nextObjectUrl m))).
  set (revokedOld := match cache m !! url with
                     | Some oldCached => {[objectUrl oldCached]}
                     | None => ∅
                     end : gset string).
  destruct (cleanupCache_spec now (<[url := new]> (cache m))) as [Hkeep Hdrop].
  destruct (cleanupCache now (<[url := new]> (cache m))) as [cache' revokedExpired].
  simpl in Hkeep, Hdrop. simpl.
  assert (Hold : forall u, u ∈ revokedOld <-> exists c, cache m !! url = Some c /\ objectUrl c = u).
  { intros u. unfold revokedOld. destruct (cache m !! url) as [c|].
    - rewrite elem_of_singleton. split; [intros ->; eauto|by intros (c' & [= <-] & <-)].
    - split; [by intros H%elem_of_empty|by intros (c' & ? & _)]. }
  (* the entries of the map with the new asset in *)
  assert (Hins : forall u c, <[url := new]> (cache m) !! u = Some c ->
            (u = url /\ c = new) \/ (u <> url /\ cache m !! u = Some c)).
  { intros u c. destruct (decide (u = url)) as [->|Hne].
    - rewrite lookup_insert_eq. intros [= <-]. by left.
    - rewrite lookup_insert_ne by done. by right. }
  assert (Hfresh : forall u c, cache m !! u = Some c ->
            objectUrl c <> createObjectURL (nextObjectUrl m)).
  { intros u c Hc Heq. destruct (H1 _ _ Hc) as (n & Hn & Hu).
    rewrite Hu in Heq. apply createObjectURL_inj in Heq. lia. }
  assert (Hdist : forall u1 u2 c1 c2,
            <[url := new]> (cache m) !! u1 = Some c1 ->
            <[url := new]> (cache m) !! u2 = Some c2 ->
            objectUrl c1 = objectUrl c2 -> u1 = u2).
  { intros u1 u2 c1 c2 Hc1 Hc2 Heq.
    destruct (Hins _ _ Hc1) as [[-> ->]|[Hn1 Hc1']], (Hins _ _ Hc2) as [[-> ->]|[Hn2 Hc2']];
      try done.
    - exfalso. by apply (Hfresh _ _ Hc2').
    - exfalso. by apply (Hfresh _ _ Hc1').
    - by eapply H3. }
  split; simpl.
  - intros u c [Hc He]%Hkeep. destruct (Hins _ _ Hc) as [[-> ->]|[Hne Hc']].
    + exists (nextObjectUrl m). split; [lia|done].
    + destruct (H1 _ _ Hc') as (n & Hn & Hu). exists n. split; [lia|done].
  - intros u c [Hc He]%Hkeep Hrev.
    apply elem_of_union in Hrev as [[Hrev|Hrev]%elem_of_union|Hrev].
    + destruct (Hins _ _ Hc) as [[-> ->]|[Hne Hc']].
      * destruct (H4 _ Hrev) as (n & Hn & Hu). simpl in Hu.
        apply createObjectURL_inj in Hu. lia.
      * by apply (H2 _ _ Hc').
    + apply Hold in Hrev as (c0 & Hc0 & Hu).
      assert (Hc0' : <[url := new]> (cache m) !! url = Some new) by apply lookup_insert_eq.
      destruct (Hins _ _ Hc) as [[-> ->]|[Hne Hc']].
      * by apply (Hfresh _ _ Hc0).
      * apply Hne. by apply (H3 _ _ _ _ Hc' Hc0).
    + apply Hdrop in Hrev as (u' & c' & Hc' & He' & Hu).
      assert (u' = u) as -> by (by apply (Hdist _ _ _ _ Hc' Hc)).
      congruence.
  - intros u1 u2 c1 c2 [Hc1 _]%Hkeep [Hc2 _]%Hkeep. by apply Hdist.
  - intros u Hrev.
    apply elem_of_union in Hrev as [[Hrev|Hrev]%elem_of_union|Hrev].
    + destruct (H4 _ Hrev) as (n & Hn & Hu). exists n. split; [lia|done].
    + apply Hold in Hrev as (c0 & Hc0 & <-).
      destruct (H1 _ _ Hc0) as (n & Hn & Hu). exists n. split; [lia|done].
    + apply Hdrop in Hrev as (u' & c' & Hc' & He' & <-).
      destruct (Hins _ _ Hc') as [[-> ->]|[Hne Hc'']].
      * exists (nextObjectUrl m). split; [lia|done].
      * destruct (H1 _ _ Hc'') as (n & Hn & Hu). exists n. split; [lia|done].
  - intros n Hn.
    assert (Hentry : forall u c, <[url := new]> (cache m) !! u = Some c ->
              objectUrl c ∈ revokedExpired \/
              exists u' c', cache' !! u' = Some c' /\ objectUrl c' = objectUrl c).
    { intros u c Hc. destruct (expired now c) eqn:He.
      - left. apply Hdrop. eauto.
      - right. exists u, c. split; [|done]. by apply Hkeep. }
    destruct (decide (n = nextObjectUrl m)) as [->|Hne].
    + destruct (Hentry url new) as [Hr|Hc]; [apply lookup_insert_eq| |].
      * left. by apply elem_of_union_r.
      * by right.
    + destruct (H5 n) as [Hr|(u & c & Hc & Hu)]; [lia| |].
      * left. by apply elem_of_union_l, elem_of_union_l.
      * destruct (decide (u = url)) as [->|Hnu].
        -- left. apply elem_of_union_l, elem_of_union_r, Hold. eauto.
        -- destruct (Hentry u c) as [Hr|Hc']; [by rewrite lookup_insert_ne| |].
           ++ left. rewrite <- Hu. by apply elem_of_union_r.
           ++ right. by rewrite <- Hu.
Qed.

Lemma tidy_run es : forall m, tidy m -> tidy (run es m).
Proof.
  induction es as [|e es IH]; intros m Hm; [done|].
  simpl. apply IH. destruct e; simpl;
    [by apply tidy_loadRemoteImage|by apply tidy_fetchSettles|by apply tidy_clearCache].
Qed.

End Web.
End ObjectUrlFacts.

Section ObjectUrls.
Import Web.ImageManager ObjectUrls ObjectUrlFacts.
Context {W : Type}.

(** X20. Whatever is asked of the manager, whatever the network answers and
    whenever the cache is cleared: an object URL the manager created is the
    URL of exactly one cache entry or is revoked, never both, so none leaks
    and none that the cache still serves has been revoked. *)
Theorem object_urls_are_cached_or_revoked (es : list (@Event W)) n :
  let m := run es empty in
  let u := createObjectURL n in
  (n < nextObjectUrl m)%nat ->
  ((u ∈ revoked m) /\ (forall url c, cache m !! url = Some c -> objectUrl c <> u)) \/
  ((u ∉ revoked m) /\
   exists url c, cache m !! url = Some c /\ objectUrl c = u /\
     forall url' c', cache m !! url' = Some c' -> objectUrl c' = u -> url' = url).
Proof.
  intros m u Hn.
  pose proof (tidy_run es empty tidy_empty) as Ht. fold m in Ht.
  destruct (decide (u ∈ revoked m)) as [Hr|Hr].
  - left. split; [done|]. intros url c Hc Hu.
    apply (cached_live _ Ht _ _ Hc). by rewrite Hu.
  - right. split; [done|].
    destruct (created_accounted _ Ht n Hn) as [Hr'|(url & c & Hc & Hu)]; [done|].
    exists url, c. repeat split; try done.
    intros url' c' Hc' Hu'. apply (cached_distinct _ Ht _ _ _ _ Hc' Hc). by rewrite Hu'.
Qed.

End ObjectUrls.

Lemma object_urls_are_cached_or_revoked_witness :
  let m := Web.ImageManager.run Samples.answered Web.ImageManager.empty in
  (Web.ImageManager.createObjectURL 0 ∉ Web.ImageManager.revoked m) /\
  exists url c, Web.ImageManager.cache m !! url = Some c /\
    Web.ImageManager.objectUrl c = Web.ImageManager.createObjectURL 0.
Proof.
  destruct (object_urls_are_cached_or_revoked Samples.answered 0)
    as [[Hrevoked _]|[Hlive (url & c & Hc & Hu & _)]].
  - vm_compute. lia.
  - exfalso. revert Hrevoked. vm_compute. discriminate.
  - split; [exact Hlive|]. exists url, c. split; [exact Hc|exact Hu].
Defined.
(** ** The pattern of [parseRgbaColor] *)

Module RegexFacts.
Import Regex RegexNotation.


Section Match.
Context {A : Type}.
Implicit Type k : string -> nat -> Captures -> option A.

Lemma matchAt_Star r' s pos caps k :
  matchAt (Star r') s pos caps k = rounds r' k (S (String.length s)) s pos caps.
Proof. reflexivity. Qed.

(** A starred class takes the whole run when what follows then matches. *)
Lemma rounds_class class k a : forall run rest fuel pos caps,
  allIn class run = true -> startsIn class rest = false ->
  (String.length run < fuel)%nat ->
  k rest (pos + String.length run)%nat caps = Some a ->
  rounds (Chr class) k fuel (run ++ rest) pos caps = Some a.
Proof.
  induction run as [|c run IH]; intros rest fuel pos caps Hrun Hrest Hfuel Hk.
  - simpl in *. rewrite Nat.add_0_r in Hk. destruct fuel as [|fuel]; [lia|]. simpl.
    destruct rest as [|d rest]; simpl in *; [exact Hk|]. rewrite Hrest. exact Hk.
  - simpl in Hrun. apply andb_true_iff in Hrun as [Hc Hrun].
    destruct fuel as [|fuel]; [simpl in Hfuel; lia|]. simpl. rewrite Hc.
    replace (pos <? S pos)%nat with true by (symmetry; apply Nat.ltb_lt; lia).
    fold (rounds (A:=A) (Chr class) k).
    rewrite (IH rest fuel (S pos) caps Hrun Hrest); [done|simpl in Hfuel; lia|].
    simpl in Hk. by rewrite <- Nat.add_succ_comm in Hk.
Qed.

Lemma length_app (s1 s2 : string) :
  String.length (s1 ++ s2) = (String.length s1 + String.length s2)%nat.
Proof. induction s1 as [|c s1 IH]; simpl; [done|]. by rewrite IH. Qed.

Lemma matchAt_star_class class run rest pos caps k a :
  allIn class run = true -> startsIn class rest = false ->
  k rest (pos + String.length run)%nat caps = Some a ->
  matchAt (Star (Chr class)) (run ++ rest) pos caps k = Some a.
Proof.
  intros Hrun Hrest Hk. rewrite matchAt_Star. apply rounds_class; try done.
  rewrite length_app. lia.
Qed.

Lemma matchAt_Seq r1 r2 s pos caps k :
  matchAt (Seq r1 r2) s pos caps k
  = matchAt r1 s pos caps (fun s' pos' caps' => matchAt r2 s' pos' caps' k).
Proof. reflexivity. Qed.

Lemma matchAt_Chr class c rest pos caps k :
  matchAt (Chr class) (String c rest) pos caps k
  = if class c then k rest (S pos) caps else None.
Proof. reflexivity. Qed.

Lemma matchAt_Alt r1 r2 s pos caps k :
  matchAt (Alt r1 r2) s pos caps k
  = match matchAt r1 s pos caps k with
    | Some a => Some a
    | None => matchAt r2 s pos caps k
    end.
Proof. reflexivity. Qed.

Lemma matchAt_Group n r s pos caps k :
  matchAt (Group n r) s pos caps k
  = matchAt r s pos caps (fun s' pos' caps' => k s' pos' (<[n := (pos, pos')]> caps')).
Proof. reflexivity. Qed.

Lemma matchAt_Eps s pos caps k : matchAt Eps s pos caps k = k s pos caps.
Proof. reflexivity. Qed.

Lemma matchAt_plus_class class run rest pos caps k a :
  allIn class run = true -> run <> "" -> startsIn class rest = false ->
  k rest (pos + String.length run)%nat caps = Some a ->
  matchAt (Plus (Chr class)) (run ++ rest) pos caps k = Some a.
Proof.
  intros Hrun Hne Hrest Hk. destruct run as [|c run]; [done|].
  simpl in Hrun. apply andb_true_iff in Hrun as [Hc Hrun].
  unfold Plus. rewrite matchAt_Seq.
  change (String c run ++ rest) with (String c (run ++ rest)).
  rewrite matchAt_Chr, Hc. apply matchAt_star_class; try done.
  simpl in Hk. by rewrite <- Nat.add_succ_comm in Hk.
Qed.

(** An optional expression that cannot start here is skipped. *)
Lemma matchAt_Opt_skip class r s pos caps k :
  startsIn class s = false ->
  matchAt (Opt (Seq (Chr class) r)) s pos caps k = k s pos caps.
Proof.
  intros Hs. unfold Opt. rewrite matchAt_Alt, matchAt_Seq.
  destruct s as [|c s]; [done|]. simpl in Hs. by rewrite matchAt_Chr, Hs.
Qed.

End Match.
End RegexFacts.

Module RgbFacts.
Import Regex RegexNotation RegexFacts SwiftString ColorUtils.



Section Classes.
Context {A : Type}.
Implicit Type k : string -> nat -> Captures -> option A.

Lemma matchAt_spaces w rest pos caps k a :
  allIn spaceClass w = true -> startsIn spaceClass rest = false ->
  k rest (pos + String.length w)%nat caps = Some a ->
  matchAt spaces (w ++ rest) pos caps k = Some a.
Proof. apply matchAt_star_class. Qed.

Lemma matchAt_no_spaces rest pos caps k a :
  startsIn spaceClass rest = false ->
  k rest pos caps = Some a ->
  matchAt spaces rest pos caps k = Some a.
Proof.
  intros Hrest Hk. apply (matchAt_spaces "" rest); [done|done|].
  by rewrite Nat.add_0_r.
Qed.

Lemma matchAt_number digits rest pos caps k a :
  allIn isDigit digits = true -> digits <> "" ->
  startsIn isDigit rest = false -> startsIn pointClass rest = false ->
  k rest (pos + String.length digits)%nat caps = Some a ->
  matchAt number (digits ++ rest) pos caps k = Some a.
Proof.
  intros Hd Hne Hrest Hpoint Hk. unfold number. rewrite matchAt_Seq.
  apply matchAt_plus_class; try done.
  unfold fraction. by rewrite (matchAt_Opt_skip pointClass).
Qed.

Lemma matchAt_lit c rest pos caps k :
  matchAt (lit c) (String c rest) pos caps k = k rest (S pos) caps.
Proof. unfold lit. rewrite matchAt_Chr. by rewrite Ascii.eqb_refl. Qed.

End Classes.

Lemma firstMatchFrom_here r s pos caps :
  matchAt r s pos ∅ (fun _ pos' caps => Some (<[0%nat := (pos, pos')]> caps)) = Some caps ->
  firstMatchFrom r s pos = Some caps.
Proof. intros H. destruct s; simpl; by rewrite H. Qed.

(** A string of digits starts with a digit: no space, no point, no comma. *)
Lemma digits_start digits rest :
  allIn isDigit digits = true -> digits <> "" ->
  startsIn spaceClass (digits ++ rest) = false.
Proof.
  intros Hd Hne. destruct digits as [|c digits]; [done|]. simpl in *.
  apply andb_true_iff in Hd as [Hc _].
  destruct c as [[] [] [] [] [] [] [] []]; try done.
Qed.

Lemma append_nil (s : string) : "" ++ s = s.
Proof. reflexivity. Qed.

Lemma append_cons c (s1 s2 : string) : String c s1 ++ s2 = String c (s1 ++ s2).
Proof. reflexivity. Qed.

Lemma substring_head middle : forall rest,
  String.substring 0 (String.length middle) (middle ++ rest) = middle.
Proof.
  induction middle as [|d middle IH]; intros rest.
  - rewrite append_nil. by destruct rest.
  - rewrite append_cons. simpl. by rewrite IH.
Qed.

Lemma substring_middle head : forall middle rest,
  String.substring (String.length head) (String.length middle) (head ++ middle ++ rest)
  = middle.
Proof.
  induction head as [|c head IH]; intros middle rest.
  - rewrite append_nil. apply substring_head.
  - rewrite append_cons. simpl. apply IH.
Qed.



Lemma rgb_match (a : bool) R w1 G w2 B :
  allIn isDigit R = true -> R <> "" ->
  allIn isDigit G = true -> G <> "" ->
  allIn isDigit B = true -> B <> "" ->
  allIn spaceClass w1 = true -> allIn spaceClass w2 = true ->
  let pR := ((if a then 4%nat else 3%nat) + 1)%nat in
  let pG := (pR + String.length R + 1 + String.length w1)%nat in
  let pB := (pG + String.length G + 1 + String.length w2)%nat in
  exists caps,
    firstMatch rgbaPattern (rgbText a R w1 G w2 B) = Some caps /\
    caps !! 1%nat = Some (pR, (pR + String.length R)%nat) /\
    caps !! 2%nat = Some (pG, (pG + String.length G)%nat) /\
    caps !! 3%nat = Some (pB, (pB + String.length B)%nat) /\
    caps !! 4%nat = None.
Proof.
  intros HR HRne HG HGne HB HBne Hw1 Hw2 pR pG pB.
  assert (Hmatch : forall pos rest' (k : string -> nat -> Captures -> option Captures) c,
    (rest' = "(" ++ R ++ "," ++ w1 ++ G ++ "," ++ w2 ++ B ++ ")") ->
    k "" (pos + 1 + String.length R + 1 + String.length w1 + String.length G + 1
          + String.length w2 + String.length B + 1)%nat
      (<[3%nat := ((pos + 1 + String.length R + 1 + String.length w1 + String.length G + 1
                   + String.length w2)%nat,
                  (pos + 1 + String.length R + 1 + String.length w1 + String.length G + 1
                   + String.length w2 + String.length B)%nat)]>
         (<[2%nat := ((pos + 1 + String.length R + 1 + String.length w1)%nat,
                     (pos + 1 + String.length R + 1 + String.length w1
                      + String.length G)%nat)]>
            (<[1%nat := ((pos + 1)%nat, (pos + 1 + String.length R)%nat)]> ∅)))
    = Some c ->
    matchAt components
      rest' pos ∅ k = Some c).
  { intros pos rest' k c -> Hk. unfold components.
    rewrite matchAt_Seq. rewrite append_cons, append_nil, matchAt_lit.
    rewrite matchAt_Seq. apply matchAt_no_spaces; [by apply digits_start|].
    rewrite matchAt_Seq, matchAt_Group. apply matchAt_number; try done.
    rewrite matchAt_Seq. apply matchAt_no_spaces; [done|].
    rewrite matchAt_Seq. rewrite append_cons, append_nil, matchAt_lit.
    rewrite matchAt_Seq. apply matchAt_spaces; [done|by apply digits_start|].
    rewrite matchAt_Seq, matchAt_Group. apply matchAt_number; try done.
    rewrite matchAt_Seq. apply matchAt_no_spaces; [done|].
    rewrite matchAt_Seq. rewrite append_cons, append_nil, matchAt_lit.
    rewrite matchAt_Seq. apply matchAt_spaces; [done|by apply digits_start|].
    rewrite matchAt_Seq, matchAt_Group. apply matchAt_number; try done.
    rewrite matchAt_Seq. apply matchAt_no_spaces; [done|].
    rewrite matchAt_Seq. rewrite (matchAt_Opt_skip commaClass) by done.
    rewrite matchAt_Seq. apply matchAt_no_spaces; [done|].
    rewrite matchAt_lit. rewrite <- Hk. f_equal; [lia|].
    repeat (f_equal; try lia). }
  assert (Hhead : forall (k : string -> nat -> Captures -> option Captures) c,
    matchAt components ("(" ++ R ++ "," ++ w1 ++ G ++ "," ++ w2 ++ B ++ ")")
            (if a then 4 else 3)%nat ∅ k = Some c ->
    matchAt rgbaPattern (rgbText a R w1 G w2 B) 0 ∅ k = Some c).
  { intros k c Hk. unfold rgbaPattern, rgbText.
    rewrite matchAt_Seq. rewrite append_cons, matchAt_lit.
    rewrite matchAt_Seq. rewrite append_cons, matchAt_lit.
    rewrite matchAt_Seq. rewrite append_cons, append_nil, matchAt_lit.
    rewrite matchAt_Seq. unfold Opt. rewrite matchAt_Alt. destruct a.
    - rewrite append_cons, append_nil, matchAt_lit. by rewrite Hk.
    - rewrite append_nil. rewrite append_cons at 1. unfold lit at 1. rewrite matchAt_Chr.
      simpl (Ascii.eqb _ _). cbv iota. rewrite matchAt_Eps. exact Hk. }
  eexists. split.
  - unfold firstMatch. apply firstMatchFrom_here. apply Hhead.
    erewrite Hmatch; [reflexivity|reflexivity|reflexivity].
  - unfold pR, pG, pB. unfold Captures in *.
    repeat split; simplify_map_eq; try done; f_equal; lia.
Qed.



Lemma pretty_N_char_digit (x : N) :
  (x < 10)%N ->
  isDigit (pretty_N_char x) = true /\
  (Z.of_nat (nat_of_ascii (pretty_N_char x)) - 48 = Z.of_N x)%Z.
Proof.
  intros Hx. 
  assert (H : (x = 0 \/ x = 1 \/ x = 2 \/ x = 3 \/ x = 4 \/ x = 5 \/ x = 6 \/ x = 7
               \/ x = 8 \/ x = 9)%N) by lia.
  repeat (destruct H as [->|H]; [by vm_compute|]). subst x. by vm_compute.
Qed.

Lemma pretty_N_go_digits : forall (x : N) s,
  allIn isDigit s = true -> allIn isDigit (pretty_N_go x s) = true.
Proof.
  intros x. induction (N.lt_wf_0 x) as [x _ IH]. intros s Hs.
  destruct (decide (x = 0)%N) as [->|Hx].
  - by rewrite pretty_N_go_0.
  - rewrite pretty_N_go_step by lia. apply IH.
    + apply N.div_lt; lia.
    + simpl. rewrite Hs, andb_true_r.
      apply pretty_N_char_digit. apply N.mod_lt. lia.
Qed.

Lemma pretty_N_go_nonempty : forall (x : N) s,
  s <> "" -> pretty_N_go x s <> "".
Proof.
  intros x. induction (N.lt_wf_0 x) as [x _ IH]. intros s Hs.
  destruct (decide (x = 0)%N) as [->|Hx].
  - by rewrite pretty_N_go_0.
  - rewrite pretty_N_go_step by lia. apply IH; [apply N.div_lt; lia|done].
Qed.

Lemma pretty_N_go_value : forall (x : N) s count,
  (0 < x)%N ->
  exists count', decimalDigits 0 count (pretty_N_go x s)
                 = decimalDigits (Z.of_N x) (S count') s.
Proof.
  intros x. induction (N.lt_wf_0 x) as [x _ IH]. intros s count Hx.
  rewrite pretty_N_go_step by lia.
  destruct (pretty_N_char_digit (x `mod` 10)) as [Hd Hv]; [apply N.mod_lt; lia|].
  destruct (decide (x `div` 10 = 0)%N) as [Hq|Hq].
  - rewrite Hq, pretty_N_go_0. exists count. simpl. rewrite Hd. f_equal.
    rewrite Hv. pose proof (N.div_mod x 10). lia.
  - destruct (IH (x `div` 10)%N) with (s := String (pretty_N_char (x `mod` 10)) s)
      (count := count) as [c' Hc']; [apply N.div_lt; lia|by apply N.neq_0_lt_0|].
    rewrite Hc'. exists (S c'). simpl. rewrite Hd. f_equal.
    rewrite Hv. pose proof (N.div_mod x 10). lia.
Qed.

Lemma pretty_digits (n : N) :
  allIn isDigit (pretty n) = true /\ pretty n <> "".
Proof.
  unfold pretty, pretty_N. destruct (decide (n = 0)%N) as [->|Hn]; [done|].
  split.
  - by apply pretty_N_go_digits.
  - rewrite pretty_N_go_step by lia. by apply pretty_N_go_nonempty.
Qed.

Lemma Double_ofString_pretty (n : N) :
  Double_ofString (pretty n) = Some (inject_Z (Z.of_N n)).
Proof.
  unfold pretty, pretty_N. destruct (decide (n = 0)%N) as [->|Hn]; [done|].
  unfold Double_ofString.
  destruct (pretty_N_go_value n "" 0) as [c' ->]; [lia|]. done.
Qed.



Lemma append_assoc (s1 s2 s3 : string) : (s1 ++ s2) ++ s3 = s1 ++ s2 ++ s3.
Proof.
  induction s1 as [|c s1 IH]; [by rewrite !append_nil|].
  by rewrite !append_cons, IH.
Qed.

Lemma substring_at head middle rest n m s :
  s = head ++ middle ++ rest ->
  n = String.length head -> m = (n + String.length middle)%nat ->
  String.substring n (m - n) s = middle.
Proof.
  intros -> -> ->.
  replace (String.length head + String.length middle - String.length head)%nat
    with (String.length middle) by lia.
  apply substring_middle.
Qed.

Lemma Qle_bool_inject (n : N) :
  Qle_bool 0 (inject_Z (Z.of_N n)) = true.
Proof. apply Qle_bool_iff. unfold Qle. simpl. lia. Qed.

Lemma Qle_bool_255 (n : N) :
  Qle_bool (inject_Z (Z.of_N n)) 255 = (n <=? 255)%N.
Proof.
  destruct (N.leb_spec n 255) as [H|H].
  - apply Qle_bool_iff. unfold Qle. simpl. lia.
  - apply not_true_is_false. intros H'. apply Qle_bool_iff in H'.
    unfold Qle in H'. simpl in H'. lia.
Qed.

End RgbFacts.

Section RgbText.
Import Regex RegexNotation RegexFacts RgbFacts SwiftString ColorUtils.

(** X5. [parseRgbaColor] reads [rgb(r,g,b)] and [rgba(r,g,b)], the three
    components written in decimal and blanks allowed after the commas: the
    colour has the components divided by 255 and alpha 1 when none exceeds
    255, and there is no colour otherwise. *)
Theorem parseRgbaColor_reads_decimal_components (a : bool) (r g b : N) (w1 w2 : string) :
  allIn spaceClass w1 = true -> allIn spaceClass w2 = true ->
  parseRgbaColor (rgbText a (pretty r) w1 (pretty g) w2 (pretty b)) =
    if ((r <=? 255) && (g <=? 255) && (b <=? 255))%N
    then Some (RGBA (inject_Z (Z.of_N r) / 255) (inject_Z (Z.of_N g) / 255)
                    (inject_Z (Z.of_N b) / 255) 1)
    else None.
Proof.
  intros Hw1 Hw2.
  destruct (pretty_digits r) as [Hr Hrne], (pretty_digits g) as [Hg Hgne],
    (pretty_digits b) as [Hb Hbne].
  destruct (rgb_match a _ w1 _ w2 _ Hr Hrne Hg Hgne Hb Hbne Hw1 Hw2)
    as (caps & Hm & H1 & H2 & H3 & H4).
  unfold parseRgbaColor. rewrite Hm. cbv beta iota zeta.
  unfold substringAt. rewrite H1, H2, H3, H4.
  set (head := "rgb" ++ (if a then "a" else "") ++ "(").
  assert (Hhead : String.length head = ((if a then 4 else 3) + 1)%nat)
    by (by destruct a).
  rewrite (substring_at head (pretty r)
             ("," ++ w1 ++ pretty g ++ "," ++ w2 ++ pretty b ++ ")")); cycle 1.
  { unfold rgbText, head. by rewrite !append_assoc. }
  { by rewrite Hhead. }
  { done. }
  rewrite (substring_at (head ++ pretty r ++ "," ++ w1) (pretty g)
             ("," ++ w2 ++ pretty b ++ ")")); cycle 1.
  { unfold rgbText, head. by rewrite !append_assoc. }
  { rewrite !length_app, Hhead. simpl. lia. }
  { done. }
  rewrite (substring_at (head ++ pretty r ++ "," ++ w1 ++ pretty g ++ "," ++ w2)
             (pretty b) ")"); cycle 1.
  { unfold rgbText, head. by rewrite !append_assoc. }
  { rewrite !length_app, Hhead. simpl. lia. }
  { done. }
  simpl. rewrite !Double_ofString_pretty. simpl.
  rewrite !Qle_bool_inject, !Qle_bool_255. simpl.
  replace (Qle_bool 0 1) with true by done. replace (Qle_bool 1 1) with true by done.
  by rewrite !andb_true_r.
Qed.

Lemma parseRgbaColor_reads_decimal_components_witness :
  allIn spaceClass " " = true /\
  parseRgbaColor "rgb(255, 87, 51)" =
    Some (RGBA (255 / 255) (87 / 255) (51 / 255) 1).
Proof.
  split; [reflexivity|].
  exact (parseRgbaColor_reads_decimal_components false 255 87 51 " " " "
           eq_refl eq_refl).
Defined.

End RgbText.
